(** * var-sync: a shallow embedding of the change-propagation engine

    Go strings are byte strings; they are modelled as [String.string]
    (one [ascii] per byte).  Go maps are association lists (first binding
    wins on lookup, assignment replaces in place or appends).  Go's [int]
    sentinel [-1] for "no index" is kept as a [Z]. *)

From Stdlib Require Import String Ascii List Bool Arith Lia ZArith NArith.
From Stdlib Require Import DecimalString DecimalN Sorting.Permutation.
Import ListNotations.
Open Scope string_scope.
Set Warnings "-register-all".

(* ------------------------------------------------------------------ *)
(** ** Go [strings] helpers used by the sources *)

(** [strings.HasPrefix] *)
Fixpoint HasPrefix (s p : string) : bool :=
  match p, s with
  | EmptyString, _ => true
  | String c p', String d s' => Ascii.eqb c d && HasPrefix s' p'
  | String _ _, EmptyString => false
  end.

(** [s[len(s)-n:] == suf] guarded by [len(s) >= n], as written in
    [DetectFormat]. *)
Definition tail_is (s : string) (n : nat) (suf : string) : bool :=
  Nat.leb n (String.length s) && String.eqb (substring (String.length s - n) n s) suf.

(** [strings.HasSuffix] *)
Definition HasSuffix (s suf : string) : bool :=
  tail_is s (String.length suf) suf.

(** [strings.Index(s, sep)] for a non-empty [sep]; [None] is Go's [-1]. *)
Fixpoint Index (s sep : string) : option nat :=
  if HasPrefix s sep then Some 0
  else match s with
       | EmptyString => None
       | String _ s' => option_map S (Index s' sep)
       end.

(** [strings.Contains] for a single byte. *)
Fixpoint ContainsChar (s : string) (c : ascii) : bool :=
  match s with
  | EmptyString => false
  | String d s' => Ascii.eqb c d || ContainsChar s' c
  end.

(** [strings.Split(s, sep)] for a one-byte separator. *)
Fixpoint Split (s : string) (sep : ascii) : list string :=
  match s with
  | EmptyString => [EmptyString]
  | String c s' =>
      if Ascii.eqb c sep then EmptyString :: Split s' sep
      else match Split s' sep with
           | [] => [String c EmptyString]
           | w :: ws => String c w :: ws
           end
  end.

(** [strings.Join(parts, sep)] for a one-byte separator. *)
Fixpoint Join (parts : list string) (sep : ascii) : string :=
  match parts with
  | [] => EmptyString
  | [w] => w
  | w :: ws => w ++ String sep (Join ws sep)
  end.

(** [strings.SplitN(s, sep, 2)] for a one-byte separator: [(before, after)]
    when [sep] occurs, [None] when the result has a single element. *)
Fixpoint SplitN2 (s : string) (sep : ascii) : option (string * string) :=
  match s with
  | EmptyString => None
  | String c s' =>
      if Ascii.eqb c sep then Some (EmptyString, s')
      else match SplitN2 s' sep with
           | Some (a, b) => Some (String c a, b)
           | None => None
           end
  end.

(** ASCII part of [unicode.IsSpace], used by [strings.TrimSpace]. *)
Definition is_space (c : ascii) : bool :=
  match nat_of_ascii c with
  | 9 | 10 | 11 | 12 | 13 | 32 => true
  | _ => false
  end.

(** [strings.TrimLeftFunc] / [strings.TrimRightFunc] *)
Fixpoint TrimLeftF (f : ascii -> bool) (s : string) : string :=
  match s with
  | EmptyString => EmptyString
  | String c s' => if f c then TrimLeftF f s' else s
  end.

Fixpoint rev_str (s : string) : string :=
  match s with
  | EmptyString => EmptyString
  | String c s' => rev_str s' ++ String c EmptyString
  end.

Definition TrimRightF (f : ascii -> bool) (s : string) : string :=
  rev_str (TrimLeftF f (rev_str s)).

(** [strings.TrimSpace] *)
Definition TrimSpace (s : string) : string :=
  TrimRightF is_space (TrimLeftF is_space s).

(** [strings.Trim(s, "[]")] *)
Definition is_bracket (c : ascii) : bool :=
  Ascii.eqb c "[" || Ascii.eqb c "]".
Definition TrimBrackets (s : string) : string :=
  TrimRightF is_bracket (TrimLeftF is_bracket s).

(** [fmt.Sprintf("%d", n)] for a non-negative [n]. *)
Definition itoa (n : Z) : string :=
  NilZero.string_of_uint (N.to_uint (Z.to_N n)).

(** [s[:n]] and [s[n:]] *)
Definition prefix_n (s : string) (n : nat) : string := substring 0 n s.
Definition suffix_n (s : string) (n : nat) : string :=
  substring n (String.length s - n) s.

(** [s[i]] for [i < len(s)] (the default byte is never read). *)
Definition byte_at (s : string) (i : nat) : ascii :=
  match String.get i s with Some c => c | None => "000"%char end.

(* ------------------------------------------------------------------ *)
(** ** pkg/models: [FileFormat] and [DetectFormat] *)

(** [type FileFormat string]: any string is a [FileFormat] value. *)
Definition FileFormat := string.
Definition FormatJSON : FileFormat := "json".
Definition FormatYAML : FileFormat := "yaml".
Definition FormatTOML : FileFormat := "toml".

Definition DetectFormat (filepath : string) : FileFormat :=
  if tail_is filepath 5 ".yaml" then FormatYAML
  else if tail_is filepath 4 ".yml" then FormatYAML
  else if tail_is filepath 5 ".toml" then FormatTOML
  else if tail_is filepath 5 ".json" then FormatJSON
  else FormatJSON.

(* ------------------------------------------------------------------ *)
(** ** Decoded trees ([map[string]any] and friends) *)

(** The dynamic values the loaders produce: scalars, [map[string]any],
    [map[any]any] (keys kept as their [%v] rendering), [[]any] and the
    TOML decoder's [[]map[string]interface{}] for arrays of tables. *)
Inductive value : Type :=
| VNull
| VBool (b : bool)
| VInt (z : Z)
| VString (s : string)
| VMap (m : list (string * value))
| VMapAny (m : list (string * value))
| VList (xs : list value)
| VTableArray (xs : list (list (string * value))).

Definition gomap := list (string * value).

(** [v, ok := m[k]] *)
Fixpoint lookup (k : string) (m : gomap) : option value :=
  match m with
  | [] => None
  | (k', x) :: m' => if String.eqb k k' then Some x else lookup k m'
  end.

(** [m[k] = x]: replace the binding in place, or add it. *)
Fixpoint map_set (k : string) (x : value) (m : gomap) : gomap :=
  match m with
  | [] => [(k, x)]
  | (k', y) :: m' => if String.eqb k k' then (k', x) :: m' else (k', y) :: map_set k x m'
  end.

(** [a[i] = x] for an in-range [i]. *)
Fixpoint list_set {A} (l : list A) (i : nat) (x : A) : list A :=
  match l, i with
  | [], _ => []
  | _ :: l', O => x :: l'
  | y :: l', S i' => y :: list_set l' i' x
  end.

(** [convertMapInterface]: copy a [map[any]any] into a [map[string]any],
    converting nested [map[any]any] values recursively. *)
Fixpoint conv_val (v : value) : value :=
  match v with
  | VMapAny m =>
      VMap ((fix go (l : gomap) : gomap :=
               match l with
               | [] => []
               | (k, x) :: l' => (k, conv_val x) :: go l'
               end) m)
  | _ => v
  end.

Definition convertMapInterface (m : gomap) : gomap :=
  match conv_val (VMapAny m) with VMap m' => m' | _ => [] end.

(** Error values returned by the parser and the rewriters. *)
Inductive error : Type :=
| EReadFile
| EUnsupported (f : FileFormat)
| EParse (f : FileFormat)
| ESegment (seg : string)
| EKeyNotFound
| ENotObject
| EIndexOutOfBounds
| ENotArray
| EUnexpectedEnd
| EArrayKeyNotFound (key : string)
| ETableArrayPrimitive (key : string)
| ESetNonObject
| EConflict
| ENoKeyPaths.

Inductive result (A : Type) : Type :=
| Ok (a : A)
| Err (e : error).
Arguments Ok {A} a.
Arguments Err {A} e.

(* ------------------------------------------------------------------ *)
(** ** parser.LoadFile *)

Section Loader.
(** The file system and the three decoding libraries are collaborators:
    [ReadFile] is [os.ReadFile], the [*_Unmarshal] functions are
    [encoding/json], [yaml.v3] and [BurntSushi/toml] ([None] = decode
    error). *)
Variable ReadFile : string -> option string.
Variables json_Unmarshal yaml_Unmarshal toml_Unmarshal : string -> option gomap.

Definition LoadFile (filepath : string) : result gomap :=
  match ReadFile filepath with
  | None => Err EReadFile
  | Some data =>
      let format := DetectFormat filepath in
      let decoded :=
        if String.eqb format FormatJSON then Some (json_Unmarshal data)
        else if String.eqb format FormatYAML then Some (yaml_Unmarshal data)
        else if String.eqb format FormatTOML then Some (toml_Unmarshal data)
        else None in
      match decoded with
      | None => Err (EUnsupported format)
      | Some None => Err (EParse format)
      | Some (Some m) => Ok m
      end
  end.
End Loader.

(* ------------------------------------------------------------------ *)
(** ** parser.parseKeySegment *)

Definition is_digit (c : ascii) : bool :=
  Nat.leb 48 (nat_of_ascii c) && Nat.leb (nat_of_ascii c) 57.

(** [(\d+)\]$]: the digits of a string made of one or more digits and a
    final [']']. *)
Fixpoint digits_close (s : string) : option string :=
  match s with
  | EmptyString => None
  | String c t =>
      if is_digit c then
        if String.eqb t "]" then Some (String c EmptyString)
        else option_map (String c) (digits_close t)
      else None
  end.

(** [^([^[]+)\[(\d+)\]$]: group 1 is everything before the first ['['],
    non-empty; group 2 the digits. *)
Definition index_regex (segment : string) : option (string * string) :=
  match SplitN2 segment "[" with
  | Some (name, rest) =>
      match name with
      | EmptyString => None
      | _ => option_map (fun d => (name, d)) (digits_close rest)
      end
  | None => None
  end.

(** [strconv.Atoi] on a string of decimal digits: a range error above
    the 64-bit [int] maximum. *)
Definition Atoi (digits : string) : option Z :=
  match NilEmpty.uint_of_string digits with
  | Some u =>
      let n := Z.of_N (N.of_uint u) in
      if Z.leb n (2 ^ 63 - 1) then Some n else None
  | None => None
  end.

(** [parseKeySegment]: [Some (key, index)] with [index = -1] when there is
    no index; [None] is the returned error. *)
Definition parseKeySegment (segment : string) : option (string * Z) :=
  match index_regex segment with
  | Some (key, digits) =>
      match Atoi digits with
      | None => None
      | Some index => if Z.ltb index 0 then None else Some (key, index)
      end
  | None =>
      if ContainsChar segment "[" then None else Some (segment, (-1)%Z)
  end.

(** The key-path parsing of the navigator: [strings.Split(keyPath, ".")]
    and [parseKeySegment] on every segment. *)
Fixpoint parse_segments (segs : list string) : option (list (string * Z)) :=
  match segs with
  | [] => Some []
  | s :: ss =>
      match parseKeySegment s, parse_segments ss with
      | Some p, Some ps => Some (p :: ps)
      | _, _ => None
      end
  end.

Definition parse_key_path (keyPath : string) : option (list (string * Z)) :=
  parse_segments (Split keyPath ".").

(** [normalizeTOMLKeyPath] *)
Definition normalize_part (part : string) : string :=
  if ContainsChar part "[" then
    match parseKeySegment part with
    | Some (key, index) =>
        if Z.leb 0 index then key ++ "[" ++ itoa index ++ "]" else part
    | None => part
    end
  else part.

Definition normalizeTOMLKeyPath (keyPath : string) : string :=
  Join (map normalize_part (Split keyPath ".")) ".".

(* ------------------------------------------------------------------ *)
(** ** parser.GetValue *)

(** The map step of one loop iteration of [GetValue]. *)
Definition get_key (current : value) (key : string) : result value :=
  match current with
  | VMap m =>
      match lookup key m with Some next => Ok next | None => Err EKeyNotFound end
  | VMapAny m =>
      match lookup key (convertMapInterface m) with
      | Some next => Ok next
      | None => Err EKeyNotFound
      end
  | _ => Err ENotObject
  end.

(** The index step of one loop iteration ([arrayIndex >= 0]); a TOML
    table-array element is copied into a fresh [map[string]any]. *)
Definition get_index (current : value) (arrayIndex : Z) : result value :=
  if Z.leb 0 arrayIndex then
    match current with
    | VList arr =>
        match nth_error arr (Z.to_nat arrayIndex) with
        | Some x => Ok x
        | None => Err EIndexOutOfBounds
        end
    | VTableArray arr =>
        match nth_error arr (Z.to_nat arrayIndex) with
        | Some m => Ok (VMap m)
        | None => Err EIndexOutOfBounds
        end
    | _ => Err ENotArray
    end
  else Ok current.

(** The loop over [keys]; an empty remainder after a step is
    [i == len(keys)-1]. *)
Fixpoint get_loop (current : value) (keys : list string) : result value :=
  match keys with
  | [] => Err EUnexpectedEnd
  | keySegment :: rest =>
      match parseKeySegment keySegment with
      | None => Err (ESegment keySegment)
      | Some (key, arrayIndex) =>
          match get_key current key with
          | Err e => Err e
          | Ok next =>
              match get_index next arrayIndex with
              | Err e => Err e
              | Ok cur =>
                  match rest with
                  | [] => Ok cur
                  | _ :: _ => get_loop cur rest
                  end
              end
          end
      end
  end.

Definition GetValue (data : gomap) (keyPath : string) : result value :=
  get_loop (VMap data) (Split keyPath ".").

(* ------------------------------------------------------------------ *)
(** ** parser.SetValue *)

(** [SetValue] mutates the tree it walks.  The model passes the tree
    explicitly: [set_loop current keys v] returns the object [current]
    after the mutations of the remaining iterations, together with the
    error that ends the loop, if any (mutations made before an error
    stay, as in Go).  Where Go descends into a fresh copy
    ([convertMapInterface] on a [map[any]any], the converted element of a
    TOML table array), the writes made into the copy are not carried back
    into the tree; values shared between the copy and the original are
    not tracked, and no statement below that reads back a write descends
    through such a copy.  Go maps are references, so one map stored under
    two keys is a single object; the model's trees have no such sharing,
    as a freshly decoded file has none.  The errors [SetValue] returns do
    not depend on either point: they follow the reads of the walk. *)
Fixpoint set_loop (current : value) (keys : list string) (v : value)
  : value * option error :=
  match keys with
  | [] => (current, None)
  | keySegment :: rest =>
      match parseKeySegment keySegment with
      | None => (current, Some (ESegment keySegment))
      | Some (key, arrayIndex) =>
          match rest with
          | [] =>
              (* last key segment: set the value *)
              match current with
              | VMap m =>
                  if Z.leb 0 arrayIndex then
                    match lookup key m with
                    | None => (current, Some (EArrayKeyNotFound key))
                    | Some (VList a) =>
                        if Nat.ltb (Z.to_nat arrayIndex) (length a)
                        then (VMap (map_set key (VList (list_set a (Z.to_nat arrayIndex) v)) m), None)
                        else (current, Some EIndexOutOfBounds)
                    | Some (VTableArray a) =>
                        if Nat.ltb (Z.to_nat arrayIndex) (length a)
                        then (current, Some (ETableArrayPrimitive key))
                        else (current, Some EIndexOutOfBounds)
                    | Some _ => (current, Some ENotArray)
                    end
                  else (VMap (map_set key v m), None)
              | _ => (current, Some ESetNonObject)
              end
          | _ :: _ =>
              (* navigate to the next level *)
              match current with
              | VMap m =>
                  match lookup key m with
                  | None =>
                      if Z.leb 0 arrayIndex
                      then (current, Some (EArrayKeyNotFound key))
                      else
                        (* v[key] = make(map[string]any); current = v[key] *)
                        let '(next', e) := set_loop (VMap []) rest v in
                        (VMap (map_set key next' m), e)
                  | Some next =>
                      if Z.leb 0 arrayIndex then
                        match next with
                        | VList arr =>
                            match nth_error arr (Z.to_nat arrayIndex) with
                            | None => (current, Some EIndexOutOfBounds)
                            | Some el =>
                                let '(el', e) := set_loop el rest v in
                                (VMap (map_set key (VList (list_set arr (Z.to_nat arrayIndex) el')) m), e)
                            end
                        | VTableArray arr =>
                            match nth_error arr (Z.to_nat arrayIndex) with
                            | None => (current, Some EIndexOutOfBounds)
                            | Some el =>
                                (* converted copy of the element *)
                                let '(_, e) := set_loop (VMap el) rest v in (current, e)
                            end
                        | _ => (current, Some ENotArray)
                        end
                      else
                        let '(next', e) := set_loop next rest v in
                        (VMap (map_set key next' m), e)
                  end
              | VMapAny m =>
                  (* converted copy of the map *)
                  let converted := convertMapInterface m in
                  match lookup key converted with
                  | None =>
                      if Z.leb 0 arrayIndex
                      then (current, Some (EArrayKeyNotFound key))
                      else let '(_, e) := set_loop (VMap []) rest v in (current, e)
                  | Some next =>
                      if Z.leb 0 arrayIndex then
                        match next with
                        | VList arr =>
                            match nth_error arr (Z.to_nat arrayIndex) with
                            | None => (current, Some EIndexOutOfBounds)
                            | Some el => let '(_, e) := set_loop el rest v in (current, e)
                            end
                        | VTableArray arr =>
                            match nth_error arr (Z.to_nat arrayIndex) with
                            | None => (current, Some EIndexOutOfBounds)
                            | Some el => let '(_, e) := set_loop (VMap el) rest v in (current, e)
                            end
                        | _ => (current, Some ENotArray)
                        end
                      else let '(_, e) := set_loop next rest v in (current, e)
                  end
              | _ => (current, Some EConflict)
              end
          end
      end
  end.

(** [SetValue(data, keyPath, value)]: the map after the call, and the
    returned error. *)
Definition SetValue (data : gomap) (keyPath : string) (v : value) : gomap * option error :=
  match set_loop (VMap data) (Split keyPath ".") v with
  | (VMap data', e) => (data', e)
  | (_, e) => (data, e)
  end.

(* ------------------------------------------------------------------ *)
(** ** Surgical rewriting: the value span of one line *)

(** The double-quote byte. *)
Definition dq : ascii := "034"%char.

Definition is_blank (c : ascii) : bool := Ascii.eqb c " " || Ascii.eqb c "009"%char.

(** [for valueStart < len(line) && (line[valueStart] == ' ' || ... '\t')]:
    the number of spaces and tabs at the front of [s]. *)
Fixpoint lead_blanks (s : string) : nat :=
  match s with
  | EmptyString => O
  | String c s' => if is_blank c then S (lead_blanks s') else O
  end.

(** The [for valueEnd < len(originalLine)] loop, run on the text from
    [valueStart] on: a double quote not preceded by a backslash (or at
    [valueStart]) toggles [inQuotes]; outside quotes ['#'] or a newline
    stops the scan.  Returns [valueEnd - valueStart]. *)
Fixpoint scan_value (s : string) (atStart : bool) (prev : ascii) (inQuotes : bool) : nat :=
  match s with
  | EmptyString => O
  | String c s' =>
      if Ascii.eqb c dq && (atStart || negb (Ascii.eqb prev "\"))
      then S (scan_value s' false c (negb inQuotes))
      else if negb inQuotes && (Ascii.eqb c "#" || Ascii.eqb c "010"%char)
      then O
      else S (scan_value s' false c inQuotes)
  end.

(** [for valueEnd > valueStart && (line[valueEnd-1] == ' ' || ... '\t')]
    with [fuel = valueEnd - valueStart]. *)
Fixpoint trim_back (line : string) (fuel : nat) (valueEnd : nat) : nat :=
  match fuel with
  | O => valueEnd
  | S fuel' =>
      if is_blank (byte_at line (valueEnd - 1))
      then trim_back line fuel' (valueEnd - 1)
      else valueEnd
  end.

(** The value span [(valueStart, valueEnd)] located after the first
    occurrence of [keyPattern] ([key + ":"] in YAML, [key + " ="] in TOML). *)
Definition value_span (originalLine keyPattern : string) : option (nat * nat) :=
  match Index originalLine keyPattern with
  | None => None
  | Some keyIndex =>
      let k := keyIndex + String.length keyPattern in
      let valueStart := k + lead_blanks (suffix_n originalLine k) in
      let valueEnd0 := valueStart + scan_value (suffix_n originalLine valueStart) true "000"%char false in
      let valueEnd := trim_back originalLine (valueEnd0 - valueStart) valueEnd0 in
      Some (valueStart, valueEnd)
  end.

(** [lines[lineNum] = before + valueStr + after], or the line unchanged
    when [keyIndex < 0]. *)
Definition rewrite_line (originalLine keyPattern valueStr : string) : string :=
  match value_span originalLine keyPattern with
  | None => originalLine
  | Some (valueStart, valueEnd) =>
      prefix_n originalLine valueStart ++ valueStr ++ suffix_n originalLine valueEnd
  end.

(** The inside of a double-quoted value as the scan of the rewriter reads
    it: every double quote is preceded by a backslash, and the byte before
    the closing quote is not a backslash ([prev] is the byte before [s]). *)
Fixpoint escaped_ok (prev : ascii) (s : string) : bool :=
  match s with
  | EmptyString => negb (Ascii.eqb prev "\")
  | String c s' => (negb (Ascii.eqb c dq) || Ascii.eqb prev "\") && escaped_ok c s'
  end.

(** The update loop shared by [updateYAMLValues] and [updateTOMLValues].
    [find] is the [find*LineForKeyPath] lookup (its [-1] is [None]),
    [key_at n] the [key] of [contexts[n]], [keySuffix] is [":"] or [" ="]
    and [format] the value formatter.  The [updates] map is iterated in the
    order of the list; [updated] is [updatedLines]. *)
Fixpoint update_loop (find : string -> option nat) (key_at : nat -> string)
    (keySuffix : string) (format : value -> string)
    (lines : list string) (updated : list nat) (updatedCount : nat)
    (updates : list (string * value)) : list string * nat :=
  match updates with
  | [] => (lines, updatedCount)
  | (keyPath, newValue) :: us =>
      match find keyPath with
      | Some lineNum =>
          if existsb (Nat.eqb lineNum) updated
          then update_loop find key_at keySuffix format lines updated updatedCount us
          else
            let originalLine := nth lineNum lines EmptyString in
            let line' := rewrite_line originalLine (key_at lineNum ++ keySuffix) (format newValue) in
            update_loop find key_at keySuffix format (list_set lines lineNum line')
              (lineNum :: updated) (S updatedCount) us
      | None => update_loop find key_at keySuffix format lines updated updatedCount us
      end
  end.

(** Everything of [update*Values] after the file is read: [Err] leaves the
    file as it is, [Ok content'] is the content written back. *)
Definition update_content (find : string -> option nat) (key_at : nat -> string)
    (keySuffix : string) (format : value -> string)
    (lines : list string) (updates : list (string * value)) : result string :=
  let '(lines', updatedCount) := update_loop find key_at keySuffix format lines [] 0 updates in
  if Nat.eqb updatedCount 0 then Err ENoKeyPaths
  else Ok (Join lines' "010"%char).

(* ------------------------------------------------------------------ *)
(** ** Value formatting *)

(** [strings.ReplaceAll]: every double quote gets a backslash before it. *)
Fixpoint escape_quotes (s : string) : string :=
  match s with
  | EmptyString => EmptyString
  | String c s' =>
      if Ascii.eqb c dq then String "\" (String dq (escape_quotes s'))
      else String c (escape_quotes s')
  end.

(** [fmt.Sprintf("%d", z)] for any integer. *)
Definition Zdec (z : Z) : string :=
  if Z.ltb z 0 then String "-" (itoa (- z)) else itoa z.

(** [fmt] prints a map with its entries sorted by key (package
    [internal/fmtsort]); strings compare byte by byte. *)
Fixpoint insert_by_key (x : string * string) (l : list (string * string)) : list (string * string) :=
  match l with
  | [] => [x]
  | y :: l' => if String.leb (fst x) (fst y) then x :: l else y :: insert_by_key x l'
  end.

Definition sort_by_key (l : list (string * string)) : list (string * string) :=
  fold_right insert_by_key [] l.

(** [map[k1:v1 k2:v2]] from the rendered entries. *)
Definition render_map (entries : list (string * string)) : string :=
  "map[" ++ Join (map (fun e => fst e ++ ":" ++ snd e) (sort_by_key entries)) " " ++ "]".

(** [[x1 x2]] from the rendered elements. *)
Definition render_list (elems : list string) : string :=
  "[" ++ Join elems " " ++ "]".

(** [fmt.Sprintf("%v", v)]: [<nil>], [true]/[false], the decimal integer,
    the string's bytes, [map[k:v ...]] with the keys sorted, and
    [[x y ...]] for slices, a [[]map[string]interface{}] being a slice of
    maps.  Numbers are integers in the model.  The keys of a
    [map[any]any] are held as their [%v] rendering and sorted as strings,
    which is fmt's order when they are strings. *)
Fixpoint format_v (v : value) : string :=
  match v with
  | VNull => "<nil>"
  | VBool true => "true"
  | VBool false => "false"
  | VInt z => Zdec z
  | VString s => s
  | VMap m | VMapAny m =>
      render_map ((fix go (l : gomap) : list (string * string) :=
                     match l with
                     | [] => []
                     | (k, x) :: l' => (k, format_v x) :: go l'
                     end) m)
  | VList xs =>
      render_list ((fix go (l : list value) : list string :=
                      match l with
                      | [] => []
                      | x :: l' => format_v x :: go l'
                      end) xs)
  | VTableArray xs =>
      render_list (map (fun el =>
                     render_map ((fix go (l : gomap) : list (string * string) :=
                                    match l with
                                    | [] => []
                                    | (k, x) :: l' => (k, format_v x) :: go l'
                                    end) el)) xs)
  end.

Definition yaml_special (c : ascii) : bool :=
  Ascii.eqb c " " || Ascii.eqb c ":" || Ascii.eqb c "{" || Ascii.eqb c "}"
  || Ascii.eqb c "[" || Ascii.eqb c "]" || Ascii.eqb c dq.

Fixpoint ContainsAny (s : string) (f : ascii -> bool) : bool :=
  match s with
  | EmptyString => false
  | String c s' => f c || ContainsAny s' f
  end.

Definition quote (s : string) : string := String dq (s ++ String dq EmptyString).

Definition formatYAMLValue (v : value) : string :=
  match v with
  | VString s =>
      if ContainsAny s yaml_special || String.eqb s "" then quote (escape_quotes s) else s
  | _ => format_v v
  end.

Definition formatTOMLValue (v : value) : string :=
  match v with
  | VString s => quote (escape_quotes s)
  | VBool _ | VInt _ => format_v v
  | _ => quote (escape_quotes (format_v v))
  end.

(* ------------------------------------------------------------------ *)
(** ** parser.parseYAMLStructure *)

Record yamlLineContext := mkYamlCtx {
  y_lineNumber : nat;
  y_indentLevel : Z;
  y_key : string;
  y_isArrayItem : bool;
  y_arrayIndex : Z;
  y_parentPath : string;
  y_fullPath : string
}.

Fixpoint zlookup {A} (k : Z) (m : list (Z * A)) : option A :=
  match m with
  | [] => None
  | (k', x) :: m' => if Z.eqb k k' then Some x else zlookup k m'
  end.

Fixpoint zset {A} (k : Z) (x : A) (m : list (Z * A)) : list (Z * A) :=
  match m with
  | [] => [(k, x)]
  | (k', y) :: m' => if Z.eqb k k' then (k', x) :: m' else (k', y) :: zset k x m'
  end.

Fixpoint slookup {A} (k : string) (m : list (string * A)) : option A :=
  match m with
  | [] => None
  | (k', x) :: m' => if String.eqb k k' then Some x else slookup k m'
  end.

Fixpoint sset {A} (k : string) (x : A) (m : list (string * A)) : list (string * A) :=
  match m with
  | [] => [(k, x)]
  | (k', y) :: m' => if String.eqb k k' then (k', x) :: m' else (k', y) :: sset k x m'
  end.

(** [for level := start; level >= 0; level -= 2] returning the first path
    registered at [level]; [fuel] bounds the iterations. *)
Fixpoint search_down (currentPaths : list (Z * string)) (fuel : nat) (level : Z) : string :=
  match fuel with
  | O => ""
  | S fuel' =>
      if Z.ltb level 0 then ""
      else match zlookup level currentPaths with
           | Some path => path
           | None => search_down currentPaths fuel' (level - 2)
           end
  end.

Record yamlState := mkYamlState {
  ys_contexts : list (nat * yamlLineContext);
  ys_currentPaths : list (Z * string);
  ys_arrayIndices : list (string * Z)
}.

(** [len(line) - len(strings.TrimLeft(line, " "))] *)
Definition indent_of (line : string) : Z :=
  Z.of_nat (String.length line - String.length (TrimLeftF (fun c => Ascii.eqb c " ") line)).

Definition index_path (parentPath : string) (i : Z) : string :=
  parentPath ++ "[" ++ itoa i ++ "]".

(** The body of the [for i, line := range lines] loop. *)
Definition yaml_line (st : yamlState) (i : nat) (line : string) : yamlState :=
  let trimmed := TrimSpace line in
  if String.eqb trimmed "" || HasPrefix trimmed "#" then st
  else
    let indent := indent_of line in
    let currentPaths := filter (fun p => negb (Z.ltb indent (fst p))) (ys_currentPaths st) in
    let arrayIndices := ys_arrayIndices st in
    let contexts := ys_contexts st in
    let fuel := S (Z.to_nat indent) in
    if HasPrefix trimmed "- " then
      let arrayContent := substring 2 (String.length trimmed - 2) trimmed in
      let parentPath :=
        match zlookup (indent - 2) currentPaths with
        | Some path => path
        | None => search_down currentPaths fuel (indent - 2)
        end in
      let before := match slookup parentPath arrayIndices with Some n => n | None => (-1)%Z end in
      let currentArrayIndex := (before + 1)%Z in
      let arrayIndices := sset parentPath currentArrayIndex arrayIndices in
      match SplitN2 arrayContent ":" with
      | Some (k, _) =>
          let key := TrimSpace k in
          let fullPath :=
            if String.eqb parentPath "" then index_path "" currentArrayIndex ++ "." ++ key
            else index_path parentPath currentArrayIndex ++ "." ++ key in
          let ctx := mkYamlCtx i indent key true currentArrayIndex parentPath fullPath in
          mkYamlState (contexts ++ [(i, ctx)])
                      (zset (indent + 2) (index_path parentPath currentArrayIndex) currentPaths)
                      arrayIndices
      | None => mkYamlState contexts currentPaths arrayIndices
      end
    else
      match SplitN2 trimmed ":" with
      | Some (k, rest) =>
          let key := TrimSpace k in
          let v := TrimSpace rest in
          let parentPath :=
            if Z.eqb indent 0 then ""
            else match zlookup indent currentPaths with
                 | Some path => path
                 | None => search_down currentPaths fuel (indent - 2)
                 end in
          let fullPath := if String.eqb parentPath "" then key else parentPath ++ "." ++ key in
          if negb (String.eqb v "") then
            mkYamlState (contexts ++ [(i, mkYamlCtx i indent key false (-1) parentPath fullPath)])
                        currentPaths arrayIndices
          else
            mkYamlState contexts (zset indent fullPath currentPaths)
                        (sset fullPath (-1)%Z arrayIndices)
      | None => mkYamlState contexts currentPaths arrayIndices
      end.

Fixpoint yaml_lines (st : yamlState) (i : nat) (lines : list string) : yamlState :=
  match lines with
  | [] => st
  | line :: rest => yaml_lines (yaml_line st i line) (S i) rest
  end.

Definition parseYAMLStructure (lines : list string) : list (nat * yamlLineContext) :=
  ys_contexts (yaml_lines (mkYamlState [] [] []) 0 lines).

(** [findYAMLLineForKeyPath] scanning the contexts in line order. *)
Fixpoint findYAMLLineForKeyPath (contexts : list (nat * yamlLineContext)) (keyPath : string)
  : option nat :=
  match contexts with
  | [] => None
  | (n, c) :: cs =>
      if String.eqb (y_fullPath c) keyPath then Some n else findYAMLLineForKeyPath cs keyPath
  end.

(** [contexts[n]] as a map lookup by line number. *)
Fixpoint nlookup {A} (n : nat) (m : list (nat * A)) : option A :=
  match m with
  | [] => None
  | (k, x) :: m' => if Nat.eqb n k then Some x else nlookup n m'
  end.

(** [contexts[lineNum].key] (the zero value's key is [""]). *)
Definition yaml_key_at (contexts : list (nat * yamlLineContext)) (n : nat) : string :=
  match nlookup n contexts with Some c => y_key c | None => "" end.

(** [updateYAMLValues] on the file content, for a given line lookup:
    Go's [findYAMLLineForKeyPath] ranges over the [contexts] map, whose
    iteration order is unspecified; [updateYAMLValues] below uses the scan
    in line order, and the statements quantify over every lookup that
    [yaml_finder_ok] admits. *)
Definition updateYAMLValues_with
    (find : list (nat * yamlLineContext) -> string -> option nat)
    (content : string) (updates : list (string * value)) : result string :=
  let lines := Split content "010"%char in
  let contexts := parseYAMLStructure lines in
  update_content (find contexts) (yaml_key_at contexts) ":" formatYAMLValue lines updates.

Definition updateYAMLValues := updateYAMLValues_with findYAMLLineForKeyPath.

(** A line lookup returns the line number of a context with the requested
    full path, and fails only when no context has it: the behaviour of
    [findYAMLLineForKeyPath] under any iteration order of the map. *)
Definition yaml_finder_ok (find : list (nat * yamlLineContext) -> string -> option nat) : Prop :=
  forall contexts keyPath,
    match find contexts keyPath with
    | Some n => exists c, In (n, c) contexts /\ y_fullPath c = keyPath
    | None => forall n c, In (n, c) contexts -> y_fullPath c <> keyPath
    end.

(* ------------------------------------------------------------------ *)
(** ** parser.parseTOMLStructure *)

Record tomlLineContext := mkTomlCtx {
  t_lineNumber : nat;
  t_key : string;
  t_section : string;
  t_isTableArray : bool;
  t_arrayIndex : Z;
  t_fullPath : string
}.

Record tomlState := mkTomlState {
  ts_contexts : list (nat * tomlLineContext);
  ts_currentSection : string;
  ts_currentTableArray : string;
  ts_arrayIndex : Z;
  ts_lastSectionLine : Z
}.

(** [for j := lastSectionLine + 1; j < i; j++]: a blank line in between. *)
Definition has_gap (lines : list string) (lastSectionLine : Z) (i : nat) : bool :=
  existsb (fun j => String.eqb (TrimSpace (nth j lines EmptyString)) "")
          (seq (Z.to_nat (lastSectionLine + 1)) (i - Z.to_nat (lastSectionLine + 1))).

(** The body of the [for i, line := range lines] loop. *)
Definition toml_line (lines : list string) (st : tomlState) (i : nat) (line : string) : tomlState :=
  let trimmed := TrimSpace line in
  let '(mkTomlState contexts currentSection currentTableArray arrayIndex lastSectionLine) := st in
  if String.eqb trimmed "" || HasPrefix trimmed "#" then st
  else if HasPrefix trimmed "[[" && HasSuffix trimmed "]]" then
    let tableName := TrimBrackets trimmed in
    let '(cta, ai) :=
      if String.eqb tableName currentTableArray then (currentTableArray, (arrayIndex + 1)%Z)
      else (tableName, 0%Z) in
    mkTomlState contexts (index_path tableName ai) cta ai (Z.of_nat i)
  else if HasPrefix trimmed "[" && HasSuffix trimmed "]" then
    mkTomlState contexts (TrimBrackets trimmed) "" (-1)%Z (Z.of_nat i)
  else if ContainsChar trimmed "=" && negb (HasPrefix trimmed "#") then
    match SplitN2 trimmed "=" with
    | Some (k, _) =>
        let key := TrimSpace k in
        let isTopLevel :=
          if negb (HasPrefix line " ") && negb (HasPrefix line (String "009"%char EmptyString)) then
            if Z.leb 0 lastSectionLine then has_gap lines lastSectionLine i else true
          else false in
        let '(fullPath, effectiveSection) :=
          if isTopLevel then (key, "")
          else if negb (String.eqb currentSection "") then (currentSection ++ "." ++ key, currentSection)
          else (key, "") in
        let ctx := mkTomlCtx i key effectiveSection
                     (negb (String.eqb currentTableArray "") && Z.leb 0 arrayIndex && negb isTopLevel)
                     arrayIndex fullPath in
        mkTomlState (contexts ++ [(i, ctx)]) currentSection currentTableArray arrayIndex lastSectionLine
    | None => st
    end
  else st.

Fixpoint toml_lines (lines : list string) (st : tomlState) (i : nat) (ls : list string) : tomlState :=
  match ls with
  | [] => st
  | line :: rest => toml_lines lines (toml_line lines st i line) (S i) rest
  end.

Definition parseTOMLStructure (lines : list string) : list (nat * tomlLineContext) :=
  ts_contexts (toml_lines lines (mkTomlState [] "" "" (-1)%Z (-1)%Z) 0 lines).

(** [findTOMLLineForKeyPath] scanning the contexts in line order. *)
Fixpoint findTOMLLineForKeyPath (contexts : list (nat * tomlLineContext)) (keyPath : string)
  : option nat :=
  match contexts with
  | [] => None
  | (n, c) :: cs =>
      if String.eqb (t_fullPath c) (normalizeTOMLKeyPath keyPath) then Some n
      else findTOMLLineForKeyPath cs keyPath
  end.

Definition toml_key_at (contexts : list (nat * tomlLineContext)) (n : nat) : string :=
  match nlookup n contexts with Some c => t_key c | None => "" end.

Definition updateTOMLValues_with
    (find : list (nat * tomlLineContext) -> string -> option nat)
    (content : string) (updates : list (string * value)) : result string :=
  let lines := Split content "010"%char in
  let contexts := parseTOMLStructure lines in
  update_content (find contexts) (toml_key_at contexts) " =" formatTOMLValue lines updates.

Definition updateTOMLValues := updateTOMLValues_with findTOMLLineForKeyPath.

Definition toml_finder_ok (find : list (nat * tomlLineContext) -> string -> option nat) : Prop :=
  forall contexts keyPath,
    match find contexts keyPath with
    | Some n => exists c, In (n, c) contexts /\ t_fullPath c = normalizeTOMLKeyPath keyPath
    | None => forall n c, In (n, c) contexts -> t_fullPath c <> normalizeTOMLKeyPath keyPath
    end.

Definition nl : string := String "010"%char EmptyString.

Example yaml_s1 :
  updateYAMLValues ("# hdr" ++ nl ++ "  host: old   # keep me" ++ nl ++ "  port: 9" ++ nl)
                   [("host", VString "prod")]
  = Ok ("# hdr" ++ nl ++ "  host: prod   # keep me" ++ nl ++ "  port: 9" ++ nl).
Proof. vm_compute. reflexivity. Qed.

Example toml_s4 :
  parseTOMLStructure ["[[db]]"; "host = 1"; "[[db]]"; "host = 2"]
  = [(1, mkTomlCtx 1 "host" "db[0]" true 0 "db[0].host");
     (3, mkTomlCtx 3 "host" "db[1]" true 1 "db[1].host")].
Proof. vm_compute. reflexivity. Qed.

(* ------------------------------------------------------------------ *)
(** ** parser.UpdateFileValues *)

Section Dispatch.
(** [updateJSONValues] reformats through the external JSON codec. *)
Variable updateJSONValues : string -> list (string * value) -> result string.

Definition UpdateFileValues (filepath content : string) (updates : list (string * value))
  : result string :=
  let format := DetectFormat filepath in
  if String.eqb format FormatYAML then updateYAMLValues content updates
  else if String.eqb format FormatTOML then updateTOMLValues content updates
  else if String.eqb format FormatJSON then updateJSONValues content updates
  else Err (EUnsupported format).
End Dispatch.

(* ------------------------------------------------------------------ *)
(** ** watcher: rules, events and one target group *)

Record SyncRule := mkRule {
  ID : string;
  SourceFile : string;
  SourceKey : string;
  TargetFile : string;
  TargetKey : string;
  Enabled : bool
}.

(** [models.SyncEvent] without its timestamp and best-effort [OldValue]
    (read from the target file, with no influence on the write). *)
Record SyncEvent := mkEvent {
  RuleID : string;
  NewValue : option value;
  Success : bool;
  ErrorText : string
}.

(** [processRuleForBatch]: the event, and the [updates] map after the
    call. *)
Definition processRuleForBatch (sourceData : gomap) (rule : SyncRule)
    (updates : list (string * value)) : SyncEvent * list (string * value) :=
  match GetValue sourceData (SourceKey rule) with
  | Err _ => (mkEvent (ID rule) None false "Failed to get source value", updates)
  | Ok newValue => (mkEvent (ID rule) (Some newValue) true "", sset (TargetKey rule) newValue updates)
  end.

(** The [for _, rule := range rules] loop: events, updates,
    allSuccessful. *)
Fixpoint collect_rules (sourceData : gomap) (rules : list SyncRule)
    (updates : list (string * value)) (events : list SyncEvent) (allSuccessful : bool)
  : list SyncEvent * list (string * value) * bool :=
  match rules with
  | [] => (events, updates, allSuccessful)
  | rule :: rs =>
      let '(event, updates') := processRuleForBatch sourceData rule updates in
      collect_rules sourceData rs updates' (events ++ [event]) (allSuccessful && Success event)
  end.

Definition mark_failed (e : SyncEvent) : SyncEvent :=
  mkEvent (RuleID e) (NewValue e) false "Failed to update target file".

(** [processTargetGroup] with the target file's content as explicit state:
    the events sent, and the content of the target file afterwards.
    [update] is [UpdateFileValues] on the target. *)
Definition processTargetGroup (update : string -> list (string * value) -> result string)
    (sourceData : gomap) (content : string) (rules : list SyncRule)
  : list SyncEvent * string :=
  let '(events, updates, allSuccessful) := collect_rules sourceData rules [] [] true in
  if allSuccessful && negb (Nat.eqb (length updates) 0) then
    match update content updates with
    | Err _ => (map mark_failed events, content)
    | Ok content' => (events, content')
    end
  else (events, content).

(* ------------------------------------------------------------------ *)
(** ** watcher: debouncing and batching for one source path

    Time is in milliseconds.  [lastEvent] is [fw.lastEvents[filename]],
    [pending] the deadline of the batch timer of [batchProcessor.batches],
    and [flushed] the times at which the timer handed the batch to
    [processBatch].  A timer due at or before the next event fires before
    that event is handled. *)

Definition debounce : nat := 500.
Definition batchDelay : nat := 200.

Record WatchState := mkWatch {
  lastEvent : option nat;
  pending : option nat;
  flushed : list nat
}.

(** A timer due at time [<= t] fires: [processBatch] takes the batch out. *)
Definition fire_until (t : nat) (st : WatchState) : WatchState :=
  match pending st with
  | Some d => if Nat.leb d t then mkWatch (lastEvent st) None (flushed st ++ [d]) else st
  | None => st
  end.

(** [handleFileChange] at time [now]; [matching] says whether enabled rules
    match the path, in which case [batchRules] (re)starts the timer. *)
Definition handleFileChange (matching : bool) (now : nat) (st : WatchState) : WatchState :=
  match lastEvent st with
  | Some l => if Nat.ltb (now - l) debounce then st else
      mkWatch (Some now) (if matching then Some (now + batchDelay) else pending st) (flushed st)
  | None =>
      mkWatch (Some now) (if matching then Some (now + batchDelay) else pending st) (flushed st)
  end.

(** A run over write events at nondecreasing times, then the last timer. *)
Fixpoint run_events (matching : bool) (st : WatchState) (times : list nat) : WatchState :=
  match times with
  | [] => fire_until (match pending st with Some d => d | None => 0 end) st
  | t :: ts => run_events matching (handleFileChange matching t (fire_until t st)) ts
  end.

Example burst_5 :
  flushed (run_events true (mkWatch None None []) [0; 50; 100; 150; 200]) = [200].
Proof. reflexivity. Qed.

(* ------------------------------------------------------------------ *)
(** ** Shapes of decoded trees *)

(** A scalar leaf of a decoded tree. *)
Definition is_scalar (v : value) : bool :=
  match v with
  | VNull | VBool _ | VInt _ | VString _ => true
  | _ => false
  end.

(** Every mapping node of the tree is a [map[string]any] (no
    [map[any]any] anywhere). *)
Fixpoint string_maps_only (v : value) : bool :=
  match v with
  | VMapAny _ => false
  | VMap m =>
      (fix go (l : gomap) : bool :=
         match l with [] => true | (_, x) :: l' => string_maps_only x && go l' end) m
  | VList xs =>
      (fix go (l : list value) : bool :=
         match l with [] => true | x :: l' => string_maps_only x && go l' end) xs
  | VTableArray xs =>
      (fix go2 (l : list gomap) : bool :=
         match l with
         | [] => true
         | m :: l' =>
             (fix go (l : gomap) : bool :=
                match l with [] => true | (_, x) :: l' => string_maps_only x && go l' end) m
             && go2 l'
         end) xs
  | _ => true
  end.

(* ------------------------------------------------------------------ *)
(** ** A batch of three rules writing to one YAML target *)

Definition batch_source : gomap := [("h", VString "prod"); ("p", VInt 2); ("u", VString "b")].

Definition batch_target : string := "host: old" ++ nl ++ "port: 1" ++ nl ++ "user: a".

(** The third rule's target key names no line of the target. *)
Definition batch_rules_bad_target : list SyncRule :=
  [mkRule "r1" "s.yaml" "h" "d.yaml" "host" true;
   mkRule "r2" "s.yaml" "p" "d.yaml" "port" true;
   mkRule "r3" "s.yaml" "u" "d.yaml" "missing" true].

(** The third rule's source key names no value of the source. *)
Definition batch_rules_bad_source : list SyncRule :=
  [mkRule "r1" "s.yaml" "h" "d.yaml" "host" true;
   mkRule "r2" "s.yaml" "p" "d.yaml" "port" true;
   mkRule "r3" "s.yaml" "zz" "d.yaml" "user" true].

(* ------------------------------------------------------------------ *)
(** ** Shapes of lines *)

(** Every byte is a space or a tab. *)
Fixpoint all_blank (s : string) : bool :=
  match s with
  | EmptyString => true
  | String c s' => is_blank c && all_blank s'
  end.

(* ------------------------------------------------------------------ *)
(** ** parser.GetAllKeys and parser.ValidateKeyPath *)

(** [fullKey := key], or [prefix + "." + key] under a non-empty prefix. *)
Definition join_key (prefix key : string) : string :=
  if String.eqb prefix "" then key else prefix ++ "." ++ key.

(** The keys [GetAllKeys] collects for the value [v] found at [fullKey]:
    a map is walked with [fullKey] as its prefix, the elements of a
    [[]any] get [fullKey[i]] (maps inside are walked, anything else is a
    key of its own), the elements of a TOML table array are walked as maps
    under [fullKey[i]], and any other value is the leaf [fullKey].  The
    map iteration order is the order of the list.  A [map[any]any] is
    walked directly: [convertMapInterface] keeps its keys and only turns
    nested [map[any]any] values into [map[string]any], which are walked
    alike (lemma [keys_under_conv]). *)
Fixpoint keys_under (v : value) (fullKey : string) : list string :=
  match v with
  | VMap m | VMapAny m =>
      (fix go (l : gomap) : list string :=
         match l with
         | [] => []
         | (k, x) :: l' => (keys_under x (join_key fullKey k) ++ go l')%list
         end) m
  | VList xs =>
      (fix go (i : nat) (l : list value) : list string :=
         match l with
         | [] => []
         | item :: l' =>
             (match item with
              | VMap _ | VMapAny _ => keys_under item (index_path fullKey (Z.of_nat i))
              | _ => [index_path fullKey (Z.of_nat i)]
              end ++ go (S i) l')%list
         end) 0 xs
  | VTableArray xs =>
      (fix go (i : nat) (l : list gomap) : list string :=
         match l with
         | [] => []
         | item :: l' =>
             ((fix gom (m : gomap) : list string :=
                 match m with
                 | [] => []
                 | (k, x) :: m' =>
                     (keys_under x (join_key (index_path fullKey (Z.of_nat i)) k) ++ gom m')%list
                 end) item ++ go (S i) l')%list
         end) 0 xs
  | _ => [fullKey]
  end.

Definition GetAllKeys (data : gomap) (prefix : string) : list string :=
  keys_under (VMap data) prefix.

(** [ValidateKeyPath]: the error of [GetValue], [None] for [nil]. *)
Definition ValidateKeyPath (data : gomap) (keyPath : string) : option error :=
  match GetValue data keyPath with
  | Ok _ => None
  | Err e => Some e
  end.

(* ------------------------------------------------------------------ *)
(** ** parser.updateJSONValues *)

Section JSONUpdates.
Variable ReadFile : string -> option string.
Variables json_Unmarshal yaml_Unmarshal toml_Unmarshal : string -> option gomap.

(** The [for keyPath, newValue := range updates] loop of
    [updateJSONValues]: [SetValue] on the loaded tree, returning at the
    first error (the updates map is iterated in the order of the list). *)
Fixpoint set_all (data : gomap) (updates : list (string * value)) : result gomap :=
  match updates with
  | [] => Ok data
  | (keyPath, newValue) :: us =>
      match SetValue data keyPath newValue with
      | (_, Some e) => Err e
      | (data', None) => set_all data' us
      end
  end.

(** [updateJSONValues]: [Err] is returned before anything is written;
    [Ok data] is the tree handed to [SaveFile(filepath, data)]. *)
Definition updateJSONValues (filepath : string) (updates : list (string * value)) : result gomap :=
  match LoadFile ReadFile json_Unmarshal yaml_Unmarshal toml_Unmarshal filepath with
  | Err e => Err e
  | Ok data => set_all data updates
  end.
End JSONUpdates.

(* ------------------------------------------------------------------ *)
(** ** watcher: processRuleInBatch, loadSourceFileWithRetry, sendEvent *)

(** [processRuleInBatch]: the event, and [targetData] after the call
    ([SetValue] mutates it in place). *)
Definition processRuleInBatch (sourceData targetData : gomap) (rule : SyncRule)
  : SyncEvent * gomap :=
  match GetValue sourceData (SourceKey rule) with
  | Err _ => (mkEvent (ID rule) None false "Failed to get source value", targetData)
  | Ok newValue =>
      let '(targetData', e) := SetValue targetData (TargetKey rule) newValue in
      match e with
      | Some _ => (mkEvent (ID rule) None false "Failed to set target value", targetData')
      | None => (mkEvent (ID rule) (Some newValue) true "", targetData')
      end
  end.

(** The [for i := 0; i < 3; i++] loop: [load i] is the outcome of the
    [i]-th call of [LoadFile] (the file may change between the calls);
    [err] is the last error seen. *)
Fixpoint retry_loop (load : nat -> result gomap) (i n : nat) (err : error) : result gomap :=
  match n with
  | O => Err err
  | S n' =>
      match load i with
      | Ok sourceData => Ok sourceData
      | Err e => retry_loop load (S i) n' e
      end
  end.

(** [loadSourceFileWithRetry]; the initial [err] (Go's [nil]) is never
    returned, since the loop runs at least once. *)
Definition loadSourceFileWithRetry (load : nat -> result gomap) : result gomap :=
  retry_loop load 0 3 EReadFile.

(** The buffer of [eventChan] ([make(chan models.SyncEvent, 100)]). *)
Definition eventChanCap : nat := 100.

(** [sendEvent]: the non-blocking send appends to the buffer when there is
    room, and drops the event otherwise. *)
Definition sendEvent (buffer : list SyncEvent) (event : SyncEvent) : list SyncEvent :=
  if Nat.ltb (length buffer) eventChanCap then (buffer ++ [event])%list else buffer.

Fixpoint send_all (buffer : list SyncEvent) (events : list SyncEvent) : list SyncEvent :=
  match events with
  | [] => buffer
  | e :: es => send_all (sendEvent buffer e) es
  end.

(* ------------------------------------------------------------------ *)
(** ** watcher: getTargetFileMutex *)

(** [targetFileMutexes]; a mutex is identified by its allocation number
    [nextMutex] at the time [&sync.Mutex{}] created it. *)
Record MutexTable := mkMutexTable {
  targetFileMutexes : list (string * nat);
  nextMutex : nat
}.

(** [filepath.Abs(targetFile)], or [targetFile] when it fails. *)
Definition abs_or (Abs : string -> option string) (targetFile : string) : string :=
  match Abs targetFile with Some p => p | None => targetFile end.

(** [getTargetFileMutex], run without interleaving: the read-locked
    lookup, then the double check under the write lock. *)
Definition getTargetFileMutex (Abs : string -> option string) (st : MutexTable)
    (targetFile : string) : nat * MutexTable :=
  let absPath := abs_or Abs targetFile in
  match slookup absPath (targetFileMutexes st) with
  | Some mutex => (mutex, st)
  | None =>
      match slookup absPath (targetFileMutexes st) with
      | Some mutex => (mutex, st)
      | None =>
          (nextMutex st,
           mkMutexTable (sset absPath (nextMutex st) (targetFileMutexes st)) (S (nextMutex st)))
      end
  end.

(** A sequence of calls: the mutexes returned, in order. *)
Fixpoint get_mutexes (Abs : string -> option string) (st : MutexTable) (files : list string)
  : list nat * MutexTable :=
  match files with
  | [] => ([], st)
  | f :: fs =>
      let '(m, st') := getTargetFileMutex Abs st f in
      let '(ms, st'') := get_mutexes Abs st' fs in
      (m :: ms, st'')
  end.

(* ------------------------------------------------------------------ *)
(** ** watcher: processBatch *)

(** [targetGroups[absTargetPath] = append(targetGroups[absTargetPath], rule)]
    over the rules of the batch. *)
Fixpoint group_rules (Abs : string -> option string) (rules : list SyncRule)
    (groups : list (string * list SyncRule)) : list (string * list SyncRule) :=
  match rules with
  | [] => groups
  | rule :: rs =>
      let t := abs_or Abs (TargetFile rule) in
      let g := match slookup t groups with Some g => g | None => [] end in
      group_rules Abs rs (sset t (g ++ [rule])%list groups)
  end.

(** One [processTargetGroup] call on the file system [files] (path to
    content).  [update path content updates] is [UpdateFileValues] on an
    existing file; on a missing file it fails when reading. *)
Definition target_group (update : string -> string -> list (string * value) -> result string)
    (sourceData : gomap) (files : list (string * string)) (t : string) (rules : list SyncRule)
  : list SyncEvent * list (string * string) :=
  match slookup t files with
  | Some content =>
      let '(events, content') := processTargetGroup (update t) sourceData content rules in
      (events, sset t content' files)
  | None =>
      let '(events, _) := processTargetGroup (fun _ _ => Err EReadFile) sourceData "" rules in
      (events, files)
  end.

(** The [for targetFile, targetRules := range targetGroups] loop: the
    events sent, in order, and the file system afterwards. *)
Fixpoint process_groups (update : string -> string -> list (string * value) -> result string)
    (sourceData : gomap) (groups : list (string * list SyncRule)) (files : list (string * string))
  : list SyncEvent * list (string * string) :=
  match groups with
  | [] => ([], files)
  | (t, rs) :: gs =>
      let '(evs, files') := target_group update sourceData files t rs in
      let '(evs', files'') := process_groups update sourceData gs files' in
      ((evs ++ evs')%list, files'')
  end.

(** [processBatch] on the rules of the batch.  [order] is the iteration
    order of the [targetGroups] map, [load] the outcomes of the [LoadFile]
    calls of [loadSourceFileWithRetry]. *)
Definition processBatch (Abs : string -> option string) (load : nat -> result gomap)
    (update : string -> string -> list (string * value) -> result string)
    (order : list (string * list SyncRule) -> list (string * list SyncRule))
    (files : list (string * string)) (rules : list SyncRule)
  : list SyncEvent * list (string * string) :=
  match loadSourceFileWithRetry load with
  | Err _ =>
      (map (fun rule => mkEvent (ID rule) None false "Failed to load source file") rules, files)
  | Ok sourceData => process_groups update sourceData (order (group_rules Abs rules [])) files
  end.

(* ------------------------------------------------------------------ *)
(** ** Shapes used by the statements below *)

(** A map key that [GetValue] reads back as one plain segment. *)
Definition key_plain (k : string) : bool :=
  negb (String.eqb k "") && negb (ContainsChar k ".") && negb (ContainsChar k "[").

(** Every map of the tree is a [map[string]any] with distinct plain keys,
    and every array has fewer than [2^63] elements. *)
Fixpoint keys_plain (v : value) : bool :=
  match v with
  | VMapAny _ => false
  | VMap m =>
      (fix go (l : gomap) : bool :=
         match l with
         | [] => true
         | (k, x) :: l' =>
             key_plain k && negb (existsb (fun kx => String.eqb k (fst kx)) l')
             && keys_plain x && go l'
         end) m
  | VList xs =>
      Z.leb (Z.of_nat (length xs)) (2 ^ 63)
      && (fix go (l : list value) : bool :=
            match l with [] => true | x :: l' => keys_plain x && go l' end) xs
  | VTableArray xs =>
      Z.leb (Z.of_nat (length xs)) (2 ^ 63)
      && (fix go2 (l : list gomap) : bool :=
            match l with
            | [] => true
            | m :: l' =>
                (fix go (l : gomap) : bool :=
                   match l with
                   | [] => true
                   | (k, x) :: l' =>
                       key_plain k && negb (existsb (fun kx => String.eqb k (fst kx)) l')
                       && keys_plain x && go l'
                   end) m
                && go2 l'
            end) xs
  | _ => true
  end.

(** The number of nodes of a tree. *)
Fixpoint vsize (v : value) : nat :=
  match v with
  | VMap m | VMapAny m =>
      S ((fix go (l : gomap) : nat :=
            match l with [] => 0 | (_, x) :: l' => vsize x + go l' end) m)
  | VList xs =>
      S ((fix go (l : list value) : nat :=
            match l with [] => 0 | x :: l' => vsize x + go l' end) xs)
  | VTableArray xs =>
      S ((fix go2 (l : list gomap) : nat :=
            match l with
            | [] => 0
            | m :: l' =>
                S ((fix go (l : gomap) : nat :=
                      match l with [] => 0 | (_, x) :: l' => vsize x + go l' end) m)
                + go2 l'
            end) xs)
  | _ => 1
  end.

(** No node that [SetValue] would descend into as a converted copy: no
    [map[any]any] and no TOML table array anywhere in the tree. *)
Fixpoint no_copies (v : value) : bool :=
  match v with
  | VMapAny _ | VTableArray _ => false
  | VMap m =>
      (fix go (l : gomap) : bool :=
         match l with [] => true | (_, x) :: l' => no_copies x && go l' end) m
  | VList xs =>
      (fix go (l : list value) : bool :=
         match l with [] => true | x :: l' => no_copies x && go l' end) xs
  | _ => true
  end.

(** The key named by the first segment of a key path, if it parses. *)
Definition first_key (keyPath : string) : option string :=
  match parseKeySegment (hd "" (Split keyPath ".")) with
  | Some (key, _) => Some key
  | None => None
  end.

(** A string made of decimal digits only. *)
Fixpoint all_digits (s : string) : bool :=
  match s with
  | EmptyString => true
  | String c s' => is_digit c && all_digits s'
  end.

(** Consecutive times at least [debounce] apart. *)
Fixpoint spaced (l : list nat) : bool :=
  match l with
  | [] => true
  | a :: r =>
      match r with
      | [] => true
      | b :: _ => Nat.leb (a + debounce) b && spaced r
      end
  end.

(** A value text the next rewrite finds again as a whole: a plain text
    (non-empty, no blank at either end, no double quote, ['#'] or line
    break), or a quoted text from [escape_quotes] with no backslash in the
    original string. *)
Definition rewritable (val : string) : Prop :=
  (val <> EmptyString /\ is_blank (byte_at val 0) = false
   /\ is_blank (byte_at val (String.length val - 1)) = false
   /\ ContainsChar val dq = false /\ ContainsChar val "#" = false
   /\ ContainsChar val "010"%char = false)
  \/ exists s, val = quote (escape_quotes s) /\ ContainsChar s "\" = false.

(* ================================================================== *)
(** * Facts about the string helpers *)

Lemma Split_nonempty : forall s c, Split s c <> [].
Proof.
  induction s as [|a s IH]; intros c; simpl; [discriminate|].
  destruct (Ascii.eqb a c); [discriminate|].
  destruct (Split s c); discriminate.
Qed.

Lemma Join_Split : forall s c, Join (Split s c) c = s.
Proof.
  induction s as [|a s IH]; intros c; simpl; [reflexivity|].
  destruct (Ascii.eqb a c) eqn:E.
  - apply Ascii.eqb_eq in E; subst a.
    pose proof (Split_nonempty s c) as Hne.
    destruct (Split s c) as [|w ws] eqn:Hs; [congruence|].
    simpl. rewrite <- (IH c). rewrite Hs. reflexivity.
  - pose proof (Split_nonempty s c) as Hne.
    specialize (IH c).
    destruct (Split s c) as [|w ws] eqn:Hs; [congruence|].
    destruct ws as [|w' ws']; simpl in *; rewrite <- IH; reflexivity.
Qed.

Lemma SplitN2_app : forall s c a b, SplitN2 s c = Some (a, b) -> s = a ++ String c b.
Proof.
  induction s as [|x s IH]; intros c a b H; simpl in H; [discriminate|].
  destruct (Ascii.eqb x c) eqn:E.
  - apply Ascii.eqb_eq in E; subst. injection H as <- <-. reflexivity.
  - destruct (SplitN2 s c) as [[a' b']|] eqn:Hs; [|discriminate].
    injection H as <- <-. simpl. f_equal. apply IH. exact Hs.
Qed.

Lemma SplitN2_contains : forall s c p, SplitN2 s c = Some p -> ContainsChar s c = true.
Proof.
  induction s as [|x s IH]; intros c p H; simpl in *; [discriminate|].
  destruct (Ascii.eqb x c) eqn:E.
  - apply Ascii.eqb_eq in E; subst. rewrite Ascii.eqb_refl. reflexivity.
  - destruct (SplitN2 s c) as [[a' b']|] eqn:Hs; [|discriminate].
    rewrite (IH c _ Hs). apply orb_true_r.
Qed.

Lemma digits_close_app : forall r d, digits_close r = Some d -> r = d ++ "]" /\ d <> EmptyString.
Proof.
  induction r as [|c r IH]; intros d H; simpl in H; [discriminate|].
  destruct (is_digit c); [|discriminate].
  destruct (String.eqb r "]") eqn:E.
  - apply String.eqb_eq in E; subst r. injection H as <-. split; [reflexivity|discriminate].
  - destruct (digits_close r) as [d'|] eqn:Hd; [|discriminate].
    simpl in H. injection H as <-.
    destruct (IH d' eq_refl) as [-> _]. split; [reflexivity|discriminate].
Qed.

Lemma index_regex_app : forall seg name d,
  index_regex seg = Some (name, d) ->
  seg = name ++ String "[" (d ++ "]") /\ name <> EmptyString /\ d <> EmptyString.
Proof.
  intros seg name d H. unfold index_regex in H.
  destruct (SplitN2 seg "[") as [[a b]|] eqn:Hs; [|discriminate].
  destruct a as [|x a']; [discriminate|].
  destruct (digits_close b) as [d'|] eqn:Hd; [|discriminate].
  simpl in H. injection H as <- <-.
  destruct (digits_close_app b d' Hd) as [Hb Hne].
  rewrite (SplitN2_app _ _ _ _ Hs), Hb. split; [reflexivity|]. split; [discriminate|exact Hne].
Qed.

Lemma index_regex_contains : forall seg p, index_regex seg = Some p -> ContainsChar seg "[" = true.
Proof.
  intros seg p H. unfold index_regex in H.
  destruct (SplitN2 seg "[") as [[a b]|] eqn:Hs; [|discriminate].
  exact (SplitN2_contains _ _ _ Hs).
Qed.

Lemma Atoi_nonneg : forall d n, Atoi d = Some n -> (0 <= n)%Z.
Proof.
  unfold Atoi. intros d n H.
  destruct (NilEmpty.uint_of_string d); [|discriminate].
  destruct (Z.leb _ _); [|discriminate]. injection H as <-. apply N2Z.is_nonneg.
Qed.

(** An index written without a leading zero ([0] itself is fine). *)
Definition no_leading_zero (d : string) : bool :=
  match d with
  | String c (String _ _) => negb (Ascii.eqb c "0")
  | _ => true
  end.

Lemma itoa_Atoi : forall d n,
  Atoi d = Some n -> no_leading_zero d = true -> d <> EmptyString -> itoa n = d.
Proof.
  intros d n H Hz Hne. unfold Atoi in H.
  destruct (NilEmpty.uint_of_string d) as [u|] eqn:Hu; [|discriminate].
  destruct (Z.leb _ _); [|discriminate]. injection H as <-.
  unfold itoa. rewrite N2Z.id, DecimalN.Unsigned.to_of.
  destruct d as [|c d'].
  - congruence.
  - pose proof (NilEmpty.sus _ _ Hu) as Hs.
    simpl in Hu.
    destruct (NilEmpty.uint_of_string d') as [u'|] eqn:Hu'; [|discriminate].
    apply uint_of_char_spec in Hu.
    assert (Hcase : (c = "0"%char /\ u = Decimal.D0 u')
                    \/ (Decimal.nzhead u = u /\ u <> Decimal.Nil)).
    { destruct Hu as [H0|Hu]; [left; exact H0|right].
      repeat (destruct Hu as [[_ ->]|Hu]; [split; [reflexivity|discriminate]|]).
      destruct Hu as [_ ->]. split; [reflexivity|discriminate]. }
    destruct Hcase as [[-> ->] | [Hz0 Hn]].
    + destruct d' as [|c' d''].
      * simpl in Hu'. injection Hu' as <-. reflexivity.
      * simpl in Hz. discriminate.
    + unfold Decimal.unorm. rewrite Hz0.
      destruct u; try (exfalso; apply Hn; reflexivity); exact Hs.
Qed.

Lemma normalize_part_id : forall part,
  (forall name d, index_regex part = Some (name, d) -> no_leading_zero d = true) ->
  normalize_part part = part.
Proof.
  intros part H. unfold normalize_part.
  destruct (ContainsChar part "[") eqn:Hc; [|reflexivity].
  unfold parseKeySegment.
  destruct (index_regex part) as [[name d]|] eqn:Hr.
  - destruct (Atoi d) as [n|] eqn:Ha; [|reflexivity].
    pose proof (Atoi_nonneg _ _ Ha) as Hn.
    destruct (Z.ltb_spec n 0); [lia|].
    destruct (Z.leb_spec 0 n); [|lia].
    destruct (index_regex_app _ _ _ Hr) as [Hp [_ Hne]].
    rewrite (itoa_Atoi d n Ha (H name d eq_refl) Hne).
    rewrite Hp. reflexivity.
  - rewrite Hc. reflexivity.
Qed.

Lemma parse_segments_none : forall segs,
  parse_segments segs = None <-> exists seg, In seg segs /\ parseKeySegment seg = None.
Proof.
  induction segs as [|s ss IH]; simpl.
  - split; [discriminate|]. intros [seg [[] _]].
  - destruct (parseKeySegment s) as [p|] eqn:Hs.
    + destruct (parse_segments ss) as [ps|] eqn:Hss.
      * split; [discriminate|]. intros [seg [[<-|Hin] Hseg]]; [congruence|].
        assert (Hx : Some ps = None) by (apply IH; exists seg; auto). discriminate.
      * split; [|reflexivity]. intros _.
        destruct (proj1 IH eq_refl) as [seg [Hin Hseg]]. exists seg; auto.
    + split; [|reflexivity]. intros _. exists s; auto.
Qed.

Lemma parseKeySegment_none : forall seg,
  parseKeySegment seg = None <->
  ContainsChar seg "[" = true /\
  match index_regex seg with Some (_, d) => Atoi d = None | None => True end.
Proof.
  intros seg. unfold parseKeySegment.
  destruct (index_regex seg) as [[name d]|] eqn:Hr.
  - rewrite (index_regex_contains _ _ Hr).
    destruct (Atoi d) as [n|] eqn:Ha.
    + pose proof (Atoi_nonneg _ _ Ha).
      destruct (Z.ltb_spec n 0); [lia|].
      split; [discriminate|]. intros [_ H']. discriminate.
    + tauto.
  - destruct (ContainsChar seg "["); split; try tauto; try discriminate.
    intros [H' _]; discriminate.
Qed.

(* ================================================================== *)
(** * The claims *)

(** C5 (code place, models.DetectFormat): a path ending in [.env] is
    detected as [json]: [DetectFormat] has no [.env] case and the model
    package declares no env format, while the parser's own tests
    ([TestLoadFileEnv], [TestUpdateFileValuesEnv] in env_test.go) load and
    rewrite [*.env] files as dotenv. *)
Theorem DetectFormat_env_is_json :
  DetectFormat "config.env" = FormatJSON /\ DetectFormat ".env" = FormatJSON.
Proof. split; reflexivity. Qed.

(** C10: the format detector returns one of json, yaml, toml for every
    path, each of them for some path; [LoadFile] never takes its
    unsupported-format branch, and every path without a [.yaml], [.yml]
    or [.toml] suffix (a [.env] or [.txt] file, a file with no extension)
    is decoded as JSON. *)
Theorem DetectFormat_total_json_default :
  forall (ReadFile : string -> option string)
         (json_Unmarshal yaml_Unmarshal toml_Unmarshal : string -> option gomap)
         (path : string),
    (DetectFormat path = FormatJSON \/ DetectFormat path = FormatYAML
     \/ DetectFormat path = FormatTOML)
    /\ (forall f, LoadFile ReadFile json_Unmarshal yaml_Unmarshal toml_Unmarshal path
                  <> Err (EUnsupported f))
    /\ (HasSuffix path ".yaml" || HasSuffix path ".yml" || HasSuffix path ".toml" = false ->
        DetectFormat path = FormatJSON
        /\ LoadFile ReadFile json_Unmarshal yaml_Unmarshal toml_Unmarshal path
           = match ReadFile path with
             | None => Err EReadFile
             | Some data =>
                 match json_Unmarshal data with
                 | Some m => Ok m
                 | None => Err (EParse FormatJSON)
                 end
             end)
    /\ DetectFormat "a.env" = FormatJSON /\ DetectFormat "a.txt" = FormatJSON
    /\ DetectFormat "Makefile" = FormatJSON /\ DetectFormat "a.yml" = FormatYAML
    /\ DetectFormat "a.toml" = FormatTOML.
Proof.
  intros ReadFile j y t path.
  assert (Hr : DetectFormat path = FormatJSON \/ DetectFormat path = FormatYAML
               \/ DetectFormat path = FormatTOML).
  { unfold DetectFormat.
    destruct (tail_is path 5 ".yaml"); [right; left; reflexivity|].
    destruct (tail_is path 4 ".yml"); [right; left; reflexivity|].
    destruct (tail_is path 5 ".toml"); [right; right; reflexivity|].
    destruct (tail_is path 5 ".json"); left; reflexivity. }
  split; [exact Hr|].
  split.
  - intros f. unfold LoadFile.
    destruct (ReadFile path) as [data|]; [|discriminate].
    destruct Hr as [-> | [-> | ->]]; simpl;
      repeat match goal with |- context [match ?o with Some _ => _ | None => _ end] =>
               destruct o end; discriminate.
  - split; [|repeat split; reflexivity].
    intros Hs. unfold HasSuffix in Hs. simpl String.length in Hs.
    apply orb_false_iff in Hs as [Hs Ht]. apply orb_false_iff in Hs as [Hy Hyml].
    assert (Hd : DetectFormat path = FormatJSON).
    { unfold DetectFormat. rewrite Hy, Hyml, Ht.
      destruct (tail_is path 5 ".json"); reflexivity. }
    split; [exact Hd|].
    unfold LoadFile. rewrite Hd. reflexivity.
Qed.

(** C6 (corrected): splitting a key path on dots and parsing every segment
    fails exactly when some segment contains ['['] and is not
    [name[digits]] with a non-empty name free of ['['] and an index that
    fits in an [int]; so a negative or non-numeric index and a ['['] with no
    closing [']'] are rejected, while a segment without ['['] is accepted
    as a name: empty steps (a doubled, leading or trailing dot) and a
    stray [']'] pass the parser. *)
Theorem parse_key_path_errors :
  (forall keyPath, parse_key_path keyPath = None <->
     exists seg, In seg (Split keyPath ".") /\
       ContainsChar seg "[" = true /\
       match index_regex seg with Some (_, d) => Atoi d = None | None => True end)
  /\ (forall seg, ContainsChar seg "[" = false -> parseKeySegment seg = Some (seg, (-1)%Z))
  /\ parseKeySegment "a[-1]" = None /\ parseKeySegment "a[x]" = None
  /\ parseKeySegment "a[0" = None /\ parseKeySegment "[0]" = None
  /\ parseKeySegment "a[3]" = Some ("a", 3%Z)
  /\ parse_key_path "a..b" = Some [("a", (-1)%Z); (EmptyString, (-1)%Z); ("b", (-1)%Z)]
  /\ parse_key_path ".a" = Some [(EmptyString, (-1)%Z); ("a", (-1)%Z)]
  /\ parse_key_path "a." = Some [("a", (-1)%Z); (EmptyString, (-1)%Z)]
  /\ parse_key_path "a]" = Some [("a]", (-1)%Z)].
Proof.
  split.
  - intros keyPath. unfold parse_key_path. rewrite parse_segments_none.
    split; intros [seg [Hin Hs]]; exists seg; split; auto; apply parseKeySegment_none; auto.
  - split.
    + intros seg Hc. unfold parseKeySegment.
      destruct (index_regex seg) as [p|] eqn:Hr.
      * rewrite (index_regex_contains _ _ Hr) in Hc. discriminate.
      * rewrite Hc. reflexivity.
    + repeat split; vm_compute; reflexivity.
Qed.

(** Counterexample to C6: the empty step of [a..b], a leading or a trailing
    dot, and an unbalanced [']'] are all parsed without a syntax error, and
    [GetValue] proceeds with the empty step (here it finds a value). *)
Lemma parse_key_path_accepts_malformed :
  parse_key_path "a..b" <> None /\ parse_key_path ".a" <> None
  /\ parse_key_path "a." <> None /\ parse_key_path "a]" <> None
  /\ GetValue [("a", VMap [(EmptyString, VMap [("b", VInt 1)])])] "a..b" = Ok (VInt 1).
Proof. repeat split; vm_compute; try reflexivity; discriminate. Qed.

(** C7 (corrected): normalising a key path (splitting on dots, parsing the
    indexed segments and rendering them back) is the identity on every path
    whose indices are written without leading zeros, such as [a.b[3].c];
    an index with leading zeros is rendered in canonical decimal form. *)
Theorem normalizeTOMLKeyPath_id :
  forall keyPath,
    (forall seg name d, In seg (Split keyPath ".") -> index_regex seg = Some (name, d) ->
                        no_leading_zero d = true) ->
    normalizeTOMLKeyPath keyPath = keyPath.
Proof.
  intros keyPath H. unfold normalizeTOMLKeyPath.
  rewrite map_ext_in with (g := fun x => x).
  - rewrite map_id. apply Join_Split.
  - intros seg Hin. apply normalize_part_id. intros name d Hr. exact (H seg name d Hin Hr).
Qed.

Lemma normalizeTOMLKeyPath_id_witness :
  (forall seg name d, In seg (Split "a.b[3].c" ".") -> index_regex seg = Some (name, d) ->
                      no_leading_zero d = true)
  /\ normalizeTOMLKeyPath "a.b[3].c" = "a.b[3].c".
Proof.
  assert (H : forall seg name d, In seg (Split "a.b[3].c" ".") -> index_regex seg = Some (name, d) ->
                                 no_leading_zero d = true).
  { intros seg name d Hin Hr. simpl in Hin.
    destruct Hin as [<-|[<-|[<-|[]]]]; vm_compute in Hr; try discriminate.
    injection Hr as _ <-. reflexivity. }
  split; [exact H|]. apply (normalizeTOMLKeyPath_id "a.b[3].c"). exact H.
Defined.

(** Counterexample to C7: [a[03]] is well formed but renders as [a[3]]. *)
Lemma normalizeTOMLKeyPath_leading_zero :
  normalizeTOMLKeyPath "a[03]" = "a[3]" /\ normalizeTOMLKeyPath "a[03]" <> "a[03]".
Proof. split; vm_compute; [reflexivity|discriminate]. Qed.

(* ================================================================== *)
(** * Facts about the navigator *)

Lemma Split_no_sep : forall s c, ContainsChar s c = false -> Split s c = [s].
Proof.
  induction s as [|x s IH]; intros c H; simpl in *; [reflexivity|].
  apply orb_false_iff in H as [Hx Hs].
  destruct (Ascii.eqb_spec x c) as [->|Hne].
  - rewrite Ascii.eqb_refl in Hx. discriminate.
  - rewrite (IH c Hs). reflexivity.
Qed.

Lemma Split_app_sep : forall a b c,
  ContainsChar a c = false -> Split (a ++ String c b) c = a :: Split b c.
Proof.
  induction a as [|x a IH]; intros b c H; simpl in *.
  - rewrite Ascii.eqb_refl. reflexivity.
  - apply orb_false_iff in H as [Hx Ha].
    destruct (Ascii.eqb_spec x c) as [->|Hne].
    + rewrite Ascii.eqb_refl in Hx. discriminate.
    + rewrite (IH b c Ha). reflexivity.
Qed.

Lemma Split_contains : forall s c seg d,
  In seg (Split s c) -> ContainsChar seg d = true -> ContainsChar s d = true.
Proof.
  induction s as [|x s IH]; intros c seg d Hin Hc; simpl in Hin.
  - destruct Hin as [<-|[]]. discriminate.
  - simpl. destruct (Ascii.eqb x c).
    + destruct Hin as [<-|Hin]; [discriminate|].
      rewrite (IH c seg d Hin Hc). apply orb_true_r.
    + destruct (Split s c) as [|w ws] eqn:Hs.
      * destruct Hin as [<-|[]]. simpl in Hc. rewrite orb_false_r in Hc. rewrite Hc. reflexivity.
      * destruct Hin as [<-|Hin].
        -- simpl in Hc. apply orb_true_iff in Hc as [Hc|Hc]; [rewrite Hc; reflexivity|].
           rewrite (IH c w d ltac:(rewrite Hs; left; reflexivity) Hc). apply orb_true_r.
        -- rewrite (IH c seg d ltac:(rewrite Hs; right; exact Hin) Hc). apply orb_true_r.
Qed.

Lemma parseKeySegment_plain : forall seg,
  ContainsChar seg "[" = false -> parseKeySegment seg = Some (seg, (-1)%Z).
Proof.
  intros seg Hc. unfold parseKeySegment.
  destruct (index_regex seg) as [p|] eqn:Hr.
  - rewrite (index_regex_contains _ _ Hr) in Hc. discriminate.
  - rewrite Hc. reflexivity.
Qed.

Lemma lookup_map_set_eq : forall k x m, lookup k (map_set k x m) = Some x.
Proof.
  intros k x m. induction m as [|[k' y] m IH]; simpl.
  - rewrite String.eqb_refl. reflexivity.
  - destruct (String.eqb_spec k k') as [->|Hne]; simpl.
    + rewrite String.eqb_refl. reflexivity.
    + apply String.eqb_neq in Hne. rewrite Hne. exact IH.
Qed.

Lemma map_set_lookup_same : forall k x m, lookup k m = Some x -> map_set k x m = m.
Proof.
  intros k x m. induction m as [|[k' y] m IH]; simpl; intros H; [discriminate|].
  destruct (String.eqb k k'); [congruence|]. rewrite (IH H). reflexivity.
Qed.

Lemma string_maps_only_lookup : forall m k x,
  string_maps_only (VMap m) = true -> lookup k m = Some x -> string_maps_only x = true.
Proof.
  induction m as [|[k' y] m IH]; intros k x Hm Hl; simpl in Hl; [discriminate|].
  simpl in Hm. apply andb_true_iff in Hm as [Hy Hm].
  destruct (String.eqb k k'); [congruence|].
  apply (IH k x); [exact Hm|exact Hl].
Qed.

Lemma set_loop_step : forall seg r m v,
  parseKeySegment seg = Some (seg, (-1)%Z) -> r <> [] ->
  set_loop (VMap m) (seg :: r) v =
  match lookup seg m with
  | None => let '(next', e) := set_loop (VMap []) r v in (VMap (map_set seg next' m), e)
  | Some next => let '(next', e) := set_loop next r v in (VMap (map_set seg next' m), e)
  end.
Proof.
  intros seg r m v Hseg Hr. destruct r as [|s r]; [congruence|].
  simpl. rewrite Hseg. destruct (lookup seg m); reflexivity.
Qed.

Lemma get_loop_step : forall seg r cur next,
  parseKeySegment seg = Some (seg, (-1)%Z) -> r <> [] -> get_key cur seg = Ok next ->
  get_loop cur (seg :: r) = get_loop next r.
Proof.
  intros seg r cur next Hseg Hr Hg. destruct r as [|s r]; [congruence|].
  simpl. rewrite Hseg, Hg. reflexivity.
Qed.

Lemma set_loop_map_shape : forall keys m v,
  match fst (set_loop (VMap m) keys v) with VMap _ => True | _ => False end.
Proof.
  intros keys m v. destruct keys as [|k r]; simpl; [exact I|].
  repeat (match goal with
          | |- context [match ?x with _ => _ end] =>
              lazymatch x with fst _ => fail | _ => destruct x end
          end; simpl; try exact I).
Qed.

(** Setting along index-free segments through [map[string]any] nodes and
    reading back along the same segments. *)
Lemma set_loop_get_loop : forall keys cur v,
  keys <> [] ->
  (forall seg, In seg keys -> ContainsChar seg "[" = false) ->
  string_maps_only cur = true ->
  snd (set_loop cur keys v) = None ->
  get_loop (fst (set_loop cur keys v)) keys = Ok v.
Proof.
  induction keys as [|seg rest IH]; intros cur v Hne Hplain Hcur Hset; [congruence|].
  assert (Hseg : parseKeySegment seg = Some (seg, (-1)%Z))
    by (apply parseKeySegment_plain; apply Hplain; left; reflexivity).
  assert (Hrest : forall s, In s rest -> ContainsChar s "[" = false)
    by (intros s Hs; apply Hplain; right; exact Hs).
  destruct rest as [|s2 rest'].
  - destruct cur; simpl in Hset |- *; rewrite Hseg in *; simpl in Hset; try discriminate.
    replace (0 <=? -1)%Z with false by reflexivity. unfold get_key, fst. rewrite lookup_map_set_eq. reflexivity.
  - assert (Hr : s2 :: rest' <> []) by discriminate.
    destruct cur as [| | | |m|m| |];
      try (simpl in Hset; rewrite Hseg in Hset; simpl in Hset; discriminate).
    + rewrite (set_loop_step seg _ m v Hseg Hr) in Hset |- *.
      destruct (lookup seg m) as [next|] eqn:Hl.
      * destruct (set_loop next (s2 :: rest') v) as [next' e] eqn:Hs.
        cbn [fst snd] in Hset |- *. subst e.
        rewrite (get_loop_step seg _ _ next' Hseg Hr)
          by (unfold get_key; rewrite lookup_map_set_eq; reflexivity).
        pose proof (IH next v Hr Hrest (string_maps_only_lookup m seg next Hcur Hl)) as IHn.
        rewrite Hs in IHn. apply IHn. reflexivity.
      * destruct (set_loop (VMap []) (s2 :: rest') v) as [next' e] eqn:Hs.
        cbn [fst snd] in Hset |- *. subst e.
        rewrite (get_loop_step seg _ _ next' Hseg Hr)
          by (unfold get_key; rewrite lookup_map_set_eq; reflexivity).
        pose proof (IH (VMap []) v Hr Hrest eq_refl) as IHn.
        rewrite Hs in IHn. apply IHn. reflexivity.
Qed.


Lemma Split_app_sep_any : forall a b c, Split (a ++ String c b) c = (Split a c ++ Split b c)%list.
Proof.
  induction a as [|x a IH]; intros b c; simpl.
  - rewrite Ascii.eqb_refl. reflexivity.
  - destruct (Ascii.eqb x c); [rewrite IH; reflexivity|].
    rewrite IH. pose proof (Split_nonempty a c) as Hne.
    destruct (Split a c) as [|w ws]; [congruence|]. reflexivity.
Qed.

Lemma Split_tl_nil : forall q c, tl (Split q c) = [] -> ContainsChar q c = false.
Proof.
  induction q as [|x q IH]; intros c H; simpl in *; [reflexivity|].
  destruct (Ascii.eqb_spec x c) as [->|Hne].
  - pose proof (Split_nonempty q c). destruct (Split q c); [congruence|discriminate].
  - replace (Ascii.eqb c x) with false
      by (symmetry; apply Ascii.eqb_neq; congruence).
    simpl. apply IH. destruct (Split q c) as [|w ws]; simpl in *; [reflexivity|exact H].
Qed.

Lemma SetValue_snd : forall data path v,
  snd (SetValue data path v) = snd (set_loop (VMap data) (Split path ".") v).
Proof.
  intros data path v. unfold SetValue.
  destruct (set_loop (VMap data) (Split path ".") v) as [[] e]; reflexivity.
Qed.

(** One navigation step of [SetValue] goes where the same step of
    [GetValue] goes, and the error of the rest of the walk is returned. *)
Lemma set_loop_nav_err : forall k rest cur v key idx next c,
  rest <> [] -> parseKeySegment k = Some (key, idx) ->
  get_key cur key = Ok next -> get_index next idx = Ok c ->
  snd (set_loop cur (k :: rest) v) = snd (set_loop c rest v).
Proof.
  intros k rest cur v key idx next c Hr Hk Hg Hi.
  destruct rest as [|x r]; [congruence|].
  remember (x :: r) as rest eqn:Er.
  cbn [set_loop]. rewrite Hk. rewrite Er. rewrite <- Er.
  unfold get_index in Hi.
  destruct cur as [| | | |m|m| |]; cbn [get_key] in Hg; try discriminate.
  - destruct (lookup key m) as [n|]; [|discriminate]. injection Hg as <-.
    destruct (Z.leb 0 idx).
    + destruct n; try discriminate;
        destruct (nth_error _ _); try discriminate; injection Hi as <-;
        destruct (set_loop _ _ v); reflexivity.
    + injection Hi as <-. destruct (set_loop n _ v); reflexivity.
  - destruct (lookup key (convertMapInterface m)) as [n|]; [|discriminate]. injection Hg as <-.
    destruct (Z.leb 0 idx).
    + destruct n; try discriminate;
        destruct (nth_error _ _); try discriminate; injection Hi as <-;
        destruct (set_loop _ _ v); reflexivity.
    + injection Hi as <-. destruct (set_loop n _ v); reflexivity.
Qed.

(** Along a prefix [pre] that [GetValue] resolves to [c], the error
    [SetValue] returns is the one of the walk from [c]. *)
Lemma set_loop_after_path : forall pre cur c rest v,
  pre <> [] -> rest <> [] -> get_loop cur pre = Ok c ->
  snd (set_loop cur (pre ++ rest) v) = snd (set_loop c rest v).
Proof.
  induction pre as [|k pre IH]; intros cur c rest v Hp Hr Hg; [congruence|].
  cbn [get_loop] in Hg.
  destruct (parseKeySegment k) as [[key idx]|] eqn:Hk; [|discriminate].
  destruct (get_key cur key) as [next|e] eqn:Hgk; [|discriminate].
  destruct (get_index next idx) as [c1|e] eqn:Hgi; [|discriminate].
  rewrite <- app_comm_cons.
  assert (Hne : (pre ++ rest)%list <> []) by (destruct pre; [exact Hr|discriminate]).
  rewrite (set_loop_nav_err k _ cur v key idx next c1 Hne Hk Hgk Hgi).
  destruct pre as [|k2 pre'].
  - injection Hg as <-. reflexivity.
  - apply IH; [discriminate|exact Hr|exact Hg].
Qed.


Lemma Split_tl_cons : forall q c, tl (Split q c) <> [] -> ContainsChar q c = true.
Proof.
  intros q c H. destruct (ContainsChar q c) eqn:E; [reflexivity|].
  rewrite (Split_no_sep q c E) in H. simpl in H. congruence.
Qed.

Lemma GetValue_Split_ne : forall p, Split p "." <> [].
Proof. intros p. apply Split_nonempty. Qed.

(** C9: on a tree whose mapping nodes are all [map[string]any], setting
    [v] at a path of index-free segments and reading the same path back
    gives [v] whenever [SetValue] reports no error, missing intermediate
    maps being created on the way.  At any depth, a path [p.q] where [p]
    reads a value that is not a map (a scalar, or a list) fails with a
    type error: setting a value on a non-object when [q] is one segment,
    a conflict with the non-object value when [q] goes on; and setting a
    value at an in-range index of a TOML table array, at the top level or
    below a map read at [p], fails with the table-array error. *)
Theorem SetValue_then_GetValue :
  (forall data path v,
     string_maps_only (VMap data) = true -> ContainsChar path "[" = false ->
     snd (SetValue data path v) = None ->
     GetValue (fst (SetValue data path v)) path = Ok v)
  /\ (forall data p q s v,
     GetValue data p = Ok s -> (forall m, s <> VMap m) -> (forall m, s <> VMapAny m) ->
     parseKeySegment (hd EmptyString (Split q ".")) <> None ->
     snd (SetValue data (p ++ String "." q) v)
     = Some (if ContainsChar q "." then EConflict else ESetNonObject))
  /\ (forall data seg key i a v,
     ContainsChar seg "." = false -> parseKeySegment seg = Some (key, i) -> (0 <= i)%Z ->
     lookup key data = Some (VTableArray a) -> (Z.to_nat i < length a)%nat ->
     SetValue data seg v = (data, Some (ETableArrayPrimitive key)))
  /\ (forall data p m seg key i a v,
     GetValue data p = Ok (VMap m) ->
     ContainsChar seg "." = false -> parseKeySegment seg = Some (key, i) -> (0 <= i)%Z ->
     lookup key m = Some (VTableArray a) -> (Z.to_nat i < length a)%nat ->
     snd (SetValue data (p ++ String "." seg) v) = Some (ETableArrayPrimitive key))
  /\ SetValue [] "a.b.c" (VInt 7) = ([("a", VMap [("b", VMap [("c", VInt 7)])])], None)
  /\ snd (SetValue [("a", VInt 1)] "a.b" (VInt 7)) = Some ESetNonObject
  /\ snd (SetValue [("a", VInt 1)] "a.b.c" (VInt 7)) = Some EConflict
  /\ snd (SetValue [("a", VMap [("b", VInt 1)])] "a.b.c" (VInt 7)) = Some ESetNonObject
  /\ SetValue [("t", VTableArray [[("x", VInt 1)]])] "t[0]" (VInt 7)
     = ([("t", VTableArray [[("x", VInt 1)]])], Some (ETableArrayPrimitive "t"))
  /\ snd (SetValue [("srv", VMap [("db", VTableArray [[("x", VInt 1)]])])] "srv.db[0]" (VInt 7))
     = Some (ETableArrayPrimitive "db").
Proof.
  split; [|split; [|split; [|split]]].
  - intros data path v Hd Hp Hset. unfold SetValue, GetValue in *.
    assert (Hne : Split path "." <> []) by apply Split_nonempty.
    assert (Hplain : forall seg, In seg (Split path ".") -> ContainsChar seg "[" = false).
    { intros seg Hin. destruct (ContainsChar seg "[") eqn:Hc; [|reflexivity].
      rewrite (Split_contains _ _ _ _ Hin Hc) in Hp. discriminate. }
    pose proof (set_loop_get_loop _ (VMap data) v Hne Hplain Hd) as H.
    pose proof (set_loop_map_shape (Split path ".") data v) as Hshape.
    destruct (set_loop (VMap data) (Split path ".") v) as [res e] eqn:Hs.
    destruct res; try contradiction. simpl in Hset, H |- *. subst e. exact (H eq_refl).
  - intros data p q s v Hg Hm Hma Hq. unfold GetValue in Hg.
    rewrite SetValue_snd, Split_app_sep_any.
    destruct (Split q ".") as [|seg rest] eqn:Hsq; [exfalso; exact (Split_nonempty q "." Hsq)|].
    cbn [hd] in Hq. destruct (parseKeySegment seg) as [[key idx]|] eqn:Hseg; [|congruence].
    rewrite (set_loop_after_path _ (VMap data) s (seg :: rest) v (GetValue_Split_ne p)
              ltac:(intro Hn; discriminate Hn) Hg).
    destruct rest as [|x r].
    + rewrite (Split_tl_nil q "."); [|rewrite Hsq; reflexivity].
      destruct s; try (exfalso; eapply Hm; reflexivity); try (exfalso; eapply Hma; reflexivity);
        cbn [set_loop]; rewrite Hseg; reflexivity.
    + rewrite (Split_tl_cons q "."); [|rewrite Hsq; discriminate].
      destruct s; try (exfalso; eapply Hm; reflexivity); try (exfalso; eapply Hma; reflexivity);
        cbn [set_loop]; rewrite Hseg; reflexivity.
  - intros data seg key i a v Hd Hseg Hi Hl Hlt. unfold SetValue.
    rewrite (Split_no_sep seg "." Hd). simpl. rewrite Hseg.
    destruct (Z.leb_spec 0 i); [|lia]. rewrite Hl.
    apply Nat.ltb_lt in Hlt. rewrite Hlt. reflexivity.
  - intros data p m seg key i a v Hg Hd Hseg Hi Hl Hlt. unfold GetValue in Hg.
    rewrite SetValue_snd, Split_app_sep_any, (Split_no_sep seg "." Hd).
    rewrite (set_loop_after_path _ (VMap data) (VMap m) [seg] v (GetValue_Split_ne p)
              ltac:(intro Hn; discriminate Hn) Hg).
    cbn [set_loop]. rewrite Hseg.
    destruct (Z.leb_spec 0 i); [|lia]. rewrite Hl.
    apply Nat.ltb_lt in Hlt. rewrite Hlt. reflexivity.
  - repeat split; vm_compute; reflexivity.
Qed.

Lemma SetValue_then_GetValue_witness :
  ((string_maps_only (VMap [("a", VInt 1)]) = true /\ ContainsChar "b.c" "[" = false
    /\ snd (SetValue [("a", VInt 1)] "b.c" (VInt 7)) = None)
   /\ GetValue (fst (SetValue [("a", VInt 1)] "b.c" (VInt 7))) "b.c" = Ok (VInt 7))
  /\ snd (SetValue [("a", VMap [("b", VInt 1)])] ("a.b" ++ String "." "c.d") (VInt 7))
     = Some EConflict.
Proof.
  assert (H : string_maps_only (VMap [("a", VInt 1)]) = true /\ ContainsChar "b.c" "[" = false
              /\ snd (SetValue [("a", VInt 1)] "b.c" (VInt 7)) = None)
    by (repeat split; vm_compute; reflexivity).
  split; [split; [exact H|]|].
  - destruct H as [H1 [H2 H3]].
    exact (proj1 SetValue_then_GetValue [("a", VInt 1)] "b.c" (VInt 7) H1 H2 H3).
  - exact (proj1 (proj2 SetValue_then_GetValue) [("a", VMap [("b", VInt 1)])] "a.b" "c.d" (VInt 1)
             (VInt 7) ltac:(vm_compute; reflexivity) ltac:(intros m0 Hm0; discriminate Hm0)
             ltac:(intros m0 Hm0; discriminate Hm0)
             ltac:(vm_compute; discriminate)).
Defined.

(* ================================================================== *)
(** * Facts about debouncing and batching *)

Lemma handleFileChange_drop : forall matching now st l,
  lastEvent st = Some l -> now - l < debounce -> handleFileChange matching now st = st.
Proof.
  intros matching now st l Hl Hlt. unfold handleFileChange. rewrite Hl.
  apply Nat.ltb_lt in Hlt. rewrite Hlt. reflexivity.
Qed.

(** During a burst that started at [t0]: either the timer set by the first
    event is still pending, or it has fired once at [t0 + batchDelay]. *)
Definition burst_inv (t0 : nat) (F : list nat) (st : WatchState) : Prop :=
  lastEvent st = Some t0 /\
  ((pending st = Some (t0 + batchDelay) /\ flushed st = F)
   \/ (pending st = None /\ flushed st = (F ++ [t0 + batchDelay])%list)).

Lemma burst_step : forall t0 F st t,
  burst_inv t0 F st -> t0 <= t < t0 + debounce ->
  burst_inv t0 F (handleFileChange true t (fire_until t st)).
Proof.
  intros t0 F st t [Hl Hp] Ht.
  assert (Hf : burst_inv t0 F (fire_until t st)).
  { unfold fire_until. destruct Hp as [[Hp Hfl]|[Hp Hfl]]; rewrite Hp.
    - destruct (Nat.leb (t0 + batchDelay) t); split; simpl; auto.
      right. rewrite Hfl. auto.
    - split; auto. }
  destruct Hf as [Hl' Hp'].
  rewrite (handleFileChange_drop true t _ t0 Hl') by lia. split; auto.
Qed.

Lemma burst_run : forall ts t0 F st,
  burst_inv t0 F st -> (forall t, In t ts -> t0 <= t < t0 + debounce) ->
  flushed (run_events true st ts) = (F ++ [t0 + batchDelay])%list.
Proof.
  induction ts as [|t ts IH]; intros t0 F st Hinv Hts; simpl.
  - destruct Hinv as [_ [[Hp Hfl]|[Hp Hfl]]]; unfold fire_until; rewrite Hp.
    + rewrite Nat.leb_refl. simpl. rewrite Hfl. reflexivity.
    + exact Hfl.
  - apply IH.
    + apply burst_step; [exact Hinv|]. apply Hts. left. reflexivity.
    + intros t' Hin. apply Hts. right. exact Hin.
Qed.

(** C4 (corrected): an event for a path whose last recorded event is less
    than the debounce window (500 ms) old is dropped without a trace (it
    neither records its time nor restarts the batch timer).  Hence a burst
    of writes starting at [t0] from a quiet state with nothing pending,
    every write within 500 ms of [t0], yields exactly one flush, at
    [t0 + 200] (the batch delay after the FIRST write): five writes at
    50 ms spacing flush once, at the time of the fifth write. *)
Theorem debounce_burst_single_flush :
  (forall matching now st l,
     lastEvent st = Some l -> now - l < debounce -> handleFileChange matching now st = st)
  /\ (forall st t0 ts,
     pending st = None ->
     (lastEvent st = None \/ exists l, lastEvent st = Some l /\ debounce <= t0 - l) ->
     (forall t, In t ts -> t0 <= t < t0 + debounce) ->
     flushed (run_events true st (t0 :: ts)) = (flushed st ++ [t0 + batchDelay])%list)
  /\ flushed (run_events true (mkWatch None None []) [0; 50; 100; 150; 200]) = [200].
Proof.
  split; [exact handleFileChange_drop|split].
  - intros st t0 ts Hp Hq Hts. simpl.
    apply burst_run; [|exact Hts].
    assert (Hfu : fire_until t0 st = st) by (unfold fire_until; rewrite Hp; reflexivity).
    rewrite Hfu. unfold handleFileChange.
    destruct Hq as [Hn|[l [Hl Hle]]].
    + rewrite Hn. split; simpl; auto.
    + rewrite Hl. destruct (Nat.ltb_spec (t0 - l) debounce); [lia|].
      split; simpl; auto.
  - reflexivity.
Qed.

Lemma debounce_burst_single_flush_witness :
  (lastEvent (mkWatch (Some 0) None []) = Some 0 /\ 300 - 0 < debounce
   /\ handleFileChange true 300 (mkWatch (Some 0) None []) = mkWatch (Some 0) None [])
  /\ flushed (run_events true (mkWatch (Some 0) None []) [1000; 1050; 1100; 1150; 1200])
     = ([] ++ [1000 + batchDelay])%list.
Proof.
  split.
  - split; [reflexivity|]. split; [unfold debounce; lia|].
    apply (proj1 debounce_burst_single_flush true 300 (mkWatch (Some 0) None []) 0);
      [reflexivity|unfold debounce; lia].
  - apply (proj1 (proj2 debounce_burst_single_flush) (mkWatch (Some 0) None []) 1000
             [1050; 1100; 1150; 1200]).
    + reflexivity.
    + right. exists 0. split; [reflexivity|unfold debounce; lia].
    + intros t Hin. simpl in Hin. unfold debounce.
      destruct Hin as [<-|[<-|[<-|[<-|[]]]]]; lia.
Defined.

(** Counterexample to C4: the five writes at [0, 50, 100, 150, 200] are
    flushed once, at [200], not at [400] (200 ms after the fifth write). *)
Lemma debounce_burst_flush_time :
  flushed (run_events true (mkWatch None None []) [0; 50; 100; 150; 200]) = [200]
  /\ flushed (run_events true (mkWatch None None []) [0; 50; 100; 150; 200]) <> [200 + batchDelay].
Proof. split; [reflexivity|discriminate]. Qed.

(* ================================================================== *)
(** * Facts about batch processing *)

Lemma processRuleForBatch_event : forall sd r upd,
  fst (processRuleForBatch sd r upd) = fst (processRuleForBatch sd r []).
Proof. intros sd r upd. unfold processRuleForBatch. destruct (GetValue sd (SourceKey r)); reflexivity. Qed.

Lemma processRuleForBatch_success : forall sd r upd,
  Success (fst (processRuleForBatch sd r upd)) = true <-> exists v, GetValue sd (SourceKey r) = Ok v.
Proof.
  intros sd r upd. unfold processRuleForBatch.
  destruct (GetValue sd (SourceKey r)) as [v|e]; simpl.
  - split; eauto.
  - split; [discriminate|]. intros [v Hv]; discriminate.
Qed.

Lemma collect_rules_spec : forall rules sd upd evs all,
  fst (fst (collect_rules sd rules upd evs all))
    = (evs ++ map (fun r => fst (processRuleForBatch sd r [])) rules)%list
  /\ snd (collect_rules sd rules upd evs all)
    = all && forallb (fun r => Success (fst (processRuleForBatch sd r []))) rules.
Proof.
  induction rules as [|r rs IH]; intros sd upd evs all; simpl.
  - rewrite app_nil_r, andb_true_r. split; reflexivity.
  - destruct (processRuleForBatch sd r upd) as [ev upd'] eqn:Hp.
    assert (Hev : ev = fst (processRuleForBatch sd r [])).
    { rewrite <- (processRuleForBatch_event sd r upd), Hp. reflexivity. }
    destruct (IH sd upd' (evs ++ [ev])%list (all && Success ev)) as [H1 H2].
    rewrite H1, H2, Hev, <- app_assoc. split; [reflexivity|].
    rewrite andb_assoc. reflexivity.
Qed.

(** C1 (code place, processTargetGroup): within one target group every
    rule is evaluated and reported on its own (its event succeeds exactly
    when its source key resolves), but a single rule whose source key does
    not resolve cancels the write of the whole target: the target content
    is left unchanged while the events of the other rules still report
    success, for updates that were never written.  A target key that names
    no line does not fail its rule: with three rules of which one targets
    a missing key of a YAML file, the three events succeed and the two
    matched lines are rewritten. *)
Theorem batch_rule_failure_cancels_write :
  (forall update sourceData content rules,
     (exists r e, In r rules /\ GetValue sourceData (SourceKey r) = Err e) ->
     processTargetGroup update sourceData content rules
       = (map (fun r => fst (processRuleForBatch sourceData r [])) rules, content))
  /\ (forall sourceData r updates,
     Success (fst (processRuleForBatch sourceData r updates)) = true
     <-> exists v, GetValue sourceData (SourceKey r) = Ok v)
  /\ map Success (fst (processTargetGroup updateYAMLValues batch_source batch_target
                         batch_rules_bad_source)) = [true; true; false]
  /\ snd (processTargetGroup updateYAMLValues batch_source batch_target batch_rules_bad_source)
       = batch_target
  /\ map Success (fst (processTargetGroup updateYAMLValues batch_source batch_target
                         batch_rules_bad_target)) = [true; true; true]
  /\ snd (processTargetGroup updateYAMLValues batch_source batch_target batch_rules_bad_target)
       = "host: prod" ++ nl ++ "port: 2" ++ nl ++ "user: a".
Proof.
  split; [|split; [exact processRuleForBatch_success|]].
  - intros update sd content rules [r [e [Hin He]]].
    unfold processTargetGroup.
    pose proof (collect_rules_spec rules sd [] [] true) as [H1 H2].
    destruct (collect_rules sd rules [] [] true) as [[evs upd] all].
    simpl in H1, H2. subst evs all.
    assert (Hf : forallb (fun r => Success (fst (processRuleForBatch sd r []))) rules = false).
    { destruct (forallb _ rules) eqn:Hf; [|reflexivity].
      rewrite forallb_forall in Hf. specialize (Hf r Hin).
      apply processRuleForBatch_success in Hf as [v Hv]. congruence. }
    rewrite Hf. reflexivity.
  - repeat split; vm_compute; reflexivity.
Qed.

Lemma batch_rule_failure_cancels_write_witness :
  (exists r e, In r batch_rules_bad_source /\ GetValue batch_source (SourceKey r) = Err e)
  /\ processTargetGroup updateYAMLValues batch_source batch_target batch_rules_bad_source
     = (map (fun r => fst (processRuleForBatch batch_source r [])) batch_rules_bad_source,
        batch_target).
Proof.
  assert (H : exists r e, In r batch_rules_bad_source /\ GetValue batch_source (SourceKey r) = Err e).
  { exists (mkRule "r3" "s.yaml" "zz" "d.yaml" "user" true), EKeyNotFound.
    split; [right; right; left; reflexivity|vm_compute; reflexivity]. }
  split; [exact H|].
  exact (proj1 batch_rule_failure_cancels_write updateYAMLValues batch_source batch_target
           batch_rules_bad_source H).
Defined.

(** C1, failing input: with one unresolved source key the batch yields
    two successes and one failure but the target is not rewritten; with
    one unresolved target key the batch yields three successes. *)
Lemma batch_three_rules_outcomes :
  snd (processTargetGroup updateYAMLValues batch_source batch_target batch_rules_bad_source)
    = batch_target
  /\ batch_target <> "host: prod" ++ nl ++ "port: 2" ++ nl ++ "user: a"
  /\ map Success (fst (processTargetGroup updateYAMLValues batch_source batch_target
                         batch_rules_bad_target)) = [true; true; true].
Proof. repeat split; vm_compute; try reflexivity. discriminate. Qed.

(* ================================================================== *)
(** * Facts about the rewriters' update loop *)

Section UpdateLoop.
Variable find : string -> option nat.
Variable key_at : nat -> string.
Variable keySuffix : string.
Variable format : value -> string.

Lemma update_loop_zero : forall us lines updated cnt,
  (cnt = 0 -> updated = []) ->
  snd (update_loop find key_at keySuffix format lines updated cnt us) = 0 ->
  cnt = 0 /\ forall kp v, In (kp, v) us -> find kp = None.
Proof.
  induction us as [|[kp v] us IH]; intros lines updated cnt Hinv H; simpl in H.
  - split; [exact H|]. intros _ _ [].
  - destruct (find kp) as [n|] eqn:Hf.
    + destruct (existsb (Nat.eqb n) updated) eqn:He.
      * destruct (IH _ _ _ Hinv H) as [Hc _].
        rewrite (Hinv Hc) in He. discriminate.
      * destruct (IH _ (n :: updated) (S cnt) ltac:(intros Hs; discriminate Hs) H) as [Hc _]. discriminate.
    + destruct (IH _ _ _ Hinv H) as [Hc Hus]. split; [exact Hc|].
      intros kp' v' [Heq|Hin]; [injection Heq as <- _; exact Hf|exact (Hus kp' v' Hin)].
Qed.

Lemma update_loop_none : forall us lines updated cnt,
  (forall kp v, In (kp, v) us -> find kp = None) ->
  update_loop find key_at keySuffix format lines updated cnt us = (lines, cnt).
Proof.
  induction us as [|[kp v] us IH]; intros lines updated cnt H; simpl; [reflexivity|].
  rewrite (H kp v (or_introl eq_refl)).
  apply IH. intros kp' v' Hin. exact (H kp' v' (or_intror Hin)).
Qed.

Lemma update_content_spec : forall lines updates,
  (update_content find key_at keySuffix format lines updates = Err ENoKeyPaths
   <-> forall kp v, In (kp, v) updates -> find kp = None)
  /\ (update_content find key_at keySuffix format lines updates = Err ENoKeyPaths
      \/ exists s, update_content find key_at keySuffix format lines updates = Ok s).
Proof.
  intros lines updates. unfold update_content.
  pose proof (update_loop_zero updates lines [] 0 (fun _ => eq_refl)) as Hz.
  pose proof (update_loop_none updates lines [] 0) as Hn.
  destruct (update_loop find key_at keySuffix format lines [] 0 updates) as [lines' cnt] eqn:Hl.
  simpl in Hz. split.
  - destruct (Nat.eqb_spec cnt 0) as [->|Hc].
    + split; [intros _; exact (proj2 (Hz eq_refl))|reflexivity].
    + split; [discriminate|]. intros H. specialize (Hn H). congruence.
  - destruct (Nat.eqb cnt 0); [left; reflexivity|right; eexists; reflexivity].
Qed.

End UpdateLoop.

Lemma findYAMLLineForKeyPath_ok : yaml_finder_ok findYAMLLineForKeyPath.
Proof.
  intros contexts keyPath. induction contexts as [|[n c] cs IH]; simpl.
  - intros n c [].
  - destruct (String.eqb_spec (y_fullPath c) keyPath) as [Heq|Hne].
    + exists c. split; [left; reflexivity|exact Heq].
    + destruct (findYAMLLineForKeyPath cs keyPath) as [m|].
      * destruct IH as [c' [Hin Hp]]. exists c'. split; [right; exact Hin|exact Hp].
      * intros m c' [Heq|Hin]; [injection Heq as <- <-; exact Hne|exact (IH m c' Hin)].
Qed.

Lemma findTOMLLineForKeyPath_ok : toml_finder_ok findTOMLLineForKeyPath.
Proof.
  intros contexts keyPath. induction contexts as [|[n c] cs IH]; simpl.
  - intros n c [].
  - destruct (String.eqb_spec (t_fullPath c) (normalizeTOMLKeyPath keyPath)) as [Heq|Hne].
    + exists c. split; [left; reflexivity|exact Heq].
    + destruct (findTOMLLineForKeyPath cs keyPath) as [m|].
      * destruct IH as [c' [Hin Hp]]. exists c'. split; [right; exact Hin|exact Hp].
      * intros m c' [Heq|Hin]; [injection Heq as <- <-; exact Hne|exact (IH m c' Hin)].
Qed.

(** C3 (corrected): for any line lookup the map iteration may produce,
    the YAML and TOML rewriters fail (with "no key paths found", leaving
    the file as it is) exactly when NO requested path matches a line
    context; as soon as one path matches they succeed and write the
    matched lines back, silently skipping the unmatched paths. *)
Theorem rewrite_fails_only_if_nothing_matches :
  (forall find, yaml_finder_ok find -> forall content updates,
     (updateYAMLValues_with find content updates = Err ENoKeyPaths
      <-> forall kp v n c, In (kp, v) updates ->
          In (n, c) (parseYAMLStructure (Split content "010"%char)) -> y_fullPath c <> kp)
     /\ (updateYAMLValues_with find content updates = Err ENoKeyPaths
         \/ exists s, updateYAMLValues_with find content updates = Ok s))
  /\ (forall find, toml_finder_ok find -> forall content updates,
     (updateTOMLValues_with find content updates = Err ENoKeyPaths
      <-> forall kp v n c, In (kp, v) updates ->
          In (n, c) (parseTOMLStructure (Split content "010"%char))
          -> t_fullPath c <> normalizeTOMLKeyPath kp)
     /\ (updateTOMLValues_with find content updates = Err ENoKeyPaths
         \/ exists s, updateTOMLValues_with find content updates = Ok s))
  /\ updateYAMLValues ("host: old" ++ nl ++ "port: 1") [("host", VString "prod"); ("nope", VInt 1)]
     = Ok ("host: prod" ++ nl ++ "port: 1").
Proof.
  split; [|split].
  - intros find Hok content updates. unfold updateYAMLValues_with.
    set (contexts := parseYAMLStructure (Split content "010"%char)).
    destruct (update_content_spec (find contexts) (yaml_key_at contexts) ":" formatYAMLValue
                (Split content "010"%char) updates) as [H1 H2].
    split; [|exact H2]. rewrite H1. split.
    + intros H kp v n c Hin Hc Heq. specialize (H kp v Hin). specialize (Hok contexts kp).
      rewrite H in Hok. exact (Hok n c Hc Heq).
    + intros H kp v Hin. specialize (Hok contexts kp).
      destruct (find contexts kp) as [n|]; [|reflexivity].
      destruct Hok as [c [Hc Heq]]. exfalso. exact (H kp v n c Hin Hc Heq).
  - intros find Hok content updates. unfold updateTOMLValues_with.
    set (contexts := parseTOMLStructure (Split content "010"%char)).
    destruct (update_content_spec (find contexts) (toml_key_at contexts) " =" formatTOMLValue
                (Split content "010"%char) updates) as [H1 H2].
    split; [|exact H2]. rewrite H1. split.
    + intros H kp v n c Hin Hc Heq. specialize (H kp v Hin). specialize (Hok contexts kp).
      rewrite H in Hok. exact (Hok n c Hc Heq).
    + intros H kp v Hin. specialize (Hok contexts kp).
      destruct (find contexts kp) as [n|]; [|reflexivity].
      destruct Hok as [c [Hc Heq]]. exfalso. exact (H kp v n c Hin Hc Heq).
  - vm_compute. reflexivity.
Qed.

Lemma rewrite_fails_only_if_nothing_matches_witness :
  yaml_finder_ok findYAMLLineForKeyPath /\ toml_finder_ok findTOMLLineForKeyPath
  /\ updateYAMLValues ("a: 1") [("b", VInt 2)] = Err ENoKeyPaths.
Proof.
  split; [exact findYAMLLineForKeyPath_ok|split; [exact findTOMLLineForKeyPath_ok|]].
  apply (proj1 (proj1 rewrite_fails_only_if_nothing_matches findYAMLLineForKeyPath
                  findYAMLLineForKeyPath_ok "a: 1" [("b", VInt 2)])).
  intros kp v n c Hin Hc. simpl in Hin. destruct Hin as [Heq|[]]. injection Heq as <- _.
  vm_compute in Hc. destruct Hc as [Hc|[]]. injection Hc as _ <-. vm_compute. discriminate.
Defined.

(** Counterexample to C3: of two requested paths only [host] matches a
    line; the call succeeds and writes the partial update. *)
Lemma rewrite_partial_write :
  updateYAMLValues ("host: old" ++ nl ++ "port: 1") [("host", VString "prod"); ("nope", VInt 1)]
  = Ok ("host: prod" ++ nl ++ "port: 1").
Proof. vm_compute. reflexivity. Qed.

(* ================================================================== *)
(** * Facts about the surgical line rewrite *)

Lemma sapp_assoc : forall a b c : string, (a ++ b) ++ c = a ++ b ++ c.
Proof. induction a as [|x a IH]; intros b c; simpl; [reflexivity|rewrite IH; reflexivity]. Qed.

Lemma sapp_length : forall a b : string, String.length (a ++ b) = String.length a + String.length b.
Proof. induction a as [|x a IH]; intros b; simpl; [reflexivity|rewrite IH; reflexivity]. Qed.

Lemma substring_app_r : forall a b n m,
  substring (String.length a + n) m (a ++ b) = substring n m b.
Proof. induction a as [|x a IH]; intros b n m; simpl; [reflexivity|apply IH]. Qed.

Lemma substring_0_app : forall a b, substring 0 (String.length a) (a ++ b) = a.
Proof. induction a as [|x a IH]; intros b; simpl; [destruct b; reflexivity|rewrite IH; reflexivity]. Qed.

Lemma sapp_nil_r : forall a : string, a ++ EmptyString = a.
Proof. induction a as [|x a IH]; simpl; [reflexivity|rewrite IH; reflexivity]. Qed.

Lemma substring_0_full : forall b, substring 0 (String.length b) b = b.
Proof. intros b. pose proof (substring_0_app b EmptyString) as H. rewrite sapp_nil_r in H. exact H. Qed.

Lemma suffix_n_app : forall a b, suffix_n (a ++ b) (String.length a) = b.
Proof.
  intros a b. unfold suffix_n. rewrite sapp_length.
  replace (String.length a + String.length b - String.length a)
    with (String.length b) by lia.
  pose proof (substring_app_r a b 0 (String.length b)) as H.
  rewrite Nat.add_0_r in H. rewrite H. apply substring_0_full.
Qed.

Lemma prefix_n_app : forall a b, prefix_n (a ++ b) (String.length a) = a.
Proof. intros a b. apply substring_0_app. Qed.

Lemma byte_at_app_r : forall a b i, byte_at (a ++ b) (String.length a + i) = byte_at b i.
Proof. induction a as [|x a IH]; intros b i; [reflexivity|apply IH]. Qed.

Lemma byte_at_app_l : forall a b i, i < String.length a -> byte_at (a ++ b) i = byte_at a i.
Proof.
  induction a as [|x a IH]; intros b i Hi; simpl in Hi; [lia|].
  destruct i as [|i]; [reflexivity|]. unfold byte_at. simpl. apply IH. lia.
Qed.

Lemma all_blank_byte : forall s i, all_blank s = true -> i < String.length s -> is_blank (byte_at s i) = true.
Proof.
  induction s as [|x s IH]; intros i H Hi; simpl in *; [lia|].
  apply andb_true_iff in H as [Hx Hs]. destruct i as [|i]; [exact Hx|].
  unfold byte_at. simpl. apply IH; [exact Hs|lia].
Qed.

Lemma all_blank_no : forall s c, all_blank s = true -> is_blank c = false -> ContainsChar s c = false.
Proof.
  induction s as [|x s IH]; intros c H Hc; simpl in *; [reflexivity|].
  apply andb_true_iff in H as [Hx Hs]. rewrite (IH c Hs Hc), orb_false_r.
  destruct (Ascii.eqb_spec c x) as [->|]; [congruence|reflexivity].
Qed.

Lemma lead_blanks_app : forall a b, all_blank a = true -> lead_blanks (a ++ b) = String.length a + lead_blanks b.
Proof.
  induction a as [|x a IH]; intros b H; simpl in *; [reflexivity|].
  apply andb_true_iff in H as [Hx Ha]. rewrite Hx, (IH b Ha). reflexivity.
Qed.

Lemma lead_blanks_stop : forall b, b <> EmptyString -> is_blank (byte_at b 0) = false -> lead_blanks b = 0.
Proof. intros [|x b] Hne H; [congruence|]. simpl. unfold byte_at in H. simpl in H. rewrite H. reflexivity. Qed.

Lemma scan_value_plain : forall val r k,
  ContainsChar val dq = false -> ContainsChar val "#" = false -> ContainsChar val "010"%char = false ->
  (forall a p, scan_value r a p false = k) ->
  forall a p, scan_value (val ++ r) a p false = String.length val + k.
Proof.
  induction val as [|x val IH]; intros r k Hq Hh Hn Hr a p;
    cbn [ContainsChar String.length append scan_value] in *; [apply Hr|].
  apply orb_false_iff in Hq as [Hqx Hq]. apply orb_false_iff in Hh as [Hhx Hh].
  apply orb_false_iff in Hn as [Hnx Hn].
  rewrite Ascii.eqb_sym in Hqx, Hhx, Hnx. rewrite Hqx, Hhx, Hnx. cbn [andb negb orb].
  rewrite (IH r k Hq Hh Hn Hr). reflexivity.
Qed.

Lemma scan_value_comment : forall r a p,
  (r = EmptyString \/ exists c, r = String "#" c) -> scan_value r a p false = 0.
Proof. intros r a p [->|[c ->]]; reflexivity. Qed.

Lemma trim_back_blanks : forall n fuel line X,
  (forall i, i < n -> is_blank (byte_at line (X + i)) = true) ->
  1 <= X -> is_blank (byte_at line (X - 1)) = false -> n < fuel ->
  trim_back line fuel (X + n) = X.
Proof.
  induction n as [|n IH]; intros fuel line X Hb HX Hl Hf; (destruct fuel as [|fuel]; [lia|]); simpl.
  - rewrite Nat.add_0_r, Hl. reflexivity.
  - replace (X + S n - 1) with (X + n) by lia.
    rewrite (Hb n ltac:(lia)).
    apply IH; [intros i Hi; apply Hb; lia|exact HX|exact Hl|lia].
Qed.

(** The rewrite of one line: text before the value, the new value, text
    after it. *)
Lemma rewrite_line_shape : forall pre pat bl val bl2 r valueStr,
  Index (pre ++ pat ++ bl ++ val ++ bl2 ++ r) pat = Some (String.length pre) ->
  all_blank bl = true -> all_blank bl2 = true ->
  val <> EmptyString -> is_blank (byte_at val 0) = false ->
  is_blank (byte_at val (String.length val - 1)) = false ->
  ContainsChar val dq = false -> ContainsChar val "#" = false -> ContainsChar val "010"%char = false ->
  (r = EmptyString \/ exists c, r = String "#" c) ->
  rewrite_line (pre ++ pat ++ bl ++ val ++ bl2 ++ r) pat valueStr
  = pre ++ pat ++ bl ++ valueStr ++ bl2 ++ r.
Proof.
  intros pre pat bl val bl2 r valueStr HI Hbl Hbl2 Hv Hv0 Hvl Hq Hh Hn Hr.
  unfold rewrite_line, value_span. rewrite HI.
  set (line := pre ++ pat ++ bl ++ val ++ bl2 ++ r).
  assert (Hlv : 1 <= String.length val) by (destruct val; [congruence|simpl; lia]).
  (* the text after the key pattern *)
  assert (H1 : suffix_n line (String.length pre + String.length pat) = bl ++ val ++ bl2 ++ r).
  { unfold line. rewrite <- (sapp_assoc pre pat), <- sapp_length. apply suffix_n_app. }
  rewrite H1, (lead_blanks_app bl _ Hbl), (lead_blanks_stop (val ++ bl2 ++ r)).
  2: { destruct val; [congruence|discriminate]. }
  2: { replace 0 with (0 + 0) by reflexivity.
       rewrite byte_at_app_l by lia. exact Hv0. }
  set (vs := String.length pre + String.length pat + (String.length bl + 0)).
  assert (Hvs : vs = String.length (pre ++ pat ++ bl)) by (unfold vs; rewrite !sapp_length; lia).
  assert (Hline : line = (pre ++ pat ++ bl) ++ val ++ bl2 ++ r)
    by (unfold line; rewrite !sapp_assoc; reflexivity).
  assert (H2 : suffix_n line vs = val ++ bl2 ++ r) by (rewrite Hline, Hvs; apply suffix_n_app).
  rewrite H2.
  assert (Hbl2q : ContainsChar bl2 dq = false) by (apply all_blank_no; [exact Hbl2|reflexivity]).
  assert (Hbl2h : ContainsChar bl2 "#" = false) by (apply all_blank_no; [exact Hbl2|reflexivity]).
  assert (Hbl2n : ContainsChar bl2 "010"%char = false) by (apply all_blank_no; [exact Hbl2|reflexivity]).
  rewrite (scan_value_plain val (bl2 ++ r) (String.length bl2) Hq Hh Hn).
  2: { intros a p. rewrite (scan_value_plain bl2 r 0 Hbl2q Hbl2h Hbl2n); [lia|].
       intros a' p'. apply scan_value_comment. exact Hr. }
  replace (vs + (String.length val + String.length bl2) - vs)
    with (String.length val + String.length bl2) by lia.
  replace (vs + (String.length val + String.length bl2))
    with ((vs + String.length val) + String.length bl2) by lia.
  rewrite (trim_back_blanks (String.length bl2) _ line (vs + String.length val)).
  - assert (Hline2 : line = ((pre ++ pat ++ bl) ++ val) ++ bl2 ++ r)
      by (unfold line; rewrite !sapp_assoc; reflexivity).
    assert (Hve : vs + String.length val = String.length ((pre ++ pat ++ bl) ++ val))
      by (rewrite sapp_length, <- Hvs; reflexivity).
    rewrite Hve. rewrite Hline2 at 2. rewrite suffix_n_app.
    rewrite Hvs. rewrite Hline. rewrite prefix_n_app. rewrite !sapp_assoc. reflexivity.
  - intros i Hi.
    replace (vs + String.length val + i) with (String.length ((pre ++ pat ++ bl) ++ val) + i)
      by (rewrite sapp_length; lia).
    assert (Hline2 : line = ((pre ++ pat ++ bl) ++ val) ++ bl2 ++ r)
      by (unfold line; rewrite !sapp_assoc; reflexivity).
    rewrite Hline2, byte_at_app_r, byte_at_app_l by exact Hi.
    apply all_blank_byte; assumption.
  - lia.
  - replace (vs + String.length val - 1) with (vs + (String.length val - 1)) by lia.
    rewrite Hline, Hvs, byte_at_app_r, byte_at_app_l by lia. exact Hvl.
  - lia.
Qed.

Lemma scan_value_in_quotes : forall s prev rest,
  escaped_ok prev s = true ->
  scan_value (s ++ String dq rest) false prev true
  = String.length s + S (scan_value rest false dq false).
Proof.
  induction s as [|c s IH]; intros prev rest H; cbn [escaped_ok] in H.
  - cbn [append String.length scan_value]. rewrite Ascii.eqb_refl.
    destruct (Ascii.eqb prev "\"); [discriminate H|reflexivity].
  - apply andb_true_iff in H as [Hc Hs].
    cbn [append String.length scan_value].
    replace (Ascii.eqb c dq && (false || negb (Ascii.eqb prev "\"))) with false
      by (destruct (Ascii.eqb c dq), (Ascii.eqb prev "\"); simpl in *; congruence).
    cbn [negb andb]. rewrite (IH c rest Hs). reflexivity.
Qed.

Lemma scan_value_quoted : forall s bl2 r,
  escaped_ok dq s = true -> all_blank bl2 = true ->
  (r = EmptyString \/ exists c, r = String "#" c) ->
  scan_value (quote s ++ bl2 ++ r) true "000"%char false
  = String.length (quote s) + String.length bl2.
Proof.
  intros s bl2 r Hs Hbl2 Hr. unfold quote. cbn [append].
  rewrite sapp_assoc. cbn [append scan_value]. rewrite Ascii.eqb_refl. cbn [andb orb negb]. rewrite (scan_value_in_quotes s dq _ Hs).
  assert (Hq : ContainsChar bl2 dq = false) by (apply all_blank_no; [exact Hbl2|reflexivity]).
  assert (Hh : ContainsChar bl2 "#" = false) by (apply all_blank_no; [exact Hbl2|reflexivity]).
  assert (Hn : ContainsChar bl2 "010"%char = false) by (apply all_blank_no; [exact Hbl2|reflexivity]).
  rewrite (scan_value_plain bl2 r 0 Hq Hh Hn) by (intros a p; apply scan_value_comment; exact Hr).
  cbn [String.length]. rewrite sapp_length. cbn [String.length]. lia.
Qed.

(** The rewrite of one line, for any value the scan reads up to the
    blanks before the comment. *)
Lemma rewrite_line_shape_scan : forall pre pat bl val bl2 r valueStr,
  Index (pre ++ pat ++ bl ++ val ++ bl2 ++ r) pat = Some (String.length pre) ->
  all_blank bl = true -> all_blank bl2 = true ->
  val <> EmptyString -> is_blank (byte_at val 0) = false ->
  is_blank (byte_at val (String.length val - 1)) = false ->
  scan_value (val ++ bl2 ++ r) true "000"%char false = String.length val + String.length bl2 ->
  rewrite_line (pre ++ pat ++ bl ++ val ++ bl2 ++ r) pat valueStr
  = pre ++ pat ++ bl ++ valueStr ++ bl2 ++ r.
Proof.
  intros pre pat bl val bl2 r valueStr HI Hbl Hbl2 Hv Hv0 Hvl Hscan.
  unfold rewrite_line, value_span. rewrite HI.
  set (line := pre ++ pat ++ bl ++ val ++ bl2 ++ r).
  assert (Hlv : 1 <= String.length val) by (destruct val; [congruence|simpl; lia]).
  assert (H1 : suffix_n line (String.length pre + String.length pat) = bl ++ val ++ bl2 ++ r).
  { unfold line. rewrite <- (sapp_assoc pre pat), <- sapp_length. apply suffix_n_app. }
  rewrite H1, (lead_blanks_app bl _ Hbl), (lead_blanks_stop (val ++ bl2 ++ r)).
  2: { destruct val; [congruence|discriminate]. }
  2: { replace 0 with (0 + 0) by reflexivity.
       rewrite byte_at_app_l by lia. exact Hv0. }
  set (vs := String.length pre + String.length pat + (String.length bl + 0)).
  assert (Hvs : vs = String.length (pre ++ pat ++ bl)) by (unfold vs; rewrite !sapp_length; lia).
  assert (Hline : line = (pre ++ pat ++ bl) ++ val ++ bl2 ++ r)
    by (unfold line; rewrite !sapp_assoc; reflexivity).
  assert (H2 : suffix_n line vs = val ++ bl2 ++ r) by (rewrite Hline, Hvs; apply suffix_n_app).
  rewrite H2, Hscan.
  replace (vs + (String.length val + String.length bl2) - vs)
    with (String.length val + String.length bl2) by lia.
  replace (vs + (String.length val + String.length bl2))
    with ((vs + String.length val) + String.length bl2) by lia.
  rewrite (trim_back_blanks (String.length bl2) _ line (vs + String.length val)).
  - assert (Hline2 : line = ((pre ++ pat ++ bl) ++ val) ++ bl2 ++ r)
      by (unfold line; rewrite !sapp_assoc; reflexivity).
    assert (Hve : vs + String.length val = String.length ((pre ++ pat ++ bl) ++ val))
      by (rewrite sapp_length, <- Hvs; reflexivity).
    rewrite Hve. rewrite Hline2 at 2. rewrite suffix_n_app.
    rewrite Hvs. rewrite Hline. rewrite prefix_n_app. rewrite !sapp_assoc. reflexivity.
  - intros i Hi.
    replace (vs + String.length val + i) with (String.length ((pre ++ pat ++ bl) ++ val) + i)
      by (rewrite sapp_length; lia).
    assert (Hline2 : line = ((pre ++ pat ++ bl) ++ val) ++ bl2 ++ r)
      by (unfold line; rewrite !sapp_assoc; reflexivity).
    rewrite Hline2, byte_at_app_r, byte_at_app_l by exact Hi.
    apply all_blank_byte; assumption.
  - lia.
  - replace (vs + String.length val - 1) with (vs + (String.length val - 1)) by lia.
    rewrite Hline, Hvs, byte_at_app_r, byte_at_app_l by lia. exact Hvl.
  - lia.
Qed.

Lemma byte_at_quote_last : forall s, byte_at (quote s) (String.length (quote s) - 1) = dq.
Proof.
  intros s. unfold quote. cbn [String.length]. rewrite sapp_length. cbn [String.length].
  replace (S (String.length s + 1) - 1) with (S (String.length s + 0)) by lia.
  unfold byte_at. cbn [String.get]. 
  induction s as [|c s IH]; [reflexivity|]. exact IH.
Qed.

(** A plain value, or a double-quoted one, between blanks. *)
Lemma rewrite_line_shape_value : forall pre pat bl val bl2 r valueStr,
  Index (pre ++ pat ++ bl ++ val ++ bl2 ++ r) pat = Some (String.length pre) ->
  all_blank bl = true -> all_blank bl2 = true ->
  (r = EmptyString \/ exists c, r = String "#" c) ->
  ((val <> EmptyString /\ is_blank (byte_at val 0) = false
    /\ is_blank (byte_at val (String.length val - 1)) = false
    /\ ContainsChar val dq = false /\ ContainsChar val "#" = false
    /\ ContainsChar val "010"%char = false)
   \/ exists s, val = quote s /\ escaped_ok dq s = true) ->
  rewrite_line (pre ++ pat ++ bl ++ val ++ bl2 ++ r) pat valueStr
  = pre ++ pat ++ bl ++ valueStr ++ bl2 ++ r.
Proof.
  intros pre pat bl val bl2 r valueStr HI Hbl Hbl2 Hr [[Hv [Hv0 [Hvl [Hq [Hh Hn]]]]]|[s [-> Hs]]].
  - apply rewrite_line_shape_scan; try assumption.
    assert (Hq2 : ContainsChar bl2 dq = false) by (apply all_blank_no; [exact Hbl2|reflexivity]).
    assert (Hh2 : ContainsChar bl2 "#" = false) by (apply all_blank_no; [exact Hbl2|reflexivity]).
    assert (Hn2 : ContainsChar bl2 "010"%char = false) by (apply all_blank_no; [exact Hbl2|reflexivity]).
    rewrite (scan_value_plain val (bl2 ++ r) (String.length bl2) Hq Hh Hn); [reflexivity|].
    intros a p. rewrite (scan_value_plain bl2 r 0 Hq2 Hh2 Hn2); [lia|].
    intros a' p'. apply scan_value_comment. exact Hr.
  - apply rewrite_line_shape_scan; try assumption.
    + discriminate.
    + reflexivity.
    + rewrite byte_at_quote_last. reflexivity.
    + apply scan_value_quoted; assumption.
Qed.

Lemma list_set_length : forall {A} (l : list A) i x, length (list_set l i x) = length l.
Proof. induction l as [|y l IH]; intros [|i] x; simpl; auto. Qed.

Lemma list_set_nth_error_eq : forall {A} (l : list A) i x,
  i < length l -> nth_error (list_set l i x) i = Some x.
Proof. induction l as [|y l IH]; intros [|i] x H; simpl in *; try lia; auto. apply IH. lia. Qed.

Lemma list_set_nth_error_ne : forall {A} (l : list A) i j x,
  i <> j -> nth_error (list_set l j x) i = nth_error l i.
Proof.
  induction l as [|y l IH]; intros i j x H; simpl; [reflexivity|].
  destruct j as [|j], i as [|i]; simpl; try reflexivity; [congruence|]. apply IH. lia.
Qed.

Lemma list_set_oob : forall {A} (l : list A) i x, length l <= i -> list_set l i x = l.
Proof. induction l as [|y l IH]; intros [|i] x H; simpl in *; try lia; auto. rewrite IH; [reflexivity|lia]. Qed.

Lemma existsb_eqb_false : forall n l, existsb (Nat.eqb n) l = false -> ~ In n l.
Proof.
  intros n l H Hin. assert (Hx : existsb (Nat.eqb n) l = true).
  { apply existsb_exists. exists n. split; [exact Hin|apply Nat.eqb_refl]. }
  congruence.
Qed.

Section UpdateLoopLines.
Variable find : string -> option nat.
Variable key_at : nat -> string.
Variable keySuffix : string.
Variable format : value -> string.
Variable U : list (string * value).
Variable lines0 : list string.

(** Line [i] is the original one, or the original rewritten for an update
    whose path was found at line [i]. *)
Let line_ok (lines : list string) (i : nat) : Prop :=
  nth_error lines i = nth_error lines0 i
  \/ exists kp v, In (kp, v) U /\ find kp = Some i
     /\ nth_error lines i
        = option_map (fun l => rewrite_line l (key_at i ++ keySuffix) (format v)) (nth_error lines0 i).

Lemma update_loop_lines : forall us lines updated cnt,
  (forall x, In x us -> In x U) ->
  length lines = length lines0 ->
  (forall i, ~ In i updated -> nth_error lines i = nth_error lines0 i) ->
  (forall i, line_ok lines i) ->
  length (fst (update_loop find key_at keySuffix format lines updated cnt us)) = length lines0
  /\ forall i, line_ok (fst (update_loop find key_at keySuffix format lines updated cnt us)) i.
Proof.
  induction us as [|[kp v] us IH]; intros lines updated cnt HU Hlen Hfresh Hok; simpl.
  - split; assumption.
  - assert (HU' : forall x, In x us -> In x U) by (intros x Hx; apply HU; right; exact Hx).
    destruct (find kp) as [n|] eqn:Hf; [|apply IH; assumption].
    destruct (existsb (Nat.eqb n) updated) eqn:He; [apply IH; assumption|].
    apply existsb_eqb_false in He.
    set (line' := rewrite_line (nth n lines EmptyString) (key_at n ++ keySuffix) (format v)).
    destruct (Nat.lt_ge_cases n (length lines)) as [Hlt|Hge].
    + apply IH; [exact HU'|rewrite list_set_length; exact Hlen| |].
      * intros i Hi. rewrite list_set_nth_error_ne by (intros ->; apply Hi; left; reflexivity).
        apply Hfresh. intros Hin. apply Hi. right. exact Hin.
      * intros i. destruct (Nat.eq_dec i n) as [->|Hne].
        -- right. exists kp, v. split; [apply HU; left; reflexivity|split; [exact Hf|]].
           rewrite list_set_nth_error_eq by exact Hlt.
           rewrite <- (Hfresh n He). rewrite (nth_error_nth' lines EmptyString Hlt). reflexivity.
        -- unfold line_ok. rewrite list_set_nth_error_ne by exact Hne. apply Hok.
    + rewrite (list_set_oob lines n line' Hge).
      apply IH; [exact HU'|exact Hlen| |exact Hok].
      intros i Hi. destruct (Nat.eq_dec i n) as [->|Hne].
      * rewrite (proj2 (nth_error_None lines n) Hge).
        symmetry. apply nth_error_None. lia.
      * apply Hfresh. intros Hin. apply Hi. right. exact Hin.
Qed.

End UpdateLoopLines.

Lemma Split_elems : forall s c w, In w (Split s c) -> ContainsChar w c = false.
Proof.
  induction s as [|x s IH]; intros c w Hin; simpl in Hin.
  - destruct Hin as [<-|[]]. reflexivity.
  - destruct (Ascii.eqb_spec x c) as [->|Hne].
    + destruct Hin as [<-|Hin]; [reflexivity|exact (IH c w Hin)].
    + destruct (Split s c) as [|w' ws] eqn:Hs.
      * destruct Hin as [<-|[]]. simpl. destruct (Ascii.eqb_spec c x); [congruence|reflexivity].
      * destruct Hin as [<-|Hin].
        -- simpl. rewrite (IH c w' ltac:(rewrite Hs; left; reflexivity)).
           destruct (Ascii.eqb_spec c x); [congruence|reflexivity].
        -- exact (IH c w ltac:(rewrite Hs; right; exact Hin)).
Qed.

Lemma Split_Join : forall ls c,
  ls <> [] -> (forall w, In w ls -> ContainsChar w c = false) -> Split (Join ls c) c = ls.
Proof.
  induction ls as [|w ls IH]; intros c Hne H; [congruence|].
  destruct ls as [|w2 ls].
  - simpl. apply Split_no_sep. apply H. left. reflexivity.
  - change (Join (w :: w2 :: ls) c) with (w ++ String c (Join (w2 :: ls) c)).
    rewrite Split_app_sep by (apply H; left; reflexivity).
    rewrite IH; [reflexivity|discriminate|]. intros w' Hin. apply H. right. exact Hin.
Qed.

Lemma ContainsChar_app : forall a b c, ContainsChar (a ++ b) c = ContainsChar a c || ContainsChar b c.
Proof. induction a as [|x a IH]; intros b c; simpl; [reflexivity|rewrite IH, orb_assoc; reflexivity]. Qed.

Lemma substring_contains : forall s n m c,
  ContainsChar (substring n m s) c = true -> ContainsChar s c = true.
Proof.
  induction s as [|x s IH]; intros n m c H.
  - destruct n, m; discriminate.
  - destruct n as [|n]; simpl in H |- *.
    + destruct m as [|m]; [discriminate|]. simpl in H.
      apply orb_true_iff in H as [H|H]; [rewrite H; reflexivity|].
      rewrite (IH 0 m c H). apply orb_true_r.
    + rewrite (IH n m c H). apply orb_true_r.
Qed.

Lemma rewrite_line_no_char : forall line pat valueStr c,
  ContainsChar line c = false -> ContainsChar valueStr c = false ->
  ContainsChar (rewrite_line line pat valueStr) c = false.
Proof.
  intros line pat valueStr c Hl Hv. unfold rewrite_line.
  destruct (value_span line pat) as [[vs ve]|]; [|exact Hl].
  rewrite !ContainsChar_app, Hv.
  destruct (ContainsChar (prefix_n line vs) c) eqn:H1.
  - unfold prefix_n in H1. rewrite (substring_contains _ _ _ _ H1) in Hl. discriminate.
  - destruct (ContainsChar (suffix_n line ve) c) eqn:H2; [|reflexivity].
    unfold suffix_n in H2. rewrite (substring_contains _ _ _ _ H2) in Hl. discriminate.
Qed.

Lemma updateYAMLValues_file_lines : forall find content updates content',
  updateYAMLValues_with find content updates = Ok content' ->
  (forall kp v, In (kp, v) updates -> ContainsChar (formatYAMLValue v) "010"%char = false) ->
  length (Split content' "010"%char) = length (Split content "010"%char)
  /\ forall i,
     nth_error (Split content' "010"%char) i = nth_error (Split content "010"%char) i
     \/ exists kp v, In (kp, v) updates
        /\ find (parseYAMLStructure (Split content "010"%char)) kp = Some i
        /\ nth_error (Split content' "010"%char) i
           = option_map (fun l => rewrite_line l
                           (yaml_key_at (parseYAMLStructure (Split content "010"%char)) i ++ ":")
                           (formatYAMLValue v))
                        (nth_error (Split content "010"%char) i).
Proof.
  intros find content updates content' H Hfmt.
  unfold updateYAMLValues_with, update_content in H.
  set (lines := Split content "010"%char) in *.
  set (contexts := parseYAMLStructure lines) in *.
  pose proof (update_loop_lines (find contexts) (yaml_key_at contexts) ":" formatYAMLValue
                updates lines updates lines [] 0 (fun x h => h) eq_refl
                (fun i _ => eq_refl) (fun i => or_introl eq_refl)) as [Hlen Hok].
  destruct (update_loop (find contexts) (yaml_key_at contexts) ":" formatYAMLValue lines [] 0 updates)
    as [lines' cnt] eqn:Hl.
  cbn [fst] in Hlen, Hok.
  destruct (Nat.eqb cnt 0); [discriminate|]. injection H as <-.
  assert (Hne : lines' <> []).
  { intros ->. simpl in Hlen. pose proof (Split_nonempty content "010"%char) as Hs.
    fold lines in Hs. destruct lines; [congruence|discriminate]. }
  assert (Hnl : forall w, In w lines' -> ContainsChar w "010"%char = false).
  { intros w Hin. apply In_nth_error in Hin as [i Hi].
    destruct (Hok i) as [Heq|[kp [v [Hin [Hf Heq]]]]].
    - rewrite Hi in Heq. symmetry in Heq. apply nth_error_In in Heq.
      exact (Split_elems content _ w Heq).
    - rewrite Hi in Heq. destruct (nth_error lines i) as [l|] eqn:Hli; [|discriminate].
      injection Heq as ->. apply rewrite_line_no_char.
      + apply nth_error_In in Hli. exact (Split_elems content _ l Hli).
      + exact (Hfmt kp v Hin). }
  rewrite (Split_Join lines' _ Hne Hnl). split; [exact Hlen|exact Hok].
Qed.

(** C2 (corrected): on a line [indent key: value   # comment] whose first
    occurrence of [key:] is at the end of the indentation, and whose value
    is either plain (no double quote, ['#'] or line break, no blank at
    either end) or double-quoted (its inner double quotes escaped with a
    backslash, no backslash before the closing quote), the rewrite
    replaces exactly the value and keeps the indentation, the key and
    colon, the blanks after the colon and the blanks and comment after
    the value byte for byte; on the whole file, provided no formatted new
    value contains a line break, the rewrite keeps the number of lines,
    and every line is either the original one or the original with that
    replacement done for an update whose path was found at that line.
    ([  host: old   # keep me] with [prod] becomes
    [  host: prod   # keep me].) *)
Theorem yaml_rewrite_keeps_layout :
  (forall pre pat bl val bl2 r valueStr,
     Index (pre ++ pat ++ bl ++ val ++ bl2 ++ r) pat = Some (String.length pre) ->
     all_blank bl = true -> all_blank bl2 = true ->
     (r = EmptyString \/ exists c, r = String "#" c) ->
     ((val <> EmptyString /\ is_blank (byte_at val 0) = false
       /\ is_blank (byte_at val (String.length val - 1)) = false
       /\ ContainsChar val dq = false /\ ContainsChar val "#" = false
       /\ ContainsChar val "010"%char = false)
      \/ exists s, val = quote s /\ escaped_ok dq s = true) ->
     rewrite_line (pre ++ pat ++ bl ++ val ++ bl2 ++ r) pat valueStr
     = pre ++ pat ++ bl ++ valueStr ++ bl2 ++ r)
  /\ (forall find content updates content',
     updateYAMLValues_with find content updates = Ok content' ->
     (forall kp v, In (kp, v) updates -> ContainsChar (formatYAMLValue v) "010"%char = false) ->
     length (Split content' "010"%char) = length (Split content "010"%char)
     /\ forall i,
        nth_error (Split content' "010"%char) i = nth_error (Split content "010"%char) i
        \/ exists kp v, In (kp, v) updates
           /\ find (parseYAMLStructure (Split content "010"%char)) kp = Some i
           /\ nth_error (Split content' "010"%char) i
              = option_map (fun l => rewrite_line l
                              (yaml_key_at (parseYAMLStructure (Split content "010"%char)) i ++ ":")
                              (formatYAMLValue v))
                           (nth_error (Split content "010"%char) i))
  /\ updateYAMLValues ("# hdr" ++ nl ++ "  host: old   # keep me" ++ nl ++ "  port: 9" ++ nl)
                      [("host", VString "prod")]
     = Ok ("# hdr" ++ nl ++ "  host: prod   # keep me" ++ nl ++ "  port: 9" ++ nl).
Proof.
  split; [exact rewrite_line_shape_value|split; [exact updateYAMLValues_file_lines|]].
  vm_compute. reflexivity.
Qed.

Lemma yaml_rewrite_keeps_layout_witness :
  rewrite_line ("  " ++ "host:" ++ " " ++ "old" ++ "   " ++ "# keep me") "host:" "prod"
  = "  " ++ "host:" ++ " " ++ "prod" ++ "   " ++ "# keep me"
  /\ rewrite_line ("  " ++ "host:" ++ " " ++ quote "old" ++ "   " ++ "# keep me") "host:" "prod"
  = "  " ++ "host:" ++ " " ++ "prod" ++ "   " ++ "# keep me".
Proof.
  split.
  - apply (proj1 yaml_rewrite_keeps_layout); try (vm_compute; reflexivity).
    + right. exists " keep me". reflexivity.
    + left. repeat split; try (vm_compute; reflexivity). discriminate.
  - apply (proj1 yaml_rewrite_keeps_layout); try (vm_compute; reflexivity).
    + right. exists " keep me". reflexivity.
    + right. exists "old". split; reflexivity.
Defined.

(** Counterexample to C2: a string value with a line break is written
    unquoted, so the rewritten file has one line more; a map value is
    written as its [%v] rendering, which carries the line breaks of its
    strings. *)
Lemma yaml_rewrite_newline_value :
  updateYAMLValues ("host: old" ++ nl ++ "port: 1") [("host", VString ("a" ++ nl ++ "b"))]
  = Ok ("host: a" ++ nl ++ "b" ++ nl ++ "port: 1")
  /\ length (Split ("host: a" ++ nl ++ "b" ++ nl ++ "port: 1") "010"%char) = 3
  /\ length (Split ("host: old" ++ nl ++ "port: 1") "010"%char) = 2
  /\ updateYAMLValues ("host: old" ++ nl ++ "port: 1")
                      [("host", VMap [("note", VString ("a" ++ nl ++ "b"))])]
     = Ok ("host: map[note:a" ++ nl ++ "b]" ++ nl ++ "port: 1").
Proof. repeat split; vm_compute; reflexivity. Qed.

(* ================================================================== *)
(** * TOML arrays of tables *)

(** C8 (code place, parseTOMLStructure): the index of a [[[name]]] header
    counts only repeats that directly follow each other in the header
    sequence: another [[[other]]] header or a [[name.sub]] table in
    between resets it to 0.  In [[[a]] k = 1 [[b]] k = 2 [[a]] k = 3]
    the third [k] gets the path [a[0].k], the same as the first, so the
    second element of [a] has no line at [a[1].k] and an update of that
    path finds nothing; consecutive repeats are counted correctly. *)
Theorem toml_table_array_index_resets :
  map (fun p => t_fullPath (snd p))
      (parseTOMLStructure ["[[a]]"; "k = 1"; "[[b]]"; "k = 2"; "[[a]]"; "k = 3"])
    = ["a[0].k"; "b[0].k"; "a[0].k"]
  /\ map (fun p => t_fullPath (snd p))
      (parseTOMLStructure ["[[a]]"; "k = 1"; "[a.sub]"; "x = 1"; "[[a]]"; "k = 2"])
    = ["a[0].k"; "a.sub.x"; "a[0].k"]
  /\ updateTOMLValues ("[[a]]" ++ nl ++ "k = 1" ++ nl ++ "[[b]]" ++ nl ++ "k = 2" ++ nl
                       ++ "[[a]]" ++ nl ++ "k = 3") [("a[1].k", VInt 9)]
    = Err ENoKeyPaths
  /\ updateTOMLValues ("[[a]]" ++ nl ++ "k = 1" ++ nl ++ "[[b]]" ++ nl ++ "k = 2" ++ nl
                       ++ "[[a]]" ++ nl ++ "k = 3") [("a[0].k", VInt 9)]
    = Ok ("[[a]]" ++ nl ++ "k = 9" ++ nl ++ "[[b]]" ++ nl ++ "k = 2" ++ nl
          ++ "[[a]]" ++ nl ++ "k = 3")
  /\ map (fun p => t_fullPath (snd p))
      (parseTOMLStructure ["[[a]]"; "k = 1"; "[[a]]"; "k = 2"])
    = ["a[0].k"; "a[1].k"].
Proof. repeat split; vm_compute; reflexivity. Qed.

(* ================================================================== *)
(** * Facts about indexed segments *)

Lemma SplitN2_app_sep : forall a b c,
  ContainsChar a c = false -> SplitN2 (a ++ String c b) c = Some (a, b).
Proof.
  induction a as [|x a IH]; intros b c H; simpl in *.
  - rewrite Ascii.eqb_refl. reflexivity.
  - apply orb_false_iff in H as [Hx Ha]. rewrite Ascii.eqb_sym in Hx. rewrite Hx, (IH b c Ha).
    reflexivity.
Qed.

Lemma digits_close_digits : forall d,
  d <> EmptyString -> all_digits d = true -> digits_close (d ++ "]") = Some d.
Proof.
  induction d as [|c d IH]; intros Hne Hd; [congruence|].
  simpl in Hd. apply andb_true_iff in Hd as [Hc Hd]. simpl. rewrite Hc.
  destruct d as [|c' d'].
  - reflexivity.
  - rewrite (IH ltac:(discriminate) Hd).
    destruct (String.eqb_spec (String c' d' ++ "]") "]") as [He|]; [|reflexivity].
    destruct d'; discriminate.
Qed.

Lemma string_of_uint_digits : forall u, all_digits (NilEmpty.string_of_uint u) = true.
Proof. induction u; simpl; try rewrite IHu; reflexivity. Qed.

Lemma itoa_digits : forall i, itoa i <> EmptyString /\ all_digits (itoa i) = true.
Proof.
  intros i. unfold itoa. destruct (N.to_uint (Z.to_N i)) as [|u|u|u|u|u|u|u|u|u|u];
    split; try discriminate; try reflexivity;
    unfold NilZero.string_of_uint; apply string_of_uint_digits.
Qed.

Lemma itoa_no_char : forall i c, is_digit c = false -> ContainsChar (itoa i) c = false.
Proof.
  intros i c Hc. destruct (itoa_digits i) as [_ Hd]. revert Hd.
  generalize (itoa i). induction s as [|x s IH]; intros Hd; simpl in *; [reflexivity|].
  apply andb_true_iff in Hd as [Hx Hs]. rewrite (IH Hs), orb_false_r.
  destruct (Ascii.eqb_spec c x) as [->|]; [congruence|reflexivity].
Qed.

Lemma Atoi_itoa : forall i, (0 <= i <= 2 ^ 63 - 1)%Z -> Atoi (itoa i) = Some i.
Proof.
  intros i Hi. unfold Atoi, itoa.
  assert (Hof : N.of_uint (N.to_uint (Z.to_N i)) = Z.to_N i) by apply DecimalN.Unsigned.of_to.
  destruct (N.to_uint (Z.to_N i)) as [|u|u|u|u|u|u|u|u|u|u] eqn:Hu;
    unfold NilZero.string_of_uint;
    try (rewrite NilEmpty.usu; rewrite Hof, Z2N.id by lia;
         destruct (Z.leb_spec i (2 ^ 63 - 1)); [reflexivity|lia]).
  simpl. simpl in Hof. replace i with 0%Z by lia. reflexivity.
Qed.

(** The segment [name[i]] as [GetAllKeys] and [normalizeTOMLKeyPath]
    write it. *)
Lemma parseKeySegment_index : forall name i,
  name <> EmptyString -> ContainsChar name "[" = false -> (0 <= i <= 2 ^ 63 - 1)%Z ->
  parseKeySegment (name ++ "[" ++ itoa i ++ "]") = Some (name, i).
Proof.
  intros name i Hn Hc Hi. unfold parseKeySegment, index_regex.
  change ("[" ++ itoa i ++ "]") with (String "[" (itoa i ++ "]")).
  rewrite (SplitN2_app_sep _ _ _ Hc).
  destruct (itoa_digits i) as [Hne Hd].
  destruct name as [|x name']; [congruence|].
  rewrite (digits_close_digits _ Hne Hd). cbn [option_map].
  rewrite (Atoi_itoa i Hi). destruct (Z.ltb_spec i 0); [lia|reflexivity].
Qed.

Lemma index_path_segment : forall name i,
  index_path name i = name ++ "[" ++ itoa i ++ "]".
Proof. reflexivity. Qed.

(** X1: rendering a key segment and parsing it back gives the name and
    the index. *)
Theorem parseKeySegment_render :
  forall name i,
  name <> EmptyString -> ContainsChar name "[" = false -> (0 <= i <= 2 ^ 63 - 1)%Z ->
  parseKeySegment (name ++ "[" ++ itoa i ++ "]") = Some (name, i)
  /\ normalize_part (name ++ "[" ++ itoa i ++ "]") = name ++ "[" ++ itoa i ++ "]".
Proof.
  intros name i Hn Hc Hi. pose proof (parseKeySegment_index name i Hn Hc Hi) as H.
  split; [exact H|]. unfold normalize_part. rewrite H.
  rewrite ContainsChar_app. cbn [ContainsChar append]. rewrite Ascii.eqb_refl, orb_true_r.
  destruct (Z.leb_spec 0 i); [reflexivity|lia].
Qed.

Lemma SplitN2_fst_no : forall s c a b, SplitN2 s c = Some (a, b) -> ContainsChar a c = false.
Proof.
  induction s as [|x s IH]; intros c a b H; simpl in H; [discriminate|].
  destruct (Ascii.eqb_spec x c) as [->|Hne].
  - injection H as <- <-. reflexivity.
  - destruct (SplitN2 s c) as [[a' b']|] eqn:Hs; [|discriminate].
    injection H as <- <-. simpl. rewrite (IH c a' b' Hs).
    destruct (Ascii.eqb_spec c x) as [->|]; [congruence|reflexivity].
Qed.

Lemma parseKeySegment_indexed : forall seg key i,
  parseKeySegment seg = Some (key, i) -> (0 <= i)%Z ->
  key <> EmptyString /\ ContainsChar key "[" = false /\ (i <= 2 ^ 63 - 1)%Z
  /\ exists d, seg = key ++ String "[" (d ++ "]").
Proof.
  intros seg key i H Hi. unfold parseKeySegment in H.
  destruct (index_regex seg) as [[name d]|] eqn:Hr.
  - destruct (Atoi d) as [n|] eqn:Ha; [|discriminate].
    destruct (Z.ltb n 0); [discriminate|]. injection H as <- <-.
    destruct (index_regex_app _ _ _ Hr) as [Hseg [Hn _]].
    split; [exact Hn|]. split.
    + unfold index_regex in Hr. destruct (SplitN2 seg "[") as [[a b]|] eqn:Hs; [|discriminate].
      destruct a as [|x a']; [discriminate|].
      destruct (digits_close b); [|discriminate]. simpl in Hr. injection Hr as <- _.
      exact (SplitN2_fst_no _ _ _ _ Hs).
    + split; [|exists d; exact Hseg].
      unfold Atoi in Ha. destruct (NilEmpty.uint_of_string d); [|discriminate].
      destruct (Z.leb_spec (Z.of_N (N.of_uint u)) (2 ^ 63 - 1)); [|discriminate].
      injection Ha as <-. lia.
  - destruct (ContainsChar seg "["); [discriminate|]. injection H as _ <-. lia.
Qed.

Lemma normalize_part_idem : forall part,
  normalize_part (normalize_part part) = normalize_part part.
Proof.
  intros part.
  assert (Hfix : normalize_part part = part -> normalize_part (normalize_part part) = normalize_part part)
    by (intros H; rewrite H; exact H).
  destruct (ContainsChar part "[") eqn:Hc.
  2: { apply Hfix. unfold normalize_part. rewrite Hc. reflexivity. }
  destruct (parseKeySegment part) as [[key i]|] eqn:Hp.
  2: { apply Hfix. unfold normalize_part. rewrite Hc, Hp. reflexivity. }
  destruct (Z.leb_spec 0 i) as [Hi|Hi].
  2: { apply Hfix. unfold normalize_part. rewrite Hc, Hp. destruct (Z.leb_spec 0 i); [lia|reflexivity]. }
  assert (Hnp : normalize_part part = key ++ "[" ++ itoa i ++ "]").
  { unfold normalize_part. rewrite Hc, Hp. destruct (Z.leb_spec 0 i); [reflexivity|lia]. }
  destruct (parseKeySegment_indexed _ _ _ Hp Hi) as [Hn [Hk [Hmax _]]].
  rewrite Hnp. exact (proj2 (parseKeySegment_render key i Hn Hk ltac:(lia))).
Qed.

Lemma normalize_part_no_dot : forall part,
  ContainsChar part "." = false -> ContainsChar (normalize_part part) "." = false.
Proof.
  intros part H. unfold normalize_part.
  destruct (ContainsChar part "["); [|exact H].
  destruct (parseKeySegment part) as [[key i]|] eqn:Hp; [|exact H].
  destruct (Z.leb_spec 0 i) as [Hi|]; [|exact H].
  destruct (parseKeySegment_indexed _ _ _ Hp Hi) as [_ [_ [_ [d Hd]]]].
  rewrite Hd, ContainsChar_app in H. apply orb_false_iff in H as [Hk _].
  rewrite !ContainsChar_app, Hk, itoa_no_char by reflexivity. reflexivity.
Qed.

(** X2: normalizing a TOML key path twice gives the same path as
    normalizing it once. *)
Theorem normalizeTOMLKeyPath_idempotent : forall keyPath,
  normalizeTOMLKeyPath (normalizeTOMLKeyPath keyPath) = normalizeTOMLKeyPath keyPath.
Proof.
  intros keyPath. unfold normalizeTOMLKeyPath.
  rewrite (Split_Join (map normalize_part (Split keyPath "."))).
  - rewrite map_map. apply (f_equal (fun l => Join l ".")). apply map_ext. apply normalize_part_idem.
  - pose proof (Split_nonempty keyPath ".") as H. destruct (Split keyPath "."); [congruence|discriminate].
  - intros w Hin. apply in_map_iff in Hin as [part [<- Hin]].
    apply normalize_part_no_dot. exact (Split_elems _ _ _ Hin).
Qed.

(* ================================================================== *)
(** * Facts about GetAllKeys *)

Lemma keys_under_map_cons : forall k x m p,
  keys_under (VMap ((k, x) :: m)) p = (keys_under x (join_key p k) ++ keys_under (VMap m) p)%list.
Proof. reflexivity. Qed.

Lemma keys_map_in : forall m p key,
  In key (keys_under (VMap m) p) -> exists k x, In (k, x) m /\ In key (keys_under x (join_key p k)).
Proof.
  induction m as [|[k x] m IH]; intros p key H; [destruct H|].
  rewrite keys_under_map_cons in H. apply in_app_or in H as [H|H].
  - exists k, x. split; [left; reflexivity|exact H].
  - destruct (IH p key H) as [k' [x' [Hin H']]]. exists k', x'. split; [right; exact Hin|exact H'].
Qed.

Lemma keys_list_in : forall p xs j key,
  In key ((fix go (i : nat) (l : list value) : list string :=
         match l with
         | [] => []
         | item :: l' =>
             (match item with
              | VMap _ | VMapAny _ => keys_under item (index_path p (Z.of_nat i))
              | _ => [index_path p (Z.of_nat i)]
              end ++ go (S i) l')%list
         end) j xs) ->
  exists i item, nth_error xs i = Some item /\
    In key (match item with
            | VMap _ | VMapAny _ => keys_under item (index_path p (Z.of_nat (j + i)))
            | _ => [index_path p (Z.of_nat (j + i))]
            end).
Proof.
  intros p. induction xs as [|item xs IH]; intros j key H; [destruct H|].
  apply in_app_or in H as [H|H].
  - exists 0, item. rewrite Nat.add_0_r. split; [reflexivity|exact H].
  - destruct (IH (S j) key H) as [i [it [Hi H']]]. exists (S i), it.
    rewrite <- Nat.add_succ_comm. split; [exact Hi|exact H'].
Qed.

Lemma keys_tarr_in : forall p xs j key,
  In key ((fix go (i : nat) (l : list gomap) : list string :=
         match l with
         | [] => []
         | item :: l' =>
             ((fix gom (m : gomap) : list string :=
                 match m with
                 | [] => []
                 | (k, x) :: m' =>
                     (keys_under x (join_key (index_path p (Z.of_nat i)) k) ++ gom m')%list
                 end) item ++ go (S i) l')%list
         end) j xs) ->
  exists i el, nth_error xs i = Some el /\
    In key (keys_under (VMap el) (index_path p (Z.of_nat (j + i)))).
Proof.
  intros p. induction xs as [|el xs IH]; intros j key H; [destruct H|].
  apply in_app_or in H as [H|H].
  - exists 0, el. rewrite Nat.add_0_r. split; [reflexivity|exact H].
  - destruct (IH (S j) key H) as [i [it [Hi H']]]. exists (S i), it.
    rewrite <- Nat.add_succ_comm. split; [exact Hi|exact H'].
Qed.

Lemma vsize_pos : forall v, 1 <= vsize v.
Proof. intros []; simpl; lia. Qed.

Lemma vsize_map_in : forall m k x, In (k, x) m -> vsize x < vsize (VMap m).
Proof.
  induction m as [|[k' y] m IH]; intros k x H; [destruct H|].
  change (vsize (VMap ((k', y) :: m))) with (S (vsize y + pred (vsize (VMap m)))).
  pose proof (vsize_pos (VMap m)).
  destruct H as [H|H]; [injection H as -> ->; lia|]. specialize (IH k x H). lia.
Qed.

Lemma vsize_list_in : forall xs x, In x xs -> vsize x < vsize (VList xs).
Proof.
  induction xs as [|y xs IH]; intros x H; [destruct H|].
  change (vsize (VList (y :: xs))) with (S (vsize y + pred (vsize (VList xs)))).
  pose proof (vsize_pos (VList xs)).
  destruct H as [<-|H]; [lia|]. specialize (IH x H). lia.
Qed.

Lemma vsize_tarr_in : forall xs el, In el xs -> vsize (VMap el) < vsize (VTableArray xs).
Proof.
  induction xs as [|y xs IH]; intros el H; [destruct H|].
  change (vsize (VTableArray (y :: xs))) with (S (vsize (VMap y) + pred (vsize (VTableArray xs)))).
  pose proof (vsize_pos (VTableArray xs)).
  destruct H as [<-|H]; [lia|]. specialize (IH el H). lia.
Qed.

Lemma keys_plain_map_cons : forall k x m,
  keys_plain (VMap ((k, x) :: m))
  = key_plain k && negb (existsb (fun kx => String.eqb k (fst kx)) m)
    && keys_plain x && keys_plain (VMap m).
Proof. reflexivity. Qed.

Lemma keys_plain_list : forall xs,
  keys_plain (VList xs) = Z.leb (Z.of_nat (length xs)) (2 ^ 63) && forallb keys_plain xs.
Proof. reflexivity. Qed.

Lemma keys_plain_tarr : forall xs,
  keys_plain (VTableArray xs)
  = Z.leb (Z.of_nat (length xs)) (2 ^ 63) && forallb (fun m => keys_plain (VMap m)) xs.
Proof. reflexivity. Qed.

Lemma keys_plain_in : forall m k x,
  keys_plain (VMap m) = true -> In (k, x) m ->
  lookup k m = Some x /\ key_plain k = true /\ keys_plain x = true.
Proof.
  induction m as [|[k' y] m IH]; intros k x Hm Hin; [destruct Hin|].
  rewrite keys_plain_map_cons in Hm.
  apply andb_true_iff in Hm as [Hm Hrest]. apply andb_true_iff in Hm as [Hm Hy].
  apply andb_true_iff in Hm as [Hk Hnd].
  destruct Hin as [Heq|Hin].
  - injection Heq as -> ->. simpl. rewrite String.eqb_refl. auto.
  - destruct (IH k x Hrest Hin) as [Hl Hr]. split; [|exact Hr].
    simpl. destruct (String.eqb_spec k k') as [->|]; [|exact Hl].
    exfalso. apply negb_true_iff in Hnd.
    assert (Hx : existsb (fun kx => String.eqb k' (fst kx)) m = true).
    { apply existsb_exists. exists (k', x). split; [exact Hin|apply String.eqb_refl]. }
    congruence.
Qed.

(** Walking the [convertMapInterface] copy of a [map[any]any] lists the
    same keys as walking the original. *)
Lemma keys_under_conv : forall v p, keys_under (conv_val v) p = keys_under v p.
Proof.
  assert (H : forall n v, vsize v <= n -> forall p, keys_under (conv_val v) p = keys_under v p).
  { induction n as [|n IH]; intros v Hv p; [pose proof (vsize_pos v); lia|].
    destruct v as [| | | | | m | |]; try reflexivity.
    induction m as [|[k x] m IHm]; [reflexivity|].
    change (keys_under (conv_val (VMapAny ((k, x) :: m))) p)
      with (keys_under (conv_val x) (join_key p k) ++ keys_under (conv_val (VMapAny m)) p)%list.
    change (keys_under (VMapAny ((k, x) :: m)) p)
      with (keys_under x (join_key p k) ++ keys_under (VMapAny m) p)%list.
    change (vsize (VMapAny ((k, x) :: m))) with (S (vsize x + pred (vsize (VMapAny m)))) in Hv.
    pose proof (vsize_pos (VMapAny m)).
    rewrite (IH x ltac:(lia)), IHm by lia. reflexivity. }
  intros v p. exact (H (vsize v) v (le_n _) p).
Qed.

Lemma join_key_app : forall p k X, join_key p (k ++ X) = join_key p k ++ X.
Proof.
  intros p k X. unfold join_key. destruct (String.eqb p ""); [reflexivity|].
  rewrite !sapp_assoc. reflexivity.
Qed.

Lemma join_key_nonempty : forall q s, q <> EmptyString -> join_key q s = q ++ String "." s.
Proof.
  intros q s Hq. unfold join_key. destruct (String.eqb_spec q ""); [congruence|reflexivity].
Qed.

Lemma join_key_ne : forall p k, k <> EmptyString -> join_key p k <> EmptyString.
Proof.
  intros p k Hk. unfold join_key. destruct (String.eqb p ""); [exact Hk|].
  destruct p; discriminate.
Qed.

Lemma index_path_ne : forall q i, index_path q i <> EmptyString.
Proof. intros [|c q] i; discriminate. Qed.

Lemma key_plain_parts : forall k,
  key_plain k = true -> k <> EmptyString /\ ContainsChar k "." = false /\ ContainsChar k "[" = false.
Proof.
  intros k H. unfold key_plain in H.
  apply andb_true_iff in H as [H Hb]. apply andb_true_iff in H as [He Hd].
  apply negb_true_iff in He, Hd, Hb. split; [|auto].
  intros ->. discriminate.
Qed.

Lemma get_loop_seg : forall seg key idx cur nx c r,
  parseKeySegment seg = Some (key, idx) -> get_key cur key = Ok nx -> get_index nx idx = Ok c ->
  get_loop cur (seg :: r) = match r with [] => Ok c | _ :: _ => get_loop c r end.
Proof. intros seg key idx cur nx c r Hs Hk Hi. simpl. rewrite Hs, Hk, Hi. reflexivity. Qed.

Lemma get_loop_more : forall cur s' c,
  get_loop c (Split s' ".") = get_loop c (Split s' ".") ->
  match Split s' "." with [] => Ok cur | _ :: _ => get_loop c (Split s' ".") end
  = get_loop c (Split s' ".").
Proof.
  intros cur s' c _. pose proof (Split_nonempty s' ".") as H.
  destruct (Split s' "."); [congruence|reflexivity].
Qed.

Lemma indexed_seg_no_dot : forall k i, ContainsChar k "." = false ->
  ContainsChar (k ++ "[" ++ itoa i ++ "]") "." = false.
Proof. intros k i H. rewrite !ContainsChar_app, H, itoa_no_char by reflexivity. reflexivity. Qed.

(** Every key that [GetAllKeys] lists under a map resolves in that map to
    a value that is not a map. *)
Lemma keys_under_get : forall n m, vsize (VMap m) <= n -> keys_plain (VMap m) = true ->
  forall p key, In key (keys_under (VMap m) p) ->
  exists s w, key = join_key p s /\ get_loop (VMap m) (Split s ".") = Ok w
              /\ match w with VMap _ | VMapAny _ => False | _ => True end.
Proof.
  induction n as [|n IH]; intros m Hsz Hm p key Hin.
  { pose proof (vsize_pos (VMap m)); lia. }
  destruct (keys_map_in m p key Hin) as [k1 [x [Hkx Hin']]].
  destruct (keys_plain_in m k1 x Hm Hkx) as [Hl [Hk1 Hx]].
  destruct (key_plain_parts k1 Hk1) as [Hne [Hdot Hbr]].
  pose proof (vsize_map_in m k1 x Hkx) as Hxs.
  assert (Hseg1 : parseKeySegment k1 = Some (k1, (-1)%Z)) by (apply parseKeySegment_plain; exact Hbr).
  assert (Hg1 : get_key (VMap m) k1 = Ok x) by (simpl; rewrite Hl; reflexivity).
  assert (Hq : join_key p k1 <> EmptyString) by (apply join_key_ne; exact Hne).
  destruct x as [| b | z | s0 | m2 | m2 | xs | xs].
  1-4: (destruct Hin' as [<-|[]]; exists k1; eexists; split; [reflexivity|]; split;
        [rewrite (Split_no_sep k1 "." Hdot), (get_loop_seg _ _ _ _ _ _ [] Hseg1 Hg1 eq_refl);
         reflexivity|exact I]).
  - (* a nested map *)
    destruct (IH m2 ltac:(lia) Hx (join_key p k1) key Hin') as [s' [w [Hk [Hget Hw]]]].
    exists (k1 ++ String "." s'), w. split.
    + rewrite Hk, join_key_nonempty by exact Hq. rewrite join_key_app. reflexivity.
    + split; [|exact Hw]. rewrite (Split_app_sep k1 s' "." Hdot).
      rewrite (get_loop_seg _ _ _ _ _ _ (Split s' ".") Hseg1 Hg1 eq_refl).
      rewrite get_loop_more by reflexivity. exact Hget.
  - simpl in Hx. discriminate.
  - (* an array *)
    rewrite keys_plain_list in Hx. apply andb_true_iff in Hx as [Hlen Hall].
    destruct (keys_list_in (join_key p k1) xs 0 key Hin') as [i [item [Hi Hin2]]].
    rewrite Nat.add_0_l in Hin2.
    assert (Hilen : i < length xs) by (apply nth_error_Some; rewrite Hi; discriminate).
    assert (Hib : (0 <= Z.of_nat i <= 2 ^ 63 - 1)%Z) by (apply Z.leb_le in Hlen; lia).
    set (seg := k1 ++ "[" ++ itoa (Z.of_nat i) ++ "]").
    assert (Hseg : parseKeySegment seg = Some (k1, Z.of_nat i))
      by (apply parseKeySegment_index; assumption).
    assert (Hsegdot : ContainsChar seg "." = false) by (apply indexed_seg_no_dot; exact Hdot).
    assert (Hgi : get_index (VList xs) (Z.of_nat i) = Ok item).
    { unfold get_index. rewrite Nat2Z.id, Hi. destruct (Z.leb_spec 0 (Z.of_nat i)); [reflexivity|lia]. }
    assert (Hsk : index_path (join_key p k1) (Z.of_nat i) = join_key p seg)
      by (unfold seg; rewrite index_path_segment, join_key_app; reflexivity).
    assert (Hitem : keys_plain item = true)
      by (rewrite forallb_forall in Hall; apply Hall; exact (nth_error_In _ _ Hi)).
    assert (Hisz : vsize item < vsize (VList xs)) by (apply vsize_list_in; exact (nth_error_In _ _ Hi)).
    destruct item as [| | | | m3 | m3 | ys | ys].
    1-4, 7-8: (destruct Hin2 as [<-|[]]; exists seg; eexists; split; [exact Hsk|]; split;
               [rewrite (Split_no_sep seg "." Hsegdot), (get_loop_seg _ _ _ _ _ _ [] Hseg Hg1 Hgi);
                reflexivity|exact I]).
    + destruct (IH m3 ltac:(lia) Hitem _ key Hin2) as [s' [w [Hk [Hget Hw]]]].
      exists (seg ++ String "." s'), w. split.
      * rewrite Hk, join_key_nonempty by apply index_path_ne. rewrite Hsk, join_key_app. reflexivity.
      * split; [|exact Hw]. rewrite (Split_app_sep seg s' "." Hsegdot).
        rewrite (get_loop_seg _ _ _ _ _ _ (Split s' ".") Hseg Hg1 Hgi).
        rewrite get_loop_more by reflexivity. exact Hget.
    + simpl in Hitem. discriminate.
  - (* a TOML array of tables *)
    rewrite keys_plain_tarr in Hx. apply andb_true_iff in Hx as [Hlen Hall].
    destruct (keys_tarr_in (join_key p k1) xs 0 key Hin') as [i [el [Hi Hin2]]].
    change (@nth_error (list (string * value)) xs i = Some el) in Hi.
    rewrite Nat.add_0_l in Hin2.
    assert (Hilen : i < length xs) by (apply nth_error_Some; rewrite Hi; discriminate).
    assert (Hib : (0 <= Z.of_nat i <= 2 ^ 63 - 1)%Z) by (apply Z.leb_le in Hlen; lia).
    set (seg := k1 ++ "[" ++ itoa (Z.of_nat i) ++ "]").
    assert (Hseg : parseKeySegment seg = Some (k1, Z.of_nat i))
      by (apply parseKeySegment_index; assumption).
    assert (Hsegdot : ContainsChar seg "." = false) by (apply indexed_seg_no_dot; exact Hdot).
    assert (Hgi : get_index (VTableArray xs) (Z.of_nat i) = Ok (VMap el)).
    { unfold get_index. rewrite Nat2Z.id, Hi. destruct (Z.leb_spec 0 (Z.of_nat i)); [reflexivity|lia]. }
    assert (Hsk : index_path (join_key p k1) (Z.of_nat i) = join_key p seg)
      by (unfold seg; rewrite index_path_segment, join_key_app; reflexivity).
    assert (Hitem : keys_plain (VMap el) = true)
      by (rewrite forallb_forall in Hall; apply (Hall el); exact (nth_error_In _ _ Hi)).
    assert (Hisz : vsize (VMap el) < vsize (VTableArray xs))
      by (apply vsize_tarr_in; exact (nth_error_In _ _ Hi)).
    destruct (IH el ltac:(lia) Hitem _ key Hin2) as [s' [w [Hk [Hget Hw]]]].
    exists (seg ++ String "." s'), w. split.
    + rewrite Hk, join_key_nonempty by apply index_path_ne. rewrite Hsk, join_key_app. reflexivity.
    + split; [|exact Hw]. rewrite (Split_app_sep seg s' "." Hsegdot).
      rewrite (get_loop_seg _ _ _ _ _ _ (Split s' ".") Hseg Hg1 Hgi).
      rewrite get_loop_more by reflexivity. exact Hget.
Qed.

(** X3: on a tree whose maps are [map[string]any] with distinct keys that
    are non-empty and free of dots and brackets (and whose arrays have
    fewer than [2^63] elements), every key path [GetAllKeys(data, "")]
    lists passes [ValidateKeyPath], and [GetValue] reads a value there
    that is not a map: scalars, elements of [[]any] arrays, and the
    fields of TOML table-array elements. *)
Theorem GetAllKeys_keys_resolve : forall data key,
  keys_plain (VMap data) = true -> In key (GetAllKeys data "") ->
  ValidateKeyPath data key = None
  /\ exists w, GetValue data key = Ok w /\ match w with VMap _ | VMapAny _ => False | _ => True end.
Proof.
  intros data key Hd Hin.
  destruct (keys_under_get (vsize (VMap data)) data (le_n _) Hd "" key Hin) as [s [w [Hk [Hget Hw]]]].
  unfold join_key in Hk. simpl in Hk. subst s.
  unfold ValidateKeyPath, GetValue. rewrite Hget. split; [reflexivity|]. exists w. auto.
Qed.

Lemma GetAllKeys_keys_resolve_witness :
  (keys_plain (VMap [("db", VMap [("host", VString "h"); ("ports", VList [VInt 1; VInt 2])]);
                     ("t", VTableArray [[("a", VBool true)]])]) = true
   /\ In "db.ports[1]" (GetAllKeys [("db", VMap [("host", VString "h"); ("ports", VList [VInt 1; VInt 2])]);
                                    ("t", VTableArray [[("a", VBool true)]])] ""))
  /\ ValidateKeyPath [("db", VMap [("host", VString "h"); ("ports", VList [VInt 1; VInt 2])]);
                      ("t", VTableArray [[("a", VBool true)]])] "db.ports[1]" = None.
Proof.
  assert (H : keys_plain (VMap [("db", VMap [("host", VString "h"); ("ports", VList [VInt 1; VInt 2])]);
                                ("t", VTableArray [[("a", VBool true)]])]) = true
              /\ In "db.ports[1]" (GetAllKeys [("db", VMap [("host", VString "h");
                                                  ("ports", VList [VInt 1; VInt 2])]);
                                               ("t", VTableArray [[("a", VBool true)]])] ""))
    by (split; [vm_compute; reflexivity|vm_compute; right; right; left; reflexivity]).
  split; [exact H|].
  exact (proj1 (GetAllKeys_keys_resolve _ _ (proj1 H) (proj2 H))).
Defined.

Lemma lookup_map_set_ne : forall k k' x m, k <> k' -> lookup k (map_set k' x m) = lookup k m.
Proof.
  intros k k' x m Hne. induction m as [|[k2 y] m IH]; simpl.
  - destruct (String.eqb_spec k k'); [congruence|reflexivity].
  - destruct (String.eqb_spec k' k2) as [->|Hne2]; simpl.
    + apply String.eqb_neq in Hne. rewrite Hne. reflexivity.
    + destruct (String.eqb k k2); [reflexivity|exact IH].
Qed.

(** One call of [set_loop] on a [map[string]any] node writes at most the
    entry named by the first key segment. *)
Lemma set_loop_top_shape : forall seg r m v key idx,
  parseKeySegment seg = Some (key, idx) ->
  fst (set_loop (VMap m) (seg :: r) v) = VMap m
  \/ exists x, fst (set_loop (VMap m) (seg :: r) v) = VMap (map_set key x m).
Proof.
  intros seg r m v key idx Hs. simpl. rewrite Hs.
  repeat (match goal with
          | |- context [match ?x with _ => _ end] => destruct x
          end; simpl);
    first [left; reflexivity | right; eexists; reflexivity].
Qed.

Lemma set_loop_top : forall keys m v, exists m',
  fst (set_loop (VMap m) keys v) = VMap m'
  /\ forall k, (forall k1 i1, parseKeySegment (hd "" keys) = Some (k1, i1) -> k1 <> k) ->
     lookup k m' = lookup k m.
Proof.
  intros [|seg r] m v; [exists m; split; reflexivity|]. cbn [hd].
  destruct (parseKeySegment seg) as [[key idx]|] eqn:Hs.
  - destruct (set_loop_top_shape seg r m v key idx Hs) as [H|[x H]]; rewrite H.
    + exists m. split; reflexivity.
    + exists (map_set key x m). split; [reflexivity|].
      intros k Hk. apply lookup_map_set_ne. intros Heq; subst; exact (Hk _ idx eq_refl eq_refl).
  - exists m. split; [|reflexivity]. simpl. rewrite Hs. reflexivity.
Qed.

Lemma get_key_err : forall cur key e, get_key cur key = Err e -> e = EKeyNotFound \/ e = ENotObject.
Proof.
  intros cur key e H. unfold get_key in H. revert H.
  destruct cur; try (intros H; injection H as <-; auto);
    destruct (lookup _ _); intros H; try discriminate; injection H as <-; auto.
Qed.

Lemma get_index_err : forall cur idx e, get_index cur idx = Err e -> e = EIndexOutOfBounds \/ e = ENotArray.
Proof.
  intros cur idx e H. unfold get_index in H. revert H.
  destruct (0 <=? idx)%Z; [|discriminate].
  destruct cur; try (intros H; injection H as <-; auto);
    destruct (nth_error _ _); intros H; try discriminate; injection H as <-; auto.
Qed.

Lemma get_loop_errors : forall keys cur e, keys <> [] -> get_loop cur keys = Err e ->
  (exists seg, e = ESegment seg /\ In seg keys)
  \/ e = EKeyNotFound \/ e = ENotObject \/ e = EIndexOutOfBounds \/ e = ENotArray.
Proof.
  induction keys as [|seg r IH]; intros cur e Hne H; [congruence|].
  simpl in H. destruct (parseKeySegment seg) as [[key idx]|] eqn:Hs.
  - destruct (get_key cur key) as [next|e1] eqn:Hk.
    + destruct (get_index next idx) as [c|e2] eqn:Hi.
      * destruct r as [|s r']; [discriminate|].
        destruct (IH c e ltac:(discriminate) H) as [[sg [-> Hin]]|Hrest].
        -- left. exists sg. split; [reflexivity|right; exact Hin].
        -- right. exact Hrest.
      * injection H as <-. destruct (get_index_err _ _ _ Hi) as [->| ->]; auto 6.
    + injection H as <-. destruct (get_key_err _ _ _ Hk) as [->| ->]; auto 6.
  - injection H as <-. left. exists seg. split; [reflexivity|left; reflexivity].
Qed.

(** [processRuleInBatch] when the source key resolves: the event reflects
    the [SetValue] error, and the target returned is the one [SetValue]
    left behind, whether it failed or not. *)
Lemma processRuleInBatch_set : forall src tgt rule nv,
  GetValue src (SourceKey rule) = Ok nv ->
  processRuleInBatch src tgt rule
  = (match snd (SetValue tgt (TargetKey rule) nv) with
     | Some _ => mkEvent (ID rule) None false "Failed to set target value"
     | None => mkEvent (ID rule) (Some nv) true ""
     end, fst (SetValue tgt (TargetKey rule) nv)).
Proof.
  intros src tgt rule nv H. unfold processRuleInBatch. rewrite H.
  destruct (SetValue tgt (TargetKey rule) nv) as [t' [e|]]; reflexivity.
Qed.

(** X4: [GetValue] fails only with an invalid-segment error naming one of
    the dot-separated segments of the path, a missing key, a non-object,
    an index out of bounds or a non-array: its closing "unexpected end of
    key path" error is never returned. *)
Theorem GetValue_error_kinds : forall data keyPath e,
  GetValue data keyPath = Err e ->
  (exists seg, e = ESegment seg /\ In seg (Split keyPath "."))
  \/ e = EKeyNotFound \/ e = ENotObject \/ e = EIndexOutOfBounds \/ e = ENotArray.
Proof.
  intros data keyPath e H. apply (get_loop_errors (Split keyPath ".") (VMap data) e).
  - apply Split_nonempty.
  - exact H.
Qed.

Lemma GetValue_error_kinds_witness :
  GetValue [("a", VList [VInt 1])] "a[3]" = Err EIndexOutOfBounds
  /\ ((exists seg, EIndexOutOfBounds = ESegment seg /\ In seg (Split "a[3]" "."))
      \/ EIndexOutOfBounds = EKeyNotFound \/ EIndexOutOfBounds = ENotObject
      \/ EIndexOutOfBounds = EIndexOutOfBounds \/ EIndexOutOfBounds = ENotArray).
Proof.
  assert (H : GetValue [("a", VList [VInt 1])] "a[3]" = Err EIndexOutOfBounds) by (vm_compute; reflexivity).
  split; [exact H|]. exact (GetValue_error_kinds _ _ _ H).
Defined.

(** One unfolding step of [set_loop] on a non-empty key list. *)
Lemma set_loop_cons : forall current keySegment rest v,
  set_loop current (keySegment :: rest) v =
  match parseKeySegment keySegment with
  | None => (current, Some (ESegment keySegment))
  | Some (key, arrayIndex) =>
      match rest with
      | [] =>
          (* last key segment: set the value *)
          match current with
          | VMap m =>
              if Z.leb 0 arrayIndex then
                match lookup key m with
                | None => (current, Some (EArrayKeyNotFound key))
                | Some (VList a) =>
                    if Nat.ltb (Z.to_nat arrayIndex) (length a)
                    then (VMap (map_set key (VList (list_set a (Z.to_nat arrayIndex) v)) m), None)
                    else (current, Some EIndexOutOfBounds)
                | Some (VTableArray a) =>
                    if Nat.ltb (Z.to_nat arrayIndex) (length a)
                    then (current, Some (ETableArrayPrimitive key))
                    else (current, Some EIndexOutOfBounds)
                | Some _ => (current, Some ENotArray)
                end
              else (VMap (map_set key v m), None)
          | _ => (current, Some ESetNonObject)
          end
      | _ :: _ =>
          (* navigate to the next level *)
          match current with
          | VMap m =>
              match lookup key m with
              | None =>
                  if Z.leb 0 arrayIndex
                  then (current, Some (EArrayKeyNotFound key))
                  else
                    (* v[key] = make(map[string]any); current = v[key] *)
                    let '(next', e) := set_loop (VMap []) rest v in
                    (VMap (map_set key next' m), e)
              | Some next =>
                  if Z.leb 0 arrayIndex then
                    match next with
                    | VList arr =>
                        match nth_error arr (Z.to_nat arrayIndex) with
                        | None => (current, Some EIndexOutOfBounds)
                        | Some el =>
                            let '(el', e) := set_loop el rest v in
                            (VMap (map_set key (VList (list_set arr (Z.to_nat arrayIndex) el')) m), e)
                        end
                    | VTableArray arr =>
                        match nth_error arr (Z.to_nat arrayIndex) with
                        | None => (current, Some EIndexOutOfBounds)
                        | Some el =>
                            (* converted copy of the element *)
                            let '(_, e) := set_loop (VMap el) rest v in (current, e)
                        end
                    | _ => (current, Some ENotArray)
                    end
                  else
                    let '(next', e) := set_loop next rest v in
                    (VMap (map_set key next' m), e)
              end
          | VMapAny m =>
              (* converted copy of the map *)
              let converted := convertMapInterface m in
              match lookup key converted with
              | None =>
                  if Z.leb 0 arrayIndex
                  then (current, Some (EArrayKeyNotFound key))
                  else let '(_, e) := set_loop (VMap []) rest v in (current, e)
              | Some next =>
                  if Z.leb 0 arrayIndex then
                    match next with
                    | VList arr =>
                        match nth_error arr (Z.to_nat arrayIndex) with
                        | None => (current, Some EIndexOutOfBounds)
                        | Some el => let '(_, e) := set_loop el rest v in (current, e)
                        end
                    | VTableArray arr =>
                        match nth_error arr (Z.to_nat arrayIndex) with
                        | None => (current, Some EIndexOutOfBounds)
                        | Some el => let '(_, e) := set_loop (VMap el) rest v in (current, e)
                        end
                    | _ => (current, Some ENotArray)
                    end
                  else let '(_, e) := set_loop next rest v in (current, e)
              end
          | _ => (current, Some EConflict)
          end
      end
  end.
Proof. reflexivity. Qed.

(** The frame of [SetValue] on the paths of another first key. *)
Lemma SetValue_frame_aux : forall data path v q,
  (forall k1 i1 k2 i2,
     parseKeySegment (hd "" (Split path ".")) = Some (k1, i1) ->
     parseKeySegment (hd "" (Split q ".")) = Some (k2, i2) -> k1 <> k2) ->
  GetValue (fst (SetValue data path v)) q = GetValue data q.
Proof.
  intros data path v q H. unfold SetValue.
  destruct (set_loop_top (Split path ".") data v) as [m' [Hf Hl]].
  destruct (set_loop (VMap data) (Split path ".") v) as [r e]. cbn [fst] in Hf. subst r. cbn [fst].
  unfold GetValue. destruct (Split q ".") as [|s qr] eqn:Hq; [exfalso; exact (Split_nonempty q "." Hq)|].
  cbn [hd] in H.
  simpl. destruct (parseKeySegment s) as [[k2 i2]|] eqn:Hs; [|reflexivity].
  rewrite (Hl k2); [reflexivity|]. intros k1 i1 H1. exact (H k1 i1 k2 i2 H1 eq_refl).
Qed.

(** X6: [SetValue] keeps the writes it made before failing.  On a path
    [a.b[i]] where [a] is absent, the call creates [a] as an empty map and
    then fails because [b] is not there; [processRuleInBatch] reports the
    rule as failed and hands back the target with [a] added. *)
Theorem SetValue_partial_on_error : forall data a b i v,
  ContainsChar a "." = false -> ContainsChar a "[" = false -> lookup a data = None ->
  b <> EmptyString -> ContainsChar b "." = false -> ContainsChar b "[" = false ->
  (0 <= i <= 2 ^ 63 - 1)%Z ->
  SetValue data (a ++ "." ++ b ++ "[" ++ itoa i ++ "]") v
  = (map_set a (VMap []) data, Some (EArrayKeyNotFound b))
  /\ forall src rule, GetValue src (SourceKey rule) = Ok v ->
     TargetKey rule = a ++ "." ++ b ++ "[" ++ itoa i ++ "]" ->
     processRuleInBatch src data rule
     = (mkEvent (ID rule) None false "Failed to set target value", map_set a (VMap []) data).
Proof.
  intros data a b i v Had Hab Hl Hb Hbd Hbb Hi.
  assert (Hset : SetValue data (a ++ "." ++ b ++ "[" ++ itoa i ++ "]") v
                 = (map_set a (VMap []) data, Some (EArrayKeyNotFound b))).
  { unfold SetValue. change ("." ++ b ++ "[" ++ itoa i ++ "]") with (String "." (b ++ "[" ++ itoa i ++ "]")).
    rewrite (Split_app_sep a _ "." Had), (Split_no_sep _ "." (indexed_seg_no_dot b i Hbd)).
    rewrite (set_loop_step a [b ++ "[" ++ itoa i ++ "]"] data v (parseKeySegment_plain a Hab) ltac:(intro Hn; discriminate Hn)), Hl.
    cbn [set_loop]. rewrite (parseKeySegment_index b i Hb Hbb Hi).
    destruct (Z.leb_spec 0 i); [reflexivity|lia]. }
  split; [exact Hset|].
  intros src rule Hsrc Ht. rewrite (processRuleInBatch_set src data rule v Hsrc), Ht, Hset.
  reflexivity.
Qed.

Lemma SetValue_partial_on_error_witness :
  (ContainsChar "db" "." = false /\ ContainsChar "db" "[" = false
   /\ lookup "db" [("x", VInt 1)] = None
   /\ "hosts" <> EmptyString /\ ContainsChar "hosts" "." = false /\ ContainsChar "hosts" "[" = false
   /\ (0 <= 2 <= 2 ^ 63 - 1)%Z)
  /\ SetValue [("x", VInt 1)] ("db" ++ "." ++ "hosts" ++ "[" ++ itoa 2 ++ "]") (VString "h")
     = (map_set "db" (VMap []) [("x", VInt 1)], Some (EArrayKeyNotFound "hosts")).
Proof.
  split; [repeat split; try reflexivity; try discriminate; lia|].
  exact (proj1 (SetValue_partial_on_error [("x", VInt 1)] "db" "hosts" 2 (VString "h")
                  eq_refl eq_refl eq_refl ltac:(discriminate) eq_refl eq_refl ltac:(lia))).
Defined.

Lemma no_copies_lookup : forall m k x,
  no_copies (VMap m) = true -> lookup k m = Some x -> no_copies x = true.
Proof.
  induction m as [|[k' y] m IH]; intros k x Hm Hl; simpl in Hl; [discriminate|].
  simpl in Hm. apply andb_true_iff in Hm as [Hy Hm].
  destruct (String.eqb k k'); [congruence|].
  apply (IH k x); [exact Hm|exact Hl].
Qed.

Lemma no_copies_nth : forall xs i x,
  no_copies (VList xs) = true -> nth_error xs i = Some x -> no_copies x = true.
Proof.
  induction xs as [|y xs IH]; intros [|i] x Hm Hl; simpl in Hl; try discriminate;
    simpl in Hm; apply andb_true_iff in Hm as [Hy Hm].
  - congruence.
  - exact (IH i x Hm Hl).
Qed.

Lemma get_index_list : forall xs idx x,
  (0 <= idx)%Z -> nth_error xs (Z.to_nat idx) = Some x -> get_index (VList xs) idx = Ok x.
Proof.
  intros xs idx x Hi Hn. unfold get_index. destruct (Z.leb_spec 0 idx); [|lia]. rewrite Hn. reflexivity.
Qed.

Lemma get_index_neg : forall c idx, (idx < 0)%Z -> get_index c idx = Ok c.
Proof. intros c idx Hi. unfold get_index. destruct (Z.leb_spec 0 idx); [lia|reflexivity]. Qed.

Lemma get_key_set : forall m key x, get_key (VMap (map_set key x m)) key = Ok x.
Proof. intros m key x. unfold get_key. rewrite lookup_map_set_eq. reflexivity. Qed.

(** Setting along any key path through [map[string]any] nodes and [[]any]
    arrays, and reading back along the same path. *)
Lemma set_loop_get_loop_idx : forall keys cur v,
  keys <> [] -> no_copies cur = true -> snd (set_loop cur keys v) = None ->
  get_loop (fst (set_loop cur keys v)) keys = Ok v.
Proof.
  induction keys as [|seg rest IH]; intros cur v Hne Hcur Hset; [congruence|].
  destruct (parseKeySegment seg) as [[key idx]|] eqn:Hs;
    [|destruct cur; simpl in Hset; rewrite Hs in Hset; discriminate].
  destruct cur as [| | | |m|m|xs|xs]; try discriminate Hcur;
    try (simpl in Hset; rewrite Hs in Hset; destruct rest; simpl in Hset; discriminate).
  destruct rest as [|s2 r'].
  - (* the last segment *)
    simpl in Hset |- *. rewrite Hs in Hset |- *.
    destruct (Z.leb_spec 0 idx) as [Hi|Hi].
    + destruct (lookup key m) as [x|] eqn:Hl; [|discriminate Hset].
      destruct x as [| | | | | |a|a]; try discriminate Hset.
      * destruct (Nat.ltb_spec (Z.to_nat idx) (length a)) as [Hlt|]; [|discriminate Hset].
        cbn [fst]. rewrite get_key_set.
        rewrite (get_index_list _ idx v Hi (list_set_nth_error_eq a _ v Hlt)). reflexivity.
      * destruct (Nat.ltb (Z.to_nat idx) (length a)); discriminate Hset.
    + cbn [fst]. rewrite get_key_set, get_index_neg by exact Hi. reflexivity.
  - (* a segment before the last *)
    assert (Hr : s2 :: r' <> []) by (intro Hn; discriminate Hn).
    rewrite set_loop_cons, Hs in Hset |- *. cbv beta iota in Hset |- *.
    destruct (lookup key m) as [next|] eqn:Hl.
    + destruct (Z.leb_spec 0 idx) as [Hi|Hi].
      * pose proof (no_copies_lookup m key next Hcur Hl) as Hnx.
        destruct next as [| | | | | |arr|arr]; try discriminate Hset; try discriminate Hnx.
        destruct (nth_error arr (Z.to_nat idx)) as [el|] eqn:Hn; [|discriminate Hset].
        destruct (set_loop el (s2 :: r') v) as [el' e] eqn:Hsl. cbn [fst snd] in Hset |- *. subst e.
        assert (Hlt : Z.to_nat idx < length arr) by (apply nth_error_Some; rewrite Hn; discriminate).
        rewrite (get_loop_seg seg key idx _ _ el' (s2 :: r') Hs (get_key_set _ _ _)
                   (get_index_list _ idx el' Hi (list_set_nth_error_eq arr _ el' Hlt))).
        pose proof (IH el v Hr (no_copies_nth arr _ el Hnx Hn)) as IHe.
        rewrite Hsl in IHe. exact (IHe eq_refl).
      * destruct (set_loop next (s2 :: r') v) as [next' e] eqn:Hsl. cbn [fst snd] in Hset |- *. subst e.
        rewrite (get_loop_seg seg key idx _ _ next' (s2 :: r') Hs (get_key_set _ _ _)
                   (get_index_neg _ idx Hi)).
        pose proof (IH next v Hr (no_copies_lookup m key next Hcur Hl)) as IHe.
        rewrite Hsl in IHe. exact (IHe eq_refl).
    + destruct (Z.leb_spec 0 idx) as [Hi|Hi]; [discriminate Hset|].
      destruct (set_loop (VMap []) (s2 :: r') v) as [next' e] eqn:Hsl. cbn [fst snd] in Hset |- *. subst e.
      rewrite (get_loop_seg seg key idx _ _ next' (s2 :: r') Hs (get_key_set _ _ _)
                 (get_index_neg _ idx Hi)).
      pose proof (IH (VMap []) v Hr eq_refl) as IHe.
      rewrite Hsl in IHe. exact (IHe eq_refl).
Qed.

Lemma SetValue_get_same : forall data path v,
  no_copies (VMap data) = true -> snd (SetValue data path v) = None ->
  GetValue (fst (SetValue data path v)) path = Ok v.
Proof.
  intros data path v Hd Hset. unfold SetValue, GetValue in *.
  pose proof (set_loop_get_loop_idx (Split path ".") (VMap data) v (Split_nonempty path ".") Hd) as H.
  pose proof (set_loop_map_shape (Split path ".") data v) as Hshape.
  destruct (set_loop (VMap data) (Split path ".") v) as [res e].
  destruct res; try contradiction. simpl in Hset, H |- *. subst e. exact (H eq_refl).
Qed.

(** X7: on a tree with no [map[any]any] and no TOML table array, a
    successful [SetValue] at any key path, indexed segments into [[]any]
    arrays included, is read back by [GetValue] at the same path. *)
Theorem SetValue_GetValue_indexed : forall data path v,
  no_copies (VMap data) = true -> snd (SetValue data path v) = None ->
  GetValue (fst (SetValue data path v)) path = Ok v.
Proof. exact SetValue_get_same. Qed.

Lemma SetValue_GetValue_indexed_witness :
  (no_copies (VMap [("s", VList [VMap [("h", VString "a")]; VInt 2])]) = true
   /\ snd (SetValue [("s", VList [VMap [("h", VString "a")]; VInt 2])] "s[0].h" (VString "b")) = None)
  /\ GetValue (fst (SetValue [("s", VList [VMap [("h", VString "a")]; VInt 2])] "s[0].h" (VString "b")))
       "s[0].h" = Ok (VString "b").
Proof.
  assert (H : no_copies (VMap [("s", VList [VMap [("h", VString "a")]; VInt 2])]) = true
   /\ snd (SetValue [("s", VList [VMap [("h", VString "a")]; VInt 2])] "s[0].h" (VString "b")) = None)
    by (split; vm_compute; reflexivity).
  split; [exact H|]. exact (SetValue_GetValue_indexed _ _ _ (proj1 H) (proj2 H)).
Defined.

Lemma no_copies_map_cons : forall k x m,
  no_copies (VMap ((k, x) :: m)) = no_copies x && no_copies (VMap m).
Proof. reflexivity. Qed.

Lemma no_copies_list_cons : forall x l,
  no_copies (VList (x :: l)) = no_copies x && no_copies (VList l).
Proof. reflexivity. Qed.

Lemma no_copies_map_set : forall k x m,
  no_copies (VMap m) = true -> no_copies x = true -> no_copies (VMap (map_set k x m)) = true.
Proof.
  intros k x m Hm Hx. induction m as [|[k' y] m IH]; [simpl; rewrite Hx; reflexivity|].
  rewrite no_copies_map_cons in Hm. apply andb_true_iff in Hm as [Hy Hm].
  simpl map_set. destruct (String.eqb k k');
    rewrite no_copies_map_cons, ?Hx, ?Hy, ?Hm, ?(IH Hm); reflexivity.
Qed.

Lemma no_copies_list_set : forall l i x,
  no_copies (VList l) = true -> no_copies x = true -> no_copies (VList (list_set l i x)) = true.
Proof.
  induction l as [|y l IH]; intros [|i] x Hl Hx; try reflexivity;
    rewrite no_copies_list_cons in Hl; apply andb_true_iff in Hl as [Hy Hl]; simpl list_set;
    rewrite no_copies_list_cons.
  - rewrite Hx, Hl. reflexivity.
  - rewrite Hy, (IH i x Hl Hx). reflexivity.
Qed.

(** [SetValue] writes no [map[any]any] or TOML table array into a tree
    free of them, given a value free of them. *)
Lemma set_loop_no_copies : forall keys cur v,
  no_copies cur = true -> no_copies v = true -> no_copies (fst (set_loop cur keys v)) = true.
Proof.
  induction keys as [|seg rest IH]; intros cur v Hcur Hv; [exact Hcur|].
  rewrite set_loop_cons.
  destruct (parseKeySegment seg) as [[key idx]|]; [|exact Hcur].
  destruct cur as [| | | |m|m|xs|xs]; try discriminate Hcur; try (destruct rest; exact Hcur).
  destruct rest as [|s2 r'].
  - destruct (0 <=? idx)%Z.
    + destruct (lookup key m) as [x|] eqn:Hl; [|exact Hcur].
      destruct x as [| | | | | |a|a]; try exact Hcur.
      * destruct (Nat.ltb (Z.to_nat idx) (length a)); [|exact Hcur].
        apply no_copies_map_set; [exact Hcur|].
        apply no_copies_list_set; [exact (no_copies_lookup m key _ Hcur Hl)|exact Hv].
      * destruct (Nat.ltb (Z.to_nat idx) (length a)); exact Hcur.
    + apply no_copies_map_set; assumption.
  - destruct (lookup key m) as [next|] eqn:Hl.
    + pose proof (no_copies_lookup m key next Hcur Hl) as Hnx.
      destruct (0 <=? idx)%Z.
      * destruct next as [| | | | | |arr|arr]; try exact Hcur; try discriminate Hnx.
        destruct (nth_error arr (Z.to_nat idx)) as [el|] eqn:Hn; [|exact Hcur].
        pose proof (IH el v (no_copies_nth arr _ el Hnx Hn) Hv) as IHe.
        destruct (set_loop el (s2 :: r') v) as [el' e]. cbn [fst] in IHe |- *.
        apply no_copies_map_set; [exact Hcur|]. apply no_copies_list_set; assumption.
      * pose proof (IH next v Hnx Hv) as IHe.
        destruct (set_loop next (s2 :: r') v) as [next' e]. cbn [fst] in IHe |- *.
        apply no_copies_map_set; assumption.
    + destruct (0 <=? idx)%Z; [exact Hcur|].
      pose proof (IH (VMap []) v eq_refl Hv) as IHe.
      destruct (set_loop (VMap []) (s2 :: r') v) as [next' e]. cbn [fst] in IHe |- *.
      apply no_copies_map_set; assumption.
Qed.

Lemma SetValue_no_copies : forall data path v,
  no_copies (VMap data) = true -> no_copies v = true -> no_copies (VMap (fst (SetValue data path v))) = true.
Proof.
  intros data path v Hd Hv. unfold SetValue.
  pose proof (set_loop_no_copies (Split path ".") (VMap data) v Hd Hv) as H.
  destruct (set_loop (VMap data) (Split path ".") v) as [[] e]; exact H || exact Hd.
Qed.

Lemma SetValue_frame_first_key : forall data path v q,
  first_key path <> first_key q ->
  GetValue (fst (SetValue data path v)) q = GetValue data q.
Proof.
  intros data path v q H. apply SetValue_frame_aux.
  intros k1 i1 k2 i2 H1 H2 ->. apply H. unfold first_key. rewrite H1, H2. reflexivity.
Qed.

Lemma set_all_step : forall data p v us d',
  set_all data ((p, v) :: us) = Ok d' ->
  snd (SetValue data p v) = None /\ set_all (fst (SetValue data p v)) us = Ok d'.
Proof.
  intros data p v us d' H. simpl in H.
  destruct (SetValue data p v) as [d1 [e|]]; [discriminate H|]. auto.
Qed.

Lemma set_all_frame : forall us data d' q,
  set_all data us = Ok d' -> Forall (fun u => first_key (fst u) <> first_key q) us ->
  GetValue d' q = GetValue data q.
Proof.
  induction us as [|[p v] us IH]; intros data d' q H Hf.
  - simpl in H. injection H as <-. reflexivity.
  - destruct (set_all_step _ _ _ _ _ H) as [_ Hs]. inversion Hf as [|? ? Hp Hf']. subst.
    rewrite (IH _ _ q Hs Hf'). apply SetValue_frame_first_key. exact Hp.
Qed.

Lemma set_all_reads_back : forall us data d',
  no_copies (VMap data) = true -> Forall (fun u => no_copies (snd u) = true) us ->
  ForallOrdPairs (fun u w => first_key (fst u) <> first_key (fst w)) us ->
  set_all data us = Ok d' ->
  forall p v, In (p, v) us -> GetValue d' p = Ok v.
Proof.
  induction us as [|[p1 v1] us IH]; intros data d' Hd Hv Hk H p v Hin; [destruct Hin|].
  destruct (set_all_step _ _ _ _ _ H) as [Hset Hs].
  inversion Hv as [|? ? Hv1 Hv']. inversion Hk as [|? ? Hk1 Hk']. subst.
  destruct Hin as [Heq|Hin].
  - injection Heq as <- <-.
    rewrite (set_all_frame us _ d' p1 Hs).
    + exact (SetValue_get_same data p1 v1 Hd Hset).
    + eapply Forall_impl; [|exact Hk1]. intros u Hu E. cbn [fst] in Hu, E. apply Hu. rewrite E. reflexivity.
  - exact (IH _ d' (SetValue_no_copies data p1 v1 Hd Hv1) Hv' Hk' Hs p v Hin).
Qed.

(** X8: [updateJSONValues] applies every update: when it succeeds, on a
    loaded tree and with new values free of [map[any]any] and TOML table
    arrays, and with updates whose paths start with pairwise different
    keys, the tree it hands to [SaveFile] holds each new value at its
    path. *)
Theorem updateJSONValues_applies_all :
  forall ReadFile json_Unmarshal yaml_Unmarshal toml_Unmarshal filepath updates data d',
  LoadFile ReadFile json_Unmarshal yaml_Unmarshal toml_Unmarshal filepath = Ok data ->
  no_copies (VMap data) = true ->
  Forall (fun u => no_copies (snd u) = true) updates ->
  ForallOrdPairs (fun u w => first_key (fst u) <> first_key (fst w)) updates ->
  updateJSONValues ReadFile json_Unmarshal yaml_Unmarshal toml_Unmarshal filepath updates = Ok d' ->
  forall p v, In (p, v) updates -> GetValue d' p = Ok v.
Proof.
  intros RF ju yu tu fp us data d' Hl Hd Hv Hk H.
  unfold updateJSONValues in H. rewrite Hl in H.
  exact (set_all_reads_back us data d' Hd Hv Hk H).
Qed.

Lemma updateJSONValues_applies_all_witness :
  (LoadFile (fun _ => Some "{}") (fun _ => Some [("a", VInt 1)]) (fun _ => None) (fun _ => None)
     "c.json" = Ok [("a", VInt 1)]
   /\ no_copies (VMap [("a", VInt 1)]) = true
   /\ Forall (fun u => no_copies (snd u) = true) [("a", VInt 2); ("b.c", VString "x")]
   /\ ForallOrdPairs (fun u w => first_key (fst u) <> first_key (fst w))
        [("a", VInt 2); ("b.c", VString "x")]
   /\ updateJSONValues (fun _ => Some "{}") (fun _ => Some [("a", VInt 1)]) (fun _ => None)
        (fun _ => None) "c.json" [("a", VInt 2); ("b.c", VString "x")]
      = Ok [("a", VInt 2); ("b", VMap [("c", VString "x")])])
  /\ GetValue [("a", VInt 2); ("b", VMap [("c", VString "x")])] "b.c" = Ok (VString "x").
Proof.
  assert (H1 : LoadFile (fun _ => Some "{}") (fun _ => Some [("a", VInt 1)]) (fun _ => None)
                 (fun _ => None) "c.json" = Ok [("a", VInt 1)]) by (vm_compute; reflexivity).
  assert (H2 : no_copies (VMap [("a", VInt 1)]) = true) by reflexivity.
  assert (H3 : Forall (fun u => no_copies (snd u) = true) [("a", VInt 2); ("b.c", VString "x")])
    by (repeat constructor).
  assert (H4 : ForallOrdPairs (fun u w => first_key (fst u) <> first_key (fst w))
                 [("a", VInt 2); ("b.c", VString "x")])
    by (repeat constructor; vm_compute; discriminate).
  assert (H5 : updateJSONValues (fun _ => Some "{}") (fun _ => Some [("a", VInt 1)]) (fun _ => None)
                 (fun _ => None) "c.json" [("a", VInt 2); ("b.c", VString "x")]
               = Ok [("a", VInt 2); ("b", VMap [("c", VString "x")])]) by (vm_compute; reflexivity).
  split; [repeat split; assumption|].
  exact (updateJSONValues_applies_all _ _ _ _ _ _ _ _ H1 H2 H3 H4 H5 "b.c" (VString "x")
           ltac:(right; left; reflexivity)).
Defined.

Lemma slookup_sset_eq : forall {A} k (x : A) m, slookup k (sset k x m) = Some x.
Proof.
  intros A k x m. induction m as [|[k' y] m IH]; simpl.
  - rewrite String.eqb_refl. reflexivity.
  - destruct (String.eqb_spec k k') as [->|Hne]; simpl.
    + rewrite String.eqb_refl. reflexivity.
    + apply String.eqb_neq in Hne. rewrite Hne. exact IH.
Qed.

Lemma slookup_sset_ne : forall {A} k k' (x : A) m, k <> k' -> slookup k (sset k' x m) = slookup k m.
Proof.
  intros A k k' x m Hne. induction m as [|[k2 y] m IH]; simpl.
  - destruct (String.eqb_spec k k'); [congruence|reflexivity].
  - destruct (String.eqb_spec k' k2) as [->|Hne2]; simpl.
    + apply String.eqb_neq in Hne. rewrite Hne. reflexivity.
    + destruct (String.eqb k k2); [reflexivity|exact IH].
Qed.

(** ** The mutex table *)

Definition mutex_inv (st : MutexTable) : Prop :=
  (forall p n, slookup p (targetFileMutexes st) = Some n -> n < nextMutex st)
  /\ (forall p q n, slookup p (targetFileMutexes st) = Some n ->
                    slookup q (targetFileMutexes st) = Some n -> p = q).

Definition mutex_grows (st st' : MutexTable) : Prop :=
  forall p n, slookup p (targetFileMutexes st) = Some n -> slookup p (targetFileMutexes st') = Some n.

Lemma getTargetFileMutex_spec : forall Abs st f,
  mutex_inv st ->
  mutex_inv (snd (getTargetFileMutex Abs st f))
  /\ slookup (abs_or Abs f) (targetFileMutexes (snd (getTargetFileMutex Abs st f)))
     = Some (fst (getTargetFileMutex Abs st f))
  /\ mutex_grows st (snd (getTargetFileMutex Abs st f)).
Proof.
  intros Abs st f [Hlt Hinj]. unfold getTargetFileMutex. cbv zeta.
  generalize (abs_or Abs f). intros a.
  destruct (slookup a (targetFileMutexes st)) as [n|] eqn:Hl.
  - split; [split; assumption|]. split; [exact Hl|]. intros p k H; exact H.
  - cbn [fst snd targetFileMutexes nextMutex].
    split; [split|split].
    + intros p k H. cbn [targetFileMutexes nextMutex] in *. destruct (String.eqb_spec p a) as [->|Hne].
      * rewrite slookup_sset_eq in H. injection H as <-. lia.
      * rewrite slookup_sset_ne in H by exact Hne. specialize (Hlt p k H). lia.
    + intros p q k Hp Hq. cbn [targetFileMutexes nextMutex] in *.
      destruct (String.eqb_spec p a) as [->|Hp'], (String.eqb_spec q a) as [->|Hq'].
      * reflexivity.
      * rewrite slookup_sset_eq in Hp. rewrite slookup_sset_ne in Hq by exact Hq'.
        injection Hp as <-. specialize (Hlt q _ Hq). lia.
      * rewrite slookup_sset_eq in Hq. rewrite slookup_sset_ne in Hp by exact Hp'.
        injection Hq as <-. specialize (Hlt p _ Hp). lia.
      * rewrite slookup_sset_ne in Hp, Hq by assumption. exact (Hinj p q k Hp Hq).
    + apply slookup_sset_eq.
    + intros p k H. cbn [targetFileMutexes nextMutex] in *. rewrite slookup_sset_ne; [exact H|]. intros ->. congruence.
Qed.

Lemma get_mutexes_spec : forall Abs files st,
  mutex_inv st ->
  mutex_inv (snd (get_mutexes Abs st files))
  /\ length (fst (get_mutexes Abs st files)) = length files
  /\ (forall i, i < length files ->
        slookup (abs_or Abs (nth i files "")) (targetFileMutexes (snd (get_mutexes Abs st files)))
        = Some (nth i (fst (get_mutexes Abs st files)) 0))
  /\ mutex_grows st (snd (get_mutexes Abs st files)).
Proof.
  intros Abs files. induction files as [|f fs IH]; intros st Hinv.
  - simpl. split; [exact Hinv|]. split; [reflexivity|]. split; [intros i H; simpl in H; lia|].
    intros p n H; exact H.
  - destruct (getTargetFileMutex_spec Abs st f Hinv) as [Hinv1 [Hl1 Hg1]].
    simpl. destruct (getTargetFileMutex Abs st f) as [m st1] eqn:Hg. cbn [fst snd] in *.
    destruct (IH st1 Hinv1) as [Hinv2 [Hlen [Hall Hg2]]].
    destruct (get_mutexes Abs st1 fs) as [ms st2]. cbn [fst snd length] in *.
    split; [exact Hinv2|]. split; [rewrite Hlen; reflexivity|]. split.
    + intros [|i] Hi; simpl.
      * exact (Hg2 _ _ Hl1).
      * apply Hall. lia.
    + intros p n H. exact (Hg2 _ _ (Hg1 _ _ H)).
Qed.

(** ** Event delivery *)

Lemma send_all_firstn : forall es q,
  length q <= eventChanCap -> send_all q es = (q ++ firstn (eventChanCap - length q) es)%list.
Proof.
  induction es as [|e es IH]; intros q Hq; cbn [send_all].
  - rewrite firstn_nil, app_nil_r. reflexivity.
  - unfold sendEvent. destruct (Nat.ltb_spec (length q) eventChanCap) as [Hlt|Hge].
    + rewrite IH by (rewrite length_app; simpl; lia).
      rewrite length_app. cbn [length].
      replace (eventChanCap - length q) with (S (eventChanCap - (length q + 1))) by lia.
      cbn [firstn]. rewrite <- app_assoc. reflexivity.
    + replace (eventChanCap - length q) with 0 by lia. rewrite IH by lia.
      replace (eventChanCap - length q) with 0 by lia. reflexivity.
Qed.

(** ** Retrying the load *)

Lemma retry_loop_ok : forall load n i err d,
  retry_loop load i n err = Ok d
  <-> exists k, k < n /\ load (i + k) = Ok d /\ forall j, j < k -> exists e, load (i + j) = Err e.
Proof.
  intros load n. induction n as [|n IH]; intros i err d; simpl.
  - split; [discriminate|]. intros [k [Hk _]]. lia.
  - destruct (load i) as [d0|e0] eqn:Hl.
    + split.
      * intros H. injection H as <-. exists 0. rewrite Nat.add_0_r. split; [lia|].
        split; [exact Hl|]. intros j Hj. lia.
      * intros [k [Hk [Hd Hj]]]. destruct k as [|k].
        -- rewrite Nat.add_0_r in Hd. congruence.
        -- destruct (Hj 0 ltac:(lia)) as [e He]. rewrite Nat.add_0_r in He. congruence.
    + rewrite IH. split.
      * intros [k [Hk [Hd Hj]]]. exists (S k). split; [lia|].
        rewrite <- Nat.add_succ_comm. split; [exact Hd|].
        intros [|j] Hjk; [rewrite Nat.add_0_r; eauto|].
        rewrite <- Nat.add_succ_comm. apply Hj. lia.
      * intros [k [Hk [Hd Hj]]]. destruct k as [|k].
        -- rewrite Nat.add_0_r in Hd. congruence.
        -- exists k. split; [lia|]. rewrite Nat.add_succ_comm. split; [exact Hd|].
           intros j Hjk. rewrite Nat.add_succ_comm. apply Hj. lia.
Qed.

Lemma retry_loop_err : forall load n i err e,
  retry_loop load i (S n) err = Err e
  <-> (forall j, j <= n -> exists e', load (i + j) = Err e') /\ load (i + n) = Err e.
Proof.
  intros load n. induction n as [|n IH]; intros i err e; simpl.
  - rewrite Nat.add_0_r. destruct (load i) as [d|e0] eqn:Hl.
    + split; [discriminate|]. intros [_ H]. discriminate H.
    + split.
      * intros H. injection H as <-. split; [|reflexivity].
        intros j Hj. replace j with 0 by lia. rewrite Nat.add_0_r. eauto.
      * intros [_ H]. exact H.
  - destruct (load i) as [d|e0] eqn:Hl.
    + split; [discriminate|]. intros [H _]. destruct (H 0 ltac:(lia)) as [e' He].
      rewrite Nat.add_0_r in He. congruence.
    + change (retry_loop load (S i) (S n) e0 = Err e <->
              (forall j, j <= S n -> exists e', load (i + j) = Err e') /\ load (i + S n) = Err e).
      rewrite IH. rewrite <- Nat.add_succ_comm. split.
      * intros [Hj He]. split; [|exact He].
        intros [|j] Hjn; [rewrite Nat.add_0_r; eauto|].
        rewrite <- Nat.add_succ_comm. apply Hj. lia.
      * intros [Hj He]. split; [|exact He].
        intros j Hjn. rewrite Nat.add_succ_comm. apply Hj. lia.
Qed.

(** ** Events of a target group and of a batch *)

Lemma collect_rules_ids : forall rules sd upd evs all,
  map RuleID (fst (fst (collect_rules sd rules upd evs all))) = (map RuleID evs ++ map ID rules)%list.
Proof.
  intros rules sd upd evs all. rewrite (proj1 (collect_rules_spec rules sd upd evs all)).
  rewrite map_app, map_map. f_equal. apply map_ext. intros r.
  unfold processRuleForBatch. destruct (GetValue sd (SourceKey r)); reflexivity.
Qed.

Lemma processTargetGroup_ids : forall update sd content rules,
  map RuleID (fst (processTargetGroup update sd content rules)) = map ID rules.
Proof.
  intros update sd content rules. unfold processTargetGroup.
  pose proof (collect_rules_ids rules sd [] [] true) as H.
  destruct (collect_rules sd rules [] [] true) as [[events updates] ok]. cbn [fst] in H.
  destruct (ok && negb (Nat.eqb (length updates) 0)).
  - destruct (update content updates); cbn [fst]; [exact H|].
    rewrite map_map. exact H.
  - exact H.
Qed.

Lemma target_group_ids : forall update sd files t rules,
  map RuleID (fst (target_group update sd files t rules)) = map ID rules.
Proof.
  intros update sd files t rules. unfold target_group.
  destruct (slookup t files).
  - pose proof (processTargetGroup_ids (update t) sd s rules) as H.
    destruct (processTargetGroup (update t) sd s rules). exact H.
  - pose proof (processTargetGroup_ids (fun _ _ => Err EReadFile) sd "" rules) as H.
    destruct (processTargetGroup (fun _ _ => Err EReadFile) sd "" rules). exact H.
Qed.

Lemma process_groups_ids : forall update sd groups files,
  map RuleID (fst (process_groups update sd groups files)) = map ID (concat (map snd groups)).
Proof.
  intros update sd groups. induction groups as [|[t rs] gs IH]; intros files; [reflexivity|].
  simpl. pose proof (target_group_ids update sd files t rs) as H1.
  destruct (target_group update sd files t rs) as [evs files'].
  pose proof (IH files') as H2. destruct (process_groups update sd gs files') as [evs' files''].
  cbn [fst] in *. rewrite map_app, map_app, H1, H2. reflexivity.
Qed.

Lemma sset_append_concat : forall (t : string) (r : SyncRule) groups,
  Permutation (concat (map snd (sset t ((match slookup t groups with Some g => g | None => [] end) ++ [r])%list groups)))
              (concat (map snd groups) ++ [r])%list.
Proof.
  intros t r groups. induction groups as [|[k y] gs IH]; simpl; [reflexivity|].
  destruct (String.eqb t k); simpl.
  - rewrite <- !app_assoc. apply Permutation_app_head. apply Permutation_app_comm.
  - rewrite <- app_assoc. apply Permutation_app_head. exact IH.
Qed.

Lemma group_rules_perm : forall Abs rules groups,
  Permutation (concat (map snd (group_rules Abs rules groups))) (concat (map snd groups) ++ rules)%list.
Proof.
  intros Abs rules. induction rules as [|r rs IH]; intros groups; simpl.
  - rewrite app_nil_r. reflexivity.
  - rewrite IH, sset_append_concat, <- app_assoc. reflexivity.
Qed.

(** ** Debouncing *)

Lemma fire_until_flushed : forall t st,
  flushed (fire_until t st) = flushed st
  \/ exists d, pending st = Some d /\ d <= t /\ flushed (fire_until t st) = (flushed st ++ [d])%list.
Proof.
  intros t st. unfold fire_until. destruct (pending st) as [d|]; [|left; reflexivity].
  destruct (Nat.leb_spec d t); [right; exists d; auto|left; reflexivity].
Qed.

Lemma spaced_snoc : forall l d,
  spaced l = true -> (forall f, In f l -> f + debounce <= d) -> spaced (l ++ [d])%list = true.
Proof.
  induction l as [|a l IH]; intros d Hs Hf; [reflexivity|].
  destruct l as [|b l'].
  - simpl. rewrite andb_true_r. apply Nat.leb_le. apply Hf. left. reflexivity.
  - change (spaced (a :: b :: l') = true) in Hs. simpl in Hs.
    apply andb_true_iff in Hs as [Hab Hs].
    change (spaced (a :: ((b :: l') ++ [d]))%list = true). simpl. rewrite Hab. simpl.
    apply IH; [exact Hs|]. intros f Hin. apply Hf. right. exact Hin.
Qed.

(** The invariant of the debouncer: the flushes so far are [debounce]
    apart, none is later than [batchDelay] after the last accepted event,
    and a pending deadline is at most [batchDelay] after the last accepted
    event and at least [debounce] after every flush. *)
Definition watch_inv (st : WatchState) : Prop :=
  spaced (flushed st) = true
  /\ (forall f, In f (flushed st) -> exists l, lastEvent st = Some l /\ f <= l + batchDelay)
  /\ (forall d, pending st = Some d ->
        (exists l, lastEvent st = Some l /\ d <= l + batchDelay)
        /\ forall f, In f (flushed st) -> f + debounce <= d).

Lemma fire_until_inv : forall t st, watch_inv st -> watch_inv (fire_until t st).
Proof.
  intros t st [Hs [Hf Hp]]. unfold fire_until.
  destruct (pending st) as [d|] eqn:Hd; [|split; [exact Hs|split; [exact Hf|rewrite Hd; exact Hp]]].
  destruct (Nat.leb d t); [|split; [exact Hs|split; [exact Hf|rewrite Hd; exact Hp]]].
  destruct (Hp d eq_refl) as [[l [Hl Hdl]] Hfd].
  split; [|split]; cbn [flushed lastEvent pending].
  - apply spaced_snoc; assumption.
  - intros f Hin. apply in_app_or in Hin as [Hin|[<-|[]]]; [exact (Hf f Hin)|].
    exists l. split; assumption.
  - discriminate.
Qed.

Lemma handleFileChange_inv : forall matching t st,
  watch_inv st -> watch_inv (handleFileChange matching t st).
Proof.
  intros matching t st Hinv. pose proof Hinv as [Hs [Hf Hp]]. unfold handleFileChange.
  assert (Hacc : (forall l, lastEvent st = Some l -> l + debounce <= t) ->
            watch_inv (mkWatch (Some t) (if matching then Some (t + batchDelay) else pending st) (flushed st))).
  { intros Hlt. split; [exact Hs|split]; cbn [flushed lastEvent pending].
    - intros f Hin. destruct (Hf f Hin) as [l [Hl Hfl]]. pose proof (Hlt l Hl).
      exists t. split; [reflexivity|]. unfold debounce, batchDelay in *. lia.
    - intros d Hd. destruct matching.
      + injection Hd as <-. split; [exists t; split; [reflexivity|lia]|].
        intros f Hin. destruct (Hf f Hin) as [l [Hl Hfl]]. pose proof (Hlt l Hl).
        unfold debounce, batchDelay in *. lia.
      + destruct (Hp d Hd) as [[l [Hl Hdl]] Hfd]. split; [|exact Hfd].
        pose proof (Hlt l Hl). exists t. split; [reflexivity|].
        unfold debounce, batchDelay in *. lia. }
  destruct (lastEvent st) as [l|] eqn:Hl.
  - destruct (Nat.ltb_spec (t - l) debounce) as [Hlt|Hge]; [exact Hinv|].
    apply Hacc. intros l' H. injection H as <-. unfold debounce in *. lia.
  - apply Hacc. discriminate.
Qed.

Lemma run_events_inv : forall matching times st, watch_inv st -> watch_inv (run_events matching st times).
Proof.
  intros matching times. induction times as [|t ts IH]; intros st H; simpl.
  - apply fire_until_inv. exact H.
  - apply IH. apply handleFileChange_inv. apply fire_until_inv. exact H.
Qed.

Lemma concat_snd_perm : forall (l l' : list (string * list SyncRule)),
  Permutation l l' -> Permutation (concat (map snd l)) (concat (map snd l')).
Proof.
  intros l l' H. induction H as [|x l l' H IH|x y l|l l' l'' H1 IH1 H2 IH2]; simpl.
  - reflexivity.
  - apply Permutation_app_head. exact IH.
  - rewrite !app_assoc. apply Permutation_app_tail. apply Permutation_app_comm.
  - etransitivity; eassumption.
Qed.

(** X9: [getTargetFileMutex], called from an empty table on a sequence of
    target files, hands out the same mutex to two calls exactly when the
    two files have the same absolute path ([filepath.Abs], or the path
    itself when [Abs] fails). *)
Theorem getTargetFileMutex_same_iff : forall Abs files i j,
  i < length files -> j < length files ->
  (nth i (fst (get_mutexes Abs (mkMutexTable [] 0) files)) 0
   = nth j (fst (get_mutexes Abs (mkMutexTable [] 0) files)) 0
   <-> abs_or Abs (nth i files "") = abs_or Abs (nth j files "")).
Proof.
  intros Abs files i j Hi Hj.
  assert (H0 : mutex_inv (mkMutexTable [] 0)) by (split; intros; discriminate).
  destruct (get_mutexes_spec Abs files _ H0) as [[_ Hinj] [_ [Hall _]]].
  pose proof (Hall i Hi) as Hli. pose proof (Hall j Hj) as Hlj.
  split.
  - intros Heq. rewrite Heq in Hli. exact (Hinj _ _ _ Hli Hlj).
  - intros Heq. rewrite Heq in Hli. congruence.
Qed.

Lemma getTargetFileMutex_same_iff_witness :
  (0 < length ["a.yaml"; "b.yaml"; "a.yaml"] /\ 2 < length ["a.yaml"; "b.yaml"; "a.yaml"])
  /\ (nth 0 (fst (get_mutexes (fun _ => None) (mkMutexTable [] 0) ["a.yaml"; "b.yaml"; "a.yaml"])) 0
      = nth 2 (fst (get_mutexes (fun _ => None) (mkMutexTable [] 0) ["a.yaml"; "b.yaml"; "a.yaml"])) 0
      <-> abs_or (fun _ => None) (nth 0 ["a.yaml"; "b.yaml"; "a.yaml"] "")
          = abs_or (fun _ => None) (nth 2 ["a.yaml"; "b.yaml"; "a.yaml"] "")).
Proof.
  assert (H : 0 < length ["a.yaml"; "b.yaml"; "a.yaml"] /\ 2 < length ["a.yaml"; "b.yaml"; "a.yaml"])
    by (simpl; lia).
  split; [exact H|]. exact (getTargetFileMutex_same_iff _ _ 0 2 (proj1 H) (proj2 H)).
Defined.

(** X10: [sendEvent] never blocks and never lets the buffer of [eventChan]
    grow past its capacity of 100: with no receive in between, a sequence
    of sends keeps the events that fit, in order, and drops all the
    others. *)
Theorem sendEvent_keeps_what_fits : forall q es,
  length q <= eventChanCap ->
  send_all q es = (q ++ firstn (eventChanCap - length q) es)%list
  /\ length (send_all q es) <= eventChanCap.
Proof.
  intros q es Hq. rewrite (send_all_firstn es q Hq). split; [reflexivity|].
  rewrite length_app, length_firstn. lia.
Qed.

Lemma sendEvent_keeps_what_fits_witness :
  length (@nil SyncEvent) <= eventChanCap
  /\ send_all [] [mkEvent "r1" None true ""; mkEvent "r2" None false "x"]
     = ([] ++ firstn (eventChanCap - 0) [mkEvent "r1" None true ""; mkEvent "r2" None false "x"])%list
  /\ length (send_all [] [mkEvent "r1" None true ""; mkEvent "r2" None false "x"]) <= eventChanCap.
Proof.
  assert (H : length (@nil SyncEvent) <= eventChanCap) by (unfold eventChanCap; simpl; lia).
  split; [exact H|].
  exact (sendEvent_keeps_what_fits [] [mkEvent "r1" None true ""; mkEvent "r2" None false "x"] H).
Defined.

(** X11: [loadSourceFileWithRetry] makes at most three [LoadFile] attempts:
    it returns the first tree loaded among them, and fails only when all
    three fail, with the error of the third. *)
Theorem loadSourceFileWithRetry_attempts : forall load,
  (forall d, loadSourceFileWithRetry load = Ok d
     <-> exists k, k < 3 /\ load k = Ok d /\ forall j, j < k -> exists e, load j = Err e)
  /\ (forall e, loadSourceFileWithRetry load = Err e
     <-> (forall j, j <= 2 -> exists e', load j = Err e') /\ load 2 = Err e).
Proof.
  intros load. split.
  - intros d. exact (retry_loop_ok load 3 0 EReadFile d).
  - intros e. exact (retry_loop_err load 2 0 EReadFile e).
Qed.

(** X12: [processTargetGroup] reports on every rule of its group exactly
    once, in the order of the rules, whether [UpdateFileValues] succeeds,
    fails, or is not called. *)
Theorem processTargetGroup_one_event_per_rule : forall update sourceData content rules,
  map RuleID (fst (processTargetGroup update sourceData content rules)) = map ID rules.
Proof. exact processTargetGroup_ids. Qed.

(** X13: [processBatch] sends exactly one event per rule of the batch,
    whatever the outcome of loading the source and for any iteration order
    of its target groups. *)
Theorem processBatch_one_event_per_rule : forall Abs load update order files rules,
  (forall gs, Permutation (order gs) gs) ->
  Permutation (map RuleID (fst (processBatch Abs load update order files rules))) (map ID rules).
Proof.
  intros Abs load update order files rules Hord. unfold processBatch.
  destruct (loadSourceFileWithRetry load) as [sd|e].
  - rewrite process_groups_ids. apply Permutation_map.
    rewrite (concat_snd_perm _ _ (Hord _)), group_rules_perm. reflexivity.
  - cbn [fst]. rewrite map_map. reflexivity.
Qed.

Lemma processBatch_one_event_per_rule_witness :
  (forall gs : list (string * list SyncRule), Permutation (rev gs) gs)
  /\ Permutation
       (map RuleID (fst (processBatch (fun _ => None) (fun _ => Ok [("k", VInt 1)])
          (fun _ c _ => Ok c) (@rev _) [("t1", "k: 0")]
          [mkRule "r1" "s" "k" "t1" "k" true; mkRule "r2" "s" "k" "t2" "k" true;
           mkRule "r3" "s" "k" "t1" "k" true])))
       (map ID [mkRule "r1" "s" "k" "t1" "k" true; mkRule "r2" "s" "k" "t2" "k" true;
                mkRule "r3" "s" "k" "t1" "k" true]).
Proof.
  assert (H : forall gs : list (string * list SyncRule), Permutation (rev gs) gs)
    by (intros gs; apply Permutation_sym, Permutation_rev).
  split; [exact H|]. exact (processBatch_one_event_per_rule _ _ _ _ _ _ H).
Defined.

(** X14: the debouncer hands the batches of one source path to
    [processBatch] at least 500 ms apart, for any sequence of write
    events, matching rules or not. *)
Theorem debounce_flushes_spaced : forall matching times,
  spaced (flushed (run_events matching (mkWatch None None []) times)) = true.
Proof.
  intros matching times.
  assert (H0 : watch_inv (mkWatch None None [])).
  { split; [reflexivity|split]; [intros f []|intros d Hd; discriminate]. }
  exact (proj1 (run_events_inv matching times _ H0)).
Qed.

Lemma parseKeySegment_render_witness :
  ("servers" <> EmptyString /\ ContainsChar "servers" "[" = false /\ (0 <= 12 <= 2 ^ 63 - 1)%Z)
  /\ parseKeySegment ("servers" ++ "[" ++ itoa 12 ++ "]") = Some ("servers", 12%Z).
Proof.
  assert (H : "servers" <> EmptyString /\ ContainsChar "servers" "[" = false
              /\ (0 <= 12 <= 2 ^ 63 - 1)%Z) by (split; [discriminate|split; [reflexivity|lia]]).
  split; [exact H|].
  destruct H as [H1 [H2 H3]]. exact (proj1 (parseKeySegment_render "servers" 12 H1 H2 H3)).
Defined.

Lemma HasPrefix_app_indep : forall p B X Y,
  String.length p <= String.length B -> HasPrefix (B ++ X) p = HasPrefix (B ++ Y) p.
Proof.
  induction p as [|c p IH]; intros B X Y Hl; [destruct (B ++ X), (B ++ Y); reflexivity|].
  destruct B as [|d B]; simpl in Hl; [lia|]. simpl. rewrite (IH B X Y) by lia. reflexivity.
Qed.

Lemma HasPrefix_app_self : forall p Y, HasPrefix (p ++ Y) p = true.
Proof. induction p as [|c p IH]; intros Y; simpl; [destruct Y; reflexivity|rewrite Ascii.eqb_refl, IH; reflexivity]. Qed.

Lemma Index_unfold : forall s sep, Index s sep =
  if HasPrefix s sep then Some 0
  else match s with EmptyString => None | String _ s' => option_map S (Index s' sep) end.
Proof. intros [|c s] sep; reflexivity. Qed.

(** The first occurrence of [pat] does not move when the text after it
    changes. *)
Lemma Index_keep : forall A pat X Y,
  Index (A ++ pat ++ X) pat = Some (String.length A) -> Index (A ++ pat ++ Y) pat = Some (String.length A).
Proof.
  induction A as [|c A IH]; intros pat X Y H.
  - simpl. rewrite Index_unfold, HasPrefix_app_self. reflexivity.
  - assert (HP : HasPrefix (String c (A ++ pat ++ X)) pat = HasPrefix (String c (A ++ pat ++ Y)) pat).
    { pose proof (HasPrefix_app_indep pat (String c (A ++ pat)) X Y) as E.
      cbn [append] in E. rewrite !sapp_assoc in E. apply E. simpl. rewrite sapp_length. lia. }
    cbn [append String.length] in H |- *. rewrite Index_unfold in H |- *. rewrite <- HP.
    destruct (HasPrefix (String c (A ++ pat ++ X)) pat); [discriminate H|].
    destruct (Index (A ++ pat ++ X) pat) as [n|] eqn:E; [|discriminate H].
    injection H as Hn. subst n. rewrite (IH pat X Y E). reflexivity.
Qed.

(** X15: on a line [pre ++ pat ++ blanks ++ value ++ blanks ++ comment]
    with a plain value, rewriting the value with a plain [v1] and then
    with [v2] gives the same line as rewriting it with [v2] at once: the
    rewrite finds again the value it wrote and keeps the surroundings. *)
Theorem rewrite_line_rewrite_again : forall pre pat bl val bl2 r v1 v2,
  Index (pre ++ pat ++ bl ++ val ++ bl2 ++ r) pat = Some (String.length pre) ->
  all_blank bl = true -> all_blank bl2 = true ->
  val <> EmptyString -> is_blank (byte_at val 0) = false ->
  is_blank (byte_at val (String.length val - 1)) = false ->
  ContainsChar val dq = false -> ContainsChar val "#" = false -> ContainsChar val "010"%char = false ->
  (r = EmptyString \/ exists c, r = String "#" c) ->
  v1 <> EmptyString -> is_blank (byte_at v1 0) = false ->
  is_blank (byte_at v1 (String.length v1 - 1)) = false ->
  ContainsChar v1 dq = false -> ContainsChar v1 "#" = false -> ContainsChar v1 "010"%char = false ->
  rewrite_line (rewrite_line (pre ++ pat ++ bl ++ val ++ bl2 ++ r) pat v1) pat v2
  = rewrite_line (pre ++ pat ++ bl ++ val ++ bl2 ++ r) pat v2.
Proof.
  intros pre pat bl val bl2 r v1 v2 HI Hbl Hbl2 Hv Hv0 Hvl Hq Hh Hn Hr H1 H10 H1l H1q H1h H1n.
  rewrite (rewrite_line_shape pre pat bl val bl2 r v1 HI Hbl Hbl2 Hv Hv0 Hvl Hq Hh Hn Hr).
  rewrite (rewrite_line_shape pre pat bl val bl2 r v2 HI Hbl Hbl2 Hv Hv0 Hvl Hq Hh Hn Hr).
  apply (rewrite_line_shape pre pat bl v1 bl2 r v2); try assumption.
  exact (Index_keep pre pat _ _ HI).
Qed.

Lemma rewrite_line_rewrite_again_witness :
  rewrite_line (rewrite_line ("  " ++ "host:" ++ " " ++ "old" ++ "   " ++ "# keep me") "host:" "mid")
    "host:" "prod"
  = rewrite_line ("  " ++ "host:" ++ " " ++ "old" ++ "   " ++ "# keep me") "host:" "prod".
Proof.
  apply (rewrite_line_rewrite_again "  " "host:" " " "old" "   " "# keep me" "mid" "prod");
    try reflexivity; try discriminate.
  right. exists " keep me". reflexivity.
Defined.
